(** * FormatWord: segment alignment and formatting-preserving rewrite

    A shallow embedding of the alignment engine ([textMatcher.js], in its
    strict positional and its adaptive variant) and of the rewrite engine
    ([docxRebuilder.js], [pptxRebuilder.js], with the traversal helpers of
    [xmlUtils.js]), followed by the properties stated about them.

    JavaScript strings are sequences of UTF-16 code units, JavaScript numbers
    are binary64 floats (the kernel's primitive floats), a [Map] keyed by
    segment id is a [gmap], a [Set] of indices is a [gset]. *)

From Stdlib Require Import ZArith List Floats Uint63 Ascii String Lia.
From stdpp Require Import base gmap list sorting.

Set Warnings "-inexact-float,-register-all".

Local Open Scope Z_scope.

(** ** JavaScript strings and numbers *)

Module JS.

(** A string is the list of its UTF-16 code units. *)
Definition jsstring : Type := list Z.

(** Code units of an ASCII literal, for examples. *)
Definition lit (s : string) : jsstring :=
  List.map (fun a => Z.of_nat (nat_of_ascii a)) (list_ascii_of_string s).

Definition LF : Z := 10.
Definition CR : Z := 13.
Definition SP : Z := 32.

Definition between (lo hi c : Z) : bool := (lo <=? c) && (c <=? hi).

(** The class [\s] of a regular expression without the unicode flag, which is
    also what [String.prototype.trim] strips: WhiteSpace and LineTerminator. *)
Definition isSpace (c : Z) : bool :=
  between 9 13 c || (c =? 32) || (c =? 160) || (c =? 5760)
  || between 8192 8202 c || (c =? 8232) || (c =? 8233) || (c =? 8239)
  || (c =? 8287) || (c =? 12288) || (c =? 65279).

(** [\d], [\w] and the classes used by the anchor patterns. *)
Definition isDigit (c : Z) : bool := between 48 57 c.
Definition isUpper (c : Z) : bool := between 65 90 c.
Definition isLower (c : Z) : bool := between 97 122 c.
Definition isWord (c : Z) : bool := isDigit c || isUpper c || isLower c || (c =? 95).

Fixpoint dropWhile {A} (p : A -> bool) (l : list A) : list A :=
  match l with
  | [] => []
  | x :: l' => if p x then dropWhile p l' else l
  end.

Fixpoint takeWhile {A} (p : A -> bool) (l : list A) : list A :=
  match l with
  | [] => []
  | x :: l' => if p x then x :: takeWhile p l' else []
  end.

(** [s.trim()] *)
Definition trim (s : jsstring) : jsstring :=
  reverse (dropWhile isSpace (reverse (dropWhile isSpace s))).

(** [s.split(/\r?\n/)]: [cur] is the current line, reversed.  A line feed ends
    the line; one carriage return immediately before it belongs to the
    separator. *)
Fixpoint splitLines_go (cur : jsstring) (s : jsstring) : list jsstring :=
  match s with
  | [] => [reverse cur]
  | c :: s' =>
      if c =? LF then
        reverse (match cur with
             | d :: cur' => if d =? CR then cur' else cur
             | [] => cur
             end) :: splitLines_go [] s'
      else splitLines_go (c :: cur) s'
  end.

Definition splitLines (s : jsstring) : list jsstring := splitLines_go [] s.

(** [s.split(/(\s+)/)]: words and the whitespace runs between them, the
    separators kept.  [inWs] tells whether [cur] (reversed) is a whitespace
    run; a string that ends in whitespace yields a final empty word. *)
Fixpoint splitWords_go (inWs : bool) (cur : jsstring) (s : jsstring) : list jsstring :=
  match s with
  | [] => if inWs then [reverse cur; []] else [reverse cur]
  | c :: s' =>
      if isSpace c then
        if inWs then splitWords_go true (c :: cur) s'
        else reverse cur :: splitWords_go true [c] s'
      else
        if inWs then reverse cur :: splitWords_go false [c] s'
        else splitWords_go false (c :: cur) s'
  end.

Definition splitWords (s : jsstring) : list jsstring := splitWords_go false [] s.

(** [s.split(/\s+/)]: the same without the separators. *)
Fixpoint splitOnWs_go (inWs : bool) (cur : jsstring) (s : jsstring) : list jsstring :=
  match s with
  | [] => if inWs then [[]] else [reverse cur]
  | c :: s' =>
      if isSpace c then
        if inWs then splitOnWs_go true [] s'
        else reverse cur :: splitOnWs_go true [] s'
      else splitOnWs_go false (c :: cur) s'
  end.

Definition splitOnWs (s : jsstring) : list jsstring := splitOnWs_go false [] s.

(** [s.replace(/\s+/g, ' ')] *)
Fixpoint collapseWs_go (inWs : bool) (s : jsstring) : jsstring :=
  match s with
  | [] => []
  | c :: s' =>
      if isSpace c then
        if inWs then collapseWs_go true s' else SP :: collapseWs_go true s'
      else c :: collapseWs_go false s'
  end.

Definition collapseWs (s : jsstring) : jsstring := collapseWs_go false s.

(** [parts.join(sep)] *)
Fixpoint join (sep : jsstring) (parts : list jsstring) : jsstring :=
  match parts with
  | [] => []
  | [p] => p
  | p :: ps => p ++ sep ++ join sep ps
  end.

(** [a === b] on strings. *)
Definition strEq (a b : jsstring) : bool := bool_decide (a = b).

(** Numbers.  Lengths and counters are small integers, exactly representable. *)
Definition num (z : Z) : float :=
  if z <? 0 then PrimFloat.opp (PrimFloat.of_uint63 (Uint63.of_Z (- z)))
  else PrimFloat.of_uint63 (Uint63.of_Z z).

Definition len (s : jsstring) : float := num (Z.of_nat (length s)).

(** [Math.round]: the nearest integer, ties towards plus infinity.  A finite
    float is [m * 2^e]; for [e < 0] the result is [floor (m * 2^e + 1/2)]. *)
Definition Math_round (x : float) : float :=
  match Prim2SF x with
  | S754_finite s m e =>
      if 0 <=? e then x
      else
        let v := if s then Z.neg m else Z.pos m in
        let d := 2 ^ (- e) in
        num ((2 * v + d) / (2 * d))
  | _ => x
  end.

(** [Math.min], [Math.max]: NaN when an argument is NaN.  (The sign of a zero
    result is not modelled; the arguments here are string lengths.) *)
Definition Math_min (a b : float) : float :=
  if PrimFloat.is_nan a then a
  else if PrimFloat.is_nan b then b
  else if PrimFloat.ltb b a then b else a.

Definition Math_max (a b : float) : float :=
  if PrimFloat.is_nan a then a
  else if PrimFloat.is_nan b then b
  else if PrimFloat.ltb a b then b else a.

End JS.

Import JS.

(** ** Shared data model of the alignment engine *)

(** A source segment: [{ id, text, xmlPath }]. *)
Record Segment := mkSegment {
  id : Z;
  text : jsstring;
  xmlPath : jsstring;
}.

(** [stats = { total, matched, fuzzy, unmatched, method }] *)
Record Stats := mkStats {
  total : Z;
  matched : Z;
  fuzzy : Z;
  unmatchedCount : Z;
  method : string;
}.

(** What [matchTexts] returns.  [assigned] is a history variable, not part of
    the JavaScript result: it records, in the order of the [mapping.set]
    calls, which segment received which translated-paragraph index. *)
Record MatchResult := mkResult {
  mapping : gmap Z jsstring;
  unmatched : list Segment;
  stats : Stats;
  assigned : list (Segment * Z);
}.

(** [splitIntoParagraphs] (the same function in both matcher files). *)
Definition splitIntoParagraphs (text : jsstring) : list jsstring :=
  List.filter (fun line => (0 <? Z.of_nat (length line)))
    (List.map trim (splitLines text)).

(** [arr[k]] for a numeric index; [None] is [undefined]. *)
Definition at_ {A} (l : list A) (k : Z) : option A :=
  if k <? 0 then None else l !! Z.to_nat k.

(** [paragraphs[k]] where a string is expected.  Wherever the matchers index
    the translated paragraphs the index is in range (see [windowLoop_range],
    and the loop bounds of the strict cases); [undefined] reads as the empty
    string here. *)
Definition get_ (l : list jsstring) (k : Z) : jsstring := default [] (at_ l k).

(** [arr.slice(k)] for [0 <= k]. *)
Definition slice {A} (l : list A) (k : Z) : list A := drop (Z.to_nat k) l.

(** A counted loop [for (let i = 0; i < n; i++) body]. *)
Definition forLoop {S} (n : Z) (body : S -> Z -> S) (s : S) : S :=
  fold_left body (List.map Z.of_nat (seq 0 (Z.to_nat n))) s.

(** The mutations the matchers perform on the objects they return. *)
Definition setMethod (m : string) (s : Stats) : Stats :=
  mkStats (total s) (matched s) (fuzzy s) (unmatchedCount s) m.
Definition setMatched (v : Z) (s : Stats) : Stats :=
  mkStats (total s) v (fuzzy s) (unmatchedCount s) (method s).
Definition setFuzzy (v : Z) (s : Stats) : Stats :=
  mkStats (total s) (matched s) v (unmatchedCount s) (method s).
Definition setUnmatched (v : Z) (s : Stats) : Stats :=
  mkStats (total s) (matched s) (fuzzy s) v (method s).

(** [stats.matched++], [stats.fuzzy++], [stats.unmatched++], [stats.unmatched--] *)
Definition incMatched (s : Stats) : Stats := setMatched (matched s + 1) s.
Definition incFuzzy (s : Stats) : Stats := setFuzzy (fuzzy s + 1) s.
Definition incUnmatched (s : Stats) : Stats := setUnmatched (unmatchedCount s + 1) s.
Definition decUnmatched (s : Stats) : Stats := setUnmatched (unmatchedCount s - 1) s.

(** [mapping.set(seg.id, value)], where [value] is built from the translated
    paragraph of index [k]; the history gets the pair. *)
Definition mapSet (seg : Segment) (k : Z) (value : jsstring) (r : MatchResult)
    : MatchResult :=
  mkResult (<[id seg := value]> (mapping r)) (unmatched r) (stats r)
           (assigned r ++ [(seg, k)]).

Definition updStats (f : Stats -> Stats) (r : MatchResult) : MatchResult :=
  mkResult (mapping r) (unmatched r) (f (stats r)) (assigned r).

(** [unmatched.push(seg)] *)
Definition pushUnmatched (seg : Segment) (r : MatchResult) : MatchResult :=
  mkResult (mapping r) (unmatched r ++ [seg]) (stats r) (assigned r).

(** [unmatched.length = 0; unmatched.push(...l)] *)
Definition resetUnmatched (l : list Segment) (r : MatchResult) : MatchResult :=
  mkResult (mapping r) l (stats r) (assigned r).

(** The objects [matchTexts] starts from. *)
Definition initial (srcCount : Z) : MatchResult :=
  mkResult ∅ [] (mkStats srcCount 0 0 0 EmptyString) [].

(** ** The exact structural match, the first case of both matchers

    Body of its loop.  [sourceSegments[i]] is in range in all the counted
    loops ([i < srcCount]); out of range JavaScript would raise, and the body
    leaves the state alone here. *)
Definition body1 (segs : list Segment) (paras : list jsstring)
    (r : MatchResult) (i : Z) : MatchResult :=
  match at_ segs i with
  | Some seg => mapSet seg i (get_ paras i) r
  | None => r
  end.

(** The branch [if (srcCount === trgCount)], the same code in both files. *)
Definition structureMatch (sourceSegments : list Segment)
    (translatedParagraphs : list jsstring) (r0 : MatchResult) : MatchResult :=
  let srcCount := Z.of_nat (length sourceSegments) in
  let r1 := updStats (setMethod "structure-1:1") r0 in
  let r2 := forLoop srcCount (body1 sourceSegments translatedParagraphs) r1 in
  updStats (setMatched srcCount) r2.

(** ** The strict positional matcher (src/engine/textMatcher.js) *)

Module Strict.

(** Body of the loop of case 2. *)
Definition body2 (segs : list Segment) (paras : list jsstring) (trgCount : Z)
    (r : MatchResult) (i : Z) : MatchResult :=
  match at_ segs i with
  | Some seg =>
      if i <? trgCount then updStats incMatched (mapSet seg i (get_ paras i) r)
      else updStats incUnmatched (pushUnmatched seg r)
  | None => r
  end.

(** Body of the loop of case 3. *)
Definition body3 (segs : list Segment) (paras : list jsstring) (srcCount : Z)
    (r : MatchResult) (i : Z) : MatchResult :=
  match at_ segs i with
  | Some seg =>
      let r' :=
        if i <? srcCount - 1 then mapSet seg i (get_ paras i) r
        else
          let remaining := join [SP] (slice paras i) in
          mapSet seg i remaining r
      in
      updStats incMatched r'
  | None => r
  end.

Definition matchTexts (sourceSegments : list Segment) (translationText : jsstring)
    : MatchResult :=
  let translatedParagraphs := splitIntoParagraphs translationText in
  let srcCount := Z.of_nat (length sourceSegments) in
  let trgCount := Z.of_nat (length translatedParagraphs) in
  let r0 := initial srcCount in
  if srcCount =? trgCount then structureMatch sourceSegments translatedParagraphs r0
  else if trgCount <? srcCount then
    let r1 := updStats (setMethod "sequential-partial") r0 in
    forLoop srcCount (body2 sourceSegments translatedParagraphs trgCount) r1
  else
    let r1 := updStats (setMethod "sequential-merge") r0 in
    let r2 := forLoop srcCount (body3 sourceSegments translatedParagraphs srcCount) r1 in
    updStats (setFuzzy (trgCount - srcCount)) r2.

End Strict.

(** ** The adaptive matcher (the second textMatcher.js) *)

Module Adaptive.

Local Open Scope float_scope.

(** [normalize]: collapse whitespace, trim. *)
Definition normalize (t : jsstring) : jsstring := trim (collapseWs t).

(** [s.substring(0, n)] *)
Definition substring0 (s : jsstring) (n : nat) : jsstring := take n s.

(** [s.toLowerCase()], on the Basic Latin and Latin-1 letters; other code
    units are left as they are.  [matchTexts] never reaches the one use of it:
    it calls [similarity] on at most 100 code units. *)
Definition toLowerCase (s : jsstring) : jsstring :=
  List.map (fun c =>
    if isUpper c || (between 192 222 c && negb (c =? 215)%Z) then (c + 32)%Z else c) s.

(** A [Set] of strings, in insertion order. *)
Definition setHas (x : jsstring) (l : list jsstring) : bool := existsb (strEq x) l.
Definition setAdd (l : list jsstring) (x : jsstring) : list jsstring :=
  if setHas x l then l else l ++ [x].
Definition setOf (l : list jsstring) : list jsstring := fold_left setAdd l [].

(** One row of the Levenshtein matrix: [prev] is row [i-1] from column [j-1]
    on, [left] is [matrix[i][j-1]], [ai] is [a[i-1]] and [b] is [b] from
    index [j-1] on. *)
Fixpoint levRow (ai : Z) (b : jsstring) (prev : list Z) (left : Z) : list Z :=
  match b, prev with
  | bj :: b', diag :: ((up :: _) as prev') =>
      let cost := if (ai =? bj)%Z then 0%Z else 1%Z in
      let v := Z.min (Z.min (up + 1) (left + 1)) (diag + cost) in
      v :: levRow ai b' prev' v
  | _, _ => []
  end.

(** The rows of the matrix, top down; the result is the last row. *)
Fixpoint levRows (a b : jsstring) (i : Z) (prev : list Z) : list Z :=
  match a with
  | [] => prev
  | ai :: a' => levRows a' b (i + 1)%Z ((i + 1)%Z :: levRow ai b prev (i + 1)%Z)
  end.

Definition editDistance (a b : jsstring) : Z :=
  List.last (levRows a b 0%Z (List.map Z.of_nat (seq 0 (S (length b))))) 0%Z.

(** [similarity] *)
Definition similarity (a b : jsstring) : float :=
  if strEq a b then 1
  else if strEq a [] || strEq b [] then 0
  else
    let la := Z.of_nat (length a) in
    let lb := Z.of_nat (length b) in
    if 0.8 <? num (Z.abs (la - lb)) / num (Z.max la lb) then 0
    else if (500 <? la)%Z || (500 <? lb)%Z then
      let wordsA := setOf (splitOnWs (toLowerCase a)) in
      let wordsB := setOf (splitOnWs (toLowerCase b)) in
      let common :=
        fold_left (fun c w => if setHas w wordsB then (c + 1)%Z else c) wordsA 0%Z in
      num (2 * common) / num (Z.of_nat (length wordsA) + Z.of_nat (length wordsB))
    else
      let maxLen := Z.max la lb in
      1 - num (editDistance a b) / num maxLen.

(** [text.match(/re/g)]: the matches from left to right, not overlapping.
    [matchAt before s] is the length of the match that starts at [s], whose
    left context, reversed, is [before]; [skip] counts the code units of the
    current match still to pass. *)
Fixpoint matchAll (matchAt : jsstring -> jsstring -> option nat)
    (before : jsstring) (skip : nat) (s : jsstring) : list jsstring :=
  match s with
  | [] => []
  | c :: s' =>
      match skip with
      | S k => matchAll matchAt (c :: before) k s'
      | O =>
          match matchAt before s with
          | Some (S n) => take (S n) s :: matchAll matchAt (c :: before) n s'
          | _ => matchAll matchAt (c :: before) O s'
          end
      end
  end.

(** [/\d+([.,]\d+)*/]: [numTail s] is what the pattern takes after a first
    digit: further digits, and a separator only when a digit follows it. *)
Fixpoint numTail (s : jsstring) : nat :=
  match s with
  | [] => O
  | c :: s' =>
      if isDigit c then S (numTail s')
      else if ((c =? 46) || (c =? 44))%Z
                && match s' with d :: _ => isDigit d | [] => false end
      then S (numTail s')
      else O
  end.

Definition numberAt (_ s : jsstring) : option nat :=
  match s with
  | c :: s' => if isDigit c then Some (S (numTail s')) else None
  | [] => None
  end.

(** [/[\w.-]+@[\w.-]+\.\w+/].  [[\w.-]+] must run up to the [@]; the second
    [[\w.-]+] gives back code units until it stops before the last dot that
    is followed by a word character. *)
Definition isMailChar (c : Z) : bool := isWord c || (c =? 46)%Z || (c =? 45)%Z.

Fixpoint lastDot (k : nat) (r : jsstring) (best : option nat) : option nat :=
  match r with
  | c :: ((d :: _) as r') =>
      lastDot (S k) r'
        (if (c =? 46)%Z && isWord d && (1 <=? k)%nat then Some k else best)
  | _ => best
  end.

Definition emailAt (_ s : jsstring) : option nat :=
  let r1 := takeWhile isMailChar s in
  match r1, drop (length r1) s with
  | _ :: _, c :: rest =>
      if (c =? 64)%Z then
        let r2 := takeWhile isMailChar rest in
        match lastDot 0 r2 None with
        | Some k =>
            Some (length r1 + 1 + k + 1
                  + length (takeWhile isWord (drop (S k) r2)))%nat
        | None => None
        end
      else None
  | _, _ => None
  end.

(** [/https?:\/\/\S+/] *)
Fixpoint stripPrefix (p s : jsstring) : option jsstring :=
  match p, s with
  | [], _ => Some s
  | a :: p', b :: s' => if (a =? b)%Z then stripPrefix p' s' else None
  | _ :: _, [] => None
  end.

Definition urlAt (_ s : jsstring) : option nat :=
  match stripPrefix (lit "http") s with
  | Some r =>
      let '(n, r') :=
        match r with
        | c :: r'' => if (c =? 115)%Z then (5%nat, r'') else (4%nat, r)
        | [] => (4%nat, r)
        end in
      match stripPrefix (lit "://") r' with
      | Some t =>
          match takeWhile (fun c => negb (isSpace c)) t with
          | [] => None
          | run => Some (n + 3 + length run)%nat
          end
      | None => None
      end
  | None => None
  end.

(** [/(?<=[.!?]\s+\w+\s+)[A-Z][a-zÀ-ÿ]+/]: behind the match, read
    backwards, come whitespace, a word, whitespace and a sentence end. *)
Definition lookBehind (before : jsstring) : bool :=
  let b1 := dropWhile isSpace before in
  let b2 := dropWhile isWord b1 in
  let b3 := dropWhile isSpace b2 in
  (length b1 <? length before)%nat && (length b2 <? length b1)%nat
  && (length b3 <? length b2)%nat
  && match b3 with
     | c :: _ => ((c =? 46) || (c =? 33) || (c =? 63))%Z
     | [] => false
     end.

Definition properNounAt (before s : jsstring) : option nat :=
  match s with
  | c :: s' =>
      if isUpper c && lookBehind before then
        match takeWhile (fun d => isLower d || between 192 255 d) s' with
        | [] => None
        | run => Some (S (length run))
        end
      else None
  | [] => None
  end.

(** [extractAnchors] *)
Definition extractAnchors (t : jsstring) : list jsstring :=
  let anchors := [] in
  let anchors := fold_left setAdd (matchAll numberAt [] O t) anchors in
  let anchors := fold_left setAdd (matchAll emailAt [] O t) anchors in
  let anchors := fold_left setAdd (matchAll urlAt [] O t) anchors in
  let anchors := fold_left setAdd (matchAll properNounAt [] O t) anchors in
  anchors.

(** [anchorScore] *)
Definition anchorScore (sourceText translatedText : jsstring) : float :=
  let srcAnchors := extractAnchors sourceText in
  let tgtAnchors := extractAnchors translatedText in
  if (length srcAnchors =? 0)%nat then 0
  else
    let matches :=
      fold_left (fun m a => if setHas a tgtAnchors then (m + 1)%Z else m) srcAnchors 0%Z in
    num matches / num (Z.of_nat (length srcAnchors)).

(** Tier 2 state: the result objects, the scan pointer and the set of
    consumed paragraph indices. *)
Record T2 := mkT2 {
  res : MatchResult;
  tIdx : Z;
  usedTranslations : gset Z;
}.

(** The score of the candidate in window slot [w]. *)
Definition candidateScore (normSource : jsstring) (candidate : jsstring) (w : Z)
    : float :=
  let normTrans := normalize candidate in
  let aScore := anchorScore normSource normTrans in
  let positionBonus := 1 - num w * 0.1 in
  let lenRatio :=
    Math_min (len normSource) (len normTrans)
    / Math_max (len normSource) (len normTrans) in
  let lenBonus := if 0.3 <? lenRatio then lenRatio * 0.3 else 0 in
  aScore * 0.4 + positionBonus * 0.3 + lenBonus * 0.3.

(** The window loop [for (let w = 0; w < windowSize; w++)], with [n] slots
    left; [best] is [(bestMatch, bestScore)]. *)
Fixpoint windowLoop (paras : list jsstring) (used : gset Z) (normSource : jsstring)
    (tIdx : Z) (n : nat) (w : Z) (best : Z * float) : Z * float :=
  match n with
  | O => best
  | S n' =>
      let candidateIdx := (tIdx + w)%Z in
      if (Z.of_nat (length paras) <=? candidateIdx)%Z then best
      else if bool_decide (candidateIdx ∈ used) then
        windowLoop paras used normSource tIdx n' (w + 1)%Z best
      else
        let totalScore := candidateScore normSource (get_ paras candidateIdx) w in
        windowLoop paras used normSource tIdx n' (w + 1)%Z
          (if snd best <? totalScore then (candidateIdx, totalScore) else best)
  end.

(** One turn of [for (const segment of sourceSegments)]. *)
Definition tier2Step (paras : list jsstring) (st : T2) (segment : Segment) : T2 :=
  let normSource := normalize (text segment) in
  let windowSize := Z.min 5 (Z.of_nat (length paras) - tIdx st) in
  let '(bestMatch, bestScore) :=
    windowLoop paras (usedTranslations st) normSource (tIdx st)
      (Z.to_nat windowSize) 0%Z ((-1)%Z, 0) in
  if (0 <=? bestMatch)%Z && (0.2 <? bestScore) then
    let r := updStats incMatched
               (mapSet segment bestMatch (get_ paras bestMatch) (res st)) in
    mkT2 (if bestScore <? 0.6 then updStats incFuzzy r else r)
         (bestMatch + 1)%Z ({[bestMatch]} ∪ usedTranslations st)
  else if (tIdx st <? Z.of_nat (length paras))%Z
          && negb (bool_decide (tIdx st ∈ usedTranslations st)) then
    mkT2 (updStats incFuzzy (updStats incMatched
            (mapSet segment (tIdx st) (get_ paras (tIdx st)) (res st))))
         (tIdx st + 1)%Z ({[tIdx st]} ∪ usedTranslations st)
  else
    mkT2 (updStats incUnmatched (pushUnmatched segment (res st)))
         (tIdx st) (usedTranslations st).

Definition tier2 (paras : list jsstring) (segs : list Segment) (r : MatchResult) : T2 :=
  fold_left (tier2Step paras) segs (mkT2 r 0%Z ∅).

(** Tier 3.  A pool entry is [{ text, index }]. *)
Definition Candidate : Type := jsstring * Z.

(** [translatedParagraphs.map((t, i) => ({ text: t, index: i }))] *)
Definition indexed (paras : list jsstring) : list Candidate :=
  imap (fun i t => (t, Z.of_nat i)) paras.

(** The score of a pool entry for a residual segment. *)
Definition residualScore (segment : Segment) (candidate : Candidate) : float :=
  let aScore := anchorScore (text segment) (fst candidate) in
  let simScore :=
    similarity (substring0 (normalize (text segment)) 100)
               (substring0 (normalize (fst candidate)) 100) in
  aScore * 0.5 + simScore * 0.5.

(** [for (const candidate of unusedTranslations)]; [best] is
    [(bestMatch, bestScore)], [None] for [null]. *)
Definition poolStep (segment : Segment) (best : option Candidate * float)
    (candidate : Candidate) : option Candidate * float :=
  let totalScore := residualScore segment candidate in
  if (snd best <? totalScore) && (0.3 <? totalScore) then (Some candidate, totalScore)
  else best.

(** [pool.splice(pool.indexOf(c), 1)]: entries are objects, told apart by
    identity; each carries its own index. *)
Fixpoint splice1 (c : Candidate) (pool : list Candidate) : list Candidate :=
  match pool with
  | [] => []
  | d :: pool' => if (snd d =? snd c)%Z then pool' else d :: splice1 c pool'
  end.

(** Tier 3 state: the result objects, the pool and [stillUnmatched]. *)
Record T3 := mkT3 {
  res3 : MatchResult;
  unusedTranslations : list Candidate;
  stillUnmatched : list Segment;
}.

(** One turn of [for (const segment of unmatched)]. *)
Definition tier3Step (st : T3) (segment : Segment) : T3 :=
  match fst (fold_left (poolStep segment) (unusedTranslations st) (None, 0)) with
  | Some bestMatch =>
      mkT3 (updStats incFuzzy (updStats decUnmatched (updStats incMatched
              (mapSet segment (snd bestMatch) (fst bestMatch) (res3 st)))))
           (splice1 bestMatch (unusedTranslations st))
           (stillUnmatched st)
  | None => mkT3 (res3 st) (unusedTranslations st) (stillUnmatched st ++ [segment])
  end.

Definition tier3 (paras : list jsstring) (st : T2) : MatchResult :=
  if (0 <? length (unmatched (res st)))%nat then
    let pool :=
      List.filter (fun t => negb (bool_decide (snd t ∈ usedTranslations st)))
        (indexed paras) in
    let st3 := fold_left tier3Step (unmatched (res st)) (mkT3 (res st) pool []) in
    resetUnmatched (stillUnmatched st3) (res3 st3)
  else res st.

Definition matchTexts (sourceSegments : list Segment) (translationText : jsstring)
    : MatchResult :=
  let translatedParagraphs := splitIntoParagraphs translationText in
  let srcCount := Z.of_nat (length sourceSegments) in
  let r0 := initial srcCount in
  if (srcCount =? Z.of_nat (length translatedParagraphs))%Z then
    structureMatch sourceSegments translatedParagraphs r0
  else
    let r1 := updStats (setMethod "sequential-flex") r0 in
    tier3 translatedParagraphs (tier2 translatedParagraphs sourceSegments r1).

End Adaptive.

(** ** The document tree (what xmlUtils.js works on) *)

Module Dom.

(** The namespaces the engine tells apart ([NS.w], [NS.a], [NS.p]). *)
Inductive Namespace := NS_w | NS_a | NS_p | NS_other.

#[global] Instance Namespace_eq_dec : EqDecision Namespace.
Proof. solve_decision. Defined.

(** A DOM node: a text node, or an element with its namespace, local name,
    attributes (qualified name and value) and child nodes. *)
Inductive Node :=
  | Text (data : jsstring)
  | Elem (ns : Namespace) (localName : string)
         (attrs : list (string * string)) (childNodes : list Node).

(** [child.localName === name && child.namespaceURI === ns] *)
Definition isElem (ns : Namespace) (name : string) (n : Node) : bool :=
  match n with
  | Elem ns' name' _ _ => bool_decide (ns' = ns) && String.eqb name' name
  | Text _ => false
  end.

Definition children (n : Node) : list Node :=
  match n with
  | Elem _ _ _ cs => cs
  | Text _ => []
  end.

(** [node.textContent]: the text of all descendants, in document order. *)
Fixpoint textContent (n : Node) : jsstring :=
  match n with
  | Text s => s
  | Elem _ _ _ cs => List.concat (List.map textContent cs)
  end.

(** [node.textContent = s]: the children are replaced by one text node, by
    none when [s] is empty. *)
Definition setTextContent (s : jsstring) (n : Node) : Node :=
  match n with
  | Elem ns name attrs _ =>
      Elem ns name attrs (match s with [] => [] | _ => [Text s] end)
  | Text _ => Text s
  end.

(** [node.setAttribute(name, value)] *)
Fixpoint setAttr (name value : string) (attrs : list (string * string))
    : list (string * string) :=
  match attrs with
  | [] => [(name, value)]
  | (k, v) :: attrs' =>
      if String.eqb k name then (k, value) :: attrs'
      else (k, v) :: setAttr name value attrs'
  end.

Definition setAttribute (name value : string) (n : Node) : Node :=
  match n with
  | Elem ns nm attrs cs => Elem ns nm (setAttr name value attrs) cs
  | Text _ => n
  end.

Fixpoint getAttr (name : string) (attrs : list (string * string)) : option string :=
  match attrs with
  | [] => None
  | (k, v) :: attrs' => if String.eqb k name then Some v else getAttr name attrs'
  end.

(** The two document kinds differ in the namespace of runs and text nodes, in
    whether runs are also taken from hyperlinks, and in whether a rewritten
    text node gets [xml:space="preserve"]. *)
Inductive Kind := Docx | Pptx.

Definition runNs (k : Kind) : Namespace :=
  match k with Docx => NS_w | Pptx => NS_a end.

(** [getRunTextNodes] / [getPptxTextNodes] *)
Definition getTextNodes (k : Kind) (run : Node) : list Node :=
  List.filter (isElem (runNs k) "t") (children run).

(** [getDirectRuns] / [getPptxRuns] *)
Definition getRuns (k : Kind) (para : Node) : list Node :=
  match k with
  | Docx =>
      List.concat (List.map (fun child =>
        (if isElem NS_w "r" child then [child] else [])
        ++ (if isElem NS_w "hyperlink" child
            then List.filter (isElem NS_w "r") (children child) else []))
        (children para))
  | Pptx => List.filter (isElem NS_a "r") (children para)
  end.

(** The text of a run: its text nodes' [textContent], concatenated. *)
Definition runText (k : Kind) (run : Node) : jsstring :=
  List.concat (List.map textContent (getTextNodes k run)).

(** [extractTextFromParagraph] / [extractTextFromPptxParagraph] *)
Definition extractText (k : Kind) (para : Node) : jsstring :=
  List.concat (List.map (runText k) (getRuns k para)).

(** [isContentParagraph] / [isPptxContentParagraph] *)
Definition isContent (k : Kind) (para : Node) : bool :=
  (0 <? length (trim (extractText k para)))%nat.

(** [getAllParagraphs]: the [w:p] elements in document order; the walk goes
    into the listed containers only, so never into a paragraph. *)
Definition isContainer (n : Node) : bool :=
  match n with
  | Elem _ name _ (_ :: _) =>
      existsb (String.eqb name)
        ["tc"; "body"; "tbl"; "tr"; "sdtContent"; "sdt"; "txbxContent"; "hdr"; "ftr"]%string
  | _ => false
  end.

Fixpoint walkParagraphs (node : Node) : list Node :=
  match node with
  | Text _ => []
  | Elem _ _ _ cs =>
      List.concat (List.map (fun child =>
        (if isElem NS_w "p" child then [child] else [])
        ++ (if isContainer child then walkParagraphs child else [])) cs)
  end.

Definition getAllParagraphs (containerElement : Node) : list Node :=
  walkParagraphs containerElement.

(** [getPptxTextShapes]: the [p:sp] with a [p:txBody] child, through group
    shapes, under [p:cSld] / [p:spTree]. *)
Fixpoint walkShapes (node : Node) : list Node :=
  match node with
  | Text _ => []
  | Elem _ _ _ cs =>
      List.concat (List.map (fun child =>
        (if isElem NS_p "sp" child && existsb (isElem NS_p "txBody") (children child)
         then [child] else [])
        ++ (if isElem NS_p "grpSp" child then walkShapes child else [])) cs)
  end.

Definition getPptxTextShapes (slideElement : Node) : list Node :=
  List.concat (List.map (fun child =>
    if isElem NS_p "cSld" child then
      List.concat (List.map (fun sc =>
        if isElem NS_p "spTree" sc then walkShapes sc else []) (children child))
    else []) (children slideElement)).

(** [getPptxTxBody] *)
Definition getPptxTxBody (shape : Node) : option Node :=
  List.find (isElem NS_p "txBody") (children shape).

(** [getPptxParagraphs] *)
Definition getPptxParagraphs (txBody : Node) : list Node :=
  List.filter (isElem NS_a "p") (children txBody).

(** The paragraphs a file is rewritten through, in the order of the parser. *)
Definition fileParagraphs (k : Kind) (documentElement : Node) : list Node :=
  match k with
  | Docx => getAllParagraphs documentElement
  | Pptx =>
      List.concat (List.map (fun shape =>
        match getPptxTxBody shape with
        | Some txBody => getPptxParagraphs txBody
        | None => []
        end) (getPptxTextShapes documentElement))
  end.

End Dom.

(** ** The rewrite engine (docxRebuilder.js, pptxRebuilder.js) *)

Module Rebuild.

Import Dom.
Local Open Scope float_scope.

(** The inner [while] of the distribution: words are appended to [chunk]
    until the target is met or the next word would overshoot it by more than
    30 %.  [words] is [words.slice(wordIdx)]; the result is the chunk and the
    words left. *)
Fixpoint takeWords (target : float) (chunk : jsstring) (words : list jsstring)
    : jsstring * list jsstring :=
  match words with
  | [] => (chunk, [])
  | nextWord :: rest =>
      if (0 <? len chunk) && (target * 1.3 <? len chunk + len nextWord)
      then (chunk, words)
      else
        let chunk' := (chunk ++ nextWord)%list in
        if (target <=? len chunk') && (0 <? length rest)%nat then (chunk', rest)
        else takeWords target chunk' rest
  end.

(** The loop over the text runs: one chunk per target, the last run taking
    [words.slice(wordIdx).join('')]. *)
Fixpoint distribute (targetLengths : list float) (words : list jsstring)
    : list jsstring :=
  match targetLengths with
  | [] => []
  | [_] => [join [] words]
  | target :: rest =>
      let '(chunk, words') := takeWords target [] words in
      chunk :: distribute rest words'
  end.

(** The chunks for the text runs of a paragraph, from their original lengths
    [textRuns] and the length [totalOriginalLen] of the paragraph's text. *)
Definition chunksFor (totalOriginalLen : float) (textRuns : list nat)
    (newText : jsstring) : list jsstring :=
  match textRuns with
  | [] => []
  | [_] => [newText]
  | _ =>
      let words := splitWords newText in
      let totalNewLen := len newText in
      let targetLengths :=
        List.map (fun l =>
          Math_round (num (Z.of_nat l) / totalOriginalLen * totalNewLen)) textRuns in
      distribute targetLengths words
  end.

(** Writing a chunk into a run: the first text node gets it (and, in a DOCX,
    [xml:space="preserve"]), the further text nodes of the run are emptied.
    [first] tells whether the first text node is still to come. *)
Fixpoint writeTextNodes (k : Kind) (chunk : jsstring) (first : bool)
    (cs : list Node) : list Node :=
  match cs with
  | [] => []
  | c :: cs' =>
      if isElem (runNs k) "t" c then
        (if first then
           let c' := setTextContent chunk c in
           match k with Docx => setAttribute "xml:space" "preserve" c' | Pptx => c' end
         else setTextContent [] c)
        :: writeTextNodes k chunk false cs'
      else c :: writeTextNodes k chunk first cs'
  end.

Definition setRunText (k : Kind) (chunk : jsstring) (run : Node) : Node :=
  match run with
  | Elem ns name attrs cs => Elem ns name attrs (writeTextNodes k chunk true cs)
  | Text _ => run
  end.

(** The runs are nodes of the paragraph, written in place.  The writes are
    threaded through the paragraph in the order [getRuns] lists the runs:
    a run with text takes the next chunk, a run without text is skipped. *)
Definition writeRun (k : Kind) (c : Node) (chunks : list jsstring)
    : Node * list jsstring :=
  if (0 <? length (runText k c))%nat then
    match chunks with
    | chunk :: rest => (setRunText k chunk c, rest)
    | [] => (c, [])
    end
  else (c, chunks).

Fixpoint writeRunsFlat (k : Kind) (cs : list Node) (chunks : list jsstring)
    : list Node * list jsstring :=
  match cs with
  | [] => ([], chunks)
  | c :: cs' =>
      let '(c', chunks') :=
        if isElem (runNs k) "r" c then writeRun k c chunks else (c, chunks) in
      let '(cs'', chunks'') := writeRunsFlat k cs' chunks' in
      (c' :: cs'', chunks'')
  end.

Fixpoint writeRunsDocx (cs : list Node) (chunks : list jsstring)
    : list Node * list jsstring :=
  match cs with
  | [] => ([], chunks)
  | c :: cs' =>
      let '(c', chunks') :=
        if isElem NS_w "r" c then writeRun Docx c chunks
        else if isElem NS_w "hyperlink" c then
          match c with
          | Elem ns name attrs hs =>
              let '(hs', chunks') := writeRunsFlat Docx hs chunks in
              (Elem ns name attrs hs', chunks')
          | Text _ => (c, chunks)
          end
        else (c, chunks) in
      let '(cs'', chunks'') := writeRunsDocx cs' chunks' in
      (c' :: cs'', chunks'')
  end.

Definition writeRuns (k : Kind) (cs : list Node) (chunks : list jsstring)
    : list Node :=
  match k with
  | Docx => fst (writeRunsDocx cs chunks)
  | Pptx => fst (writeRunsFlat Pptx cs chunks)
  end.

(** [replaceParagraphText] / [replacePptxParagraphText] *)
Definition replaceText (k : Kind) (paraElement : Node) (newText : jsstring) : Node :=
  let runs := getRuns k paraElement in
  let lengths := List.map (fun run => length (runText k run)) runs in
  let totalOriginalLen := num (Z.of_nat (fold_left Nat.add lengths O)) in
  let textRuns := List.filter (fun l => (0 <? l)%nat) lengths in
  match paraElement, textRuns with
  | Elem ns name attrs cs, _ :: _ =>
      Elem ns name attrs
        (writeRuns k cs (chunksFor totalOriginalLen textRuns newText))
  | _, _ => paraElement
  end.

Definition replaceParagraphText := replaceText Docx.
Definition replacePptxParagraphText := replaceText Pptx.

(** The untranslated flag: [<w:highlight w:val="red"/>], or
    [<a:highlight><a:srgbClr val="FF0000"/></a:highlight>]. *)
Definition highlightElem (k : Kind) : Node :=
  match k with
  | Docx => Elem NS_w "highlight" [("w:val", "red")]%string []
  | Pptx => Elem NS_a "highlight" [] [Elem NS_a "srgbClr" [("val", "FF0000")]%string []]
  end.

(** The first [rPr] child is stripped of its highlights and gets the flag
    appended. *)
Fixpoint flagFirstRPr (k : Kind) (cs : list Node) : list Node :=
  match cs with
  | [] => []
  | c :: cs' =>
      if isElem (runNs k) "rPr" c then
        match c with
        | Elem ns name attrs ps =>
            Elem ns name attrs
              (List.filter (fun p => negb (isElem (runNs k) "highlight" p)) ps
               ++ [highlightElem k])
            :: cs'
        | Text _ => c :: cs'
        end
      else c :: flagFirstRPr k cs'
  end.

(** The body of [for (const run of runs)]: find or create the run
    properties, then flag them. *)
Definition highlightRun (k : Kind) (run : Node) : Node :=
  match run with
  | Elem ns name attrs cs =>
      let cs1 :=
        if existsb (isElem (runNs k) "rPr") cs then cs
        else Elem (runNs k) "rPr" [] [] :: cs in
      Elem ns name attrs (flagFirstRPr k cs1)
  | Text _ => run
  end.

(** [f] applied, in place, to the runs [getRuns] lists. *)
Definition mapRuns (k : Kind) (f : Node -> Node) (cs : list Node) : list Node :=
  List.map (fun c =>
    if isElem (runNs k) "r" c then f c
    else
      match k, c with
      | Docx, Elem ns name attrs hs =>
          if isElem NS_w "hyperlink" c then
            Elem ns name attrs
              (List.map (fun h => if isElem NS_w "r" h then f h else h) hs)
          else c
      | _, _ => c
      end) cs.

(** [highlightParagraphRed] / [highlightPptxParagraphRed] *)
Definition highlightRed (k : Kind) (paraElement : Node) : Node :=
  match paraElement with
  | Elem ns name attrs cs => Elem ns name attrs (mapRuns k (highlightRun k) cs)
  | Text _ => paraElement
  end.

Definition highlightParagraphRed := highlightRed Docx.
Definition highlightPptxParagraphRed := highlightRed Pptx.

(** The body of [for (let i = 0; i < count; i++)] of a file.  The elements
    of [contentParas] are nodes of the document, rewritten in place: the
    array is the state, and disjoint paragraphs do not affect each other. *)
Definition rewriteBody (k : Kind) (mapping : gmap Z jsstring)
    (fileSegments : list Segment) (contentParas : list Node) (i : Z) : list Node :=
  match at_ fileSegments i, at_ contentParas i with
  | Some segment, Some para =>
      <[Z.to_nat i :=
          match mapping !! id segment with
          | Some translatedText => replaceText k para translatedText
          | None => highlightRed k para
          end]> contentParas
  | _, _ => contentParas
  end.

(** The rewrite of one file: its content paragraphs after the loop. *)
Definition rewriteFile (k : Kind) (mapping : gmap Z jsstring)
    (fileSegments : list Segment) (allParas : list Node) : list Node :=
  let contentParas := List.filter (isContent k) allParas in
  let count :=
    Z.min (Z.of_nat (length contentParas)) (Z.of_nat (length fileSegments)) in
  forLoop count (rewriteBody k mapping fileSegments) contentParas.

(** [rebuildDocx] / [rebuildPptx], up to the serialisation: for every parsed
    file, its content paragraphs after the rewrite.  A file without segments
    is skipped. *)
Definition rebuild (k : Kind) (xmlFiles : list (jsstring * Node))
    (segments : list Segment) (mapping : gmap Z jsstring)
    : list (jsstring * list Node) :=
  List.map (fun '(path, doc) =>
    let fileSegments := List.filter (fun seg => strEq (xmlPath seg) path) segments in
    let allParas := fileParagraphs k doc in
    (path,
     if (length fileSegments =? 0)%nat then List.filter (isContent k) allParas
     else rewriteFile k mapping fileSegments allParas)) xmlFiles.

Definition rebuildDocx := rebuild Docx.
Definition rebuildPptx := rebuild Pptx.

(** A run carries the flag when one of its [rPr] children has it as child. *)
Definition isFlag (k : Kind) (n : Node) : bool :=
  match k, n with
  | Docx, Elem _ _ attrs _ =>
      isElem NS_w "highlight" n
      && match getAttr "w:val" attrs with
         | Some v => String.eqb v "red"
         | None => false
         end
  | Pptx, Elem _ _ _ cs =>
      isElem NS_a "highlight" n
      && existsb (fun c =>
           isElem NS_a "srgbClr" c
           && match c with
              | Elem _ _ attrs _ =>
                  match getAttr "val" attrs with
                  | Some v => String.eqb v "FF0000"
                  | None => false
                  end
              | Text _ => false
              end) cs
  | _, Text _ => false
  end.

Definition carriesFlag (k : Kind) (run : Node) : bool :=
  existsb (fun c => isElem (runNs k) "rPr" c && existsb (isFlag k) (children c))
          (children run).

End Rebuild.

(** ** Vocabulary of the statements *)

(** What the counted loops of the matchers know after [i] turns: the first
    [i] segments are mapped by [value] (when the ids are pairwise different,
    else a later segment of the same id overwrites an earlier one), no other
    key was touched, every new value is a [value j], and the history lists
    the segments in order. *)
Definition mappedUpTo (segs : list Segment) (value : Z -> jsstring) (i : Z)
    (r0 r : MatchResult) : Prop :=
  (NoDup (id <$> segs) ->
   forall (j : nat) seg, Z.of_nat j < i -> segs !! j = Some seg ->
     mapping r !! id seg = Some (value (Z.of_nat j)))
  /\ (forall key, key ∉ (id <$> take (Z.to_nat i) segs) ->
        mapping r !! key = mapping r0 !! key)
  /\ (forall key v, mapping r !! key = Some v ->
        mapping r0 !! key = Some v \/ exists j, 0 <= j < i /\ v = value j)
  /\ assigned r
     = assigned r0 ++ imap (fun j seg => (seg, Z.of_nat j)) (take (Z.to_nat i) segs).

(** Case 3 of the strict matcher: the value of segment [j], the last segment
    taking the join of the paragraphs from its index on. *)
Definition mergeValue (segs : list Segment) (paras : list jsstring) (j : Z)
    : jsstring :=
  if j <? Z.of_nat (length segs) - 1 then get_ paras j
  else join [SP] (slice paras j).

(** A mapped value is well trimmed when it is not empty, holds no line feed
    and neither starts nor ends with whitespace. *)
Definition wellTrimmed (v : jsstring) : Prop :=
  v <> []
  /\ (LF ∉ v)
  /\ (forall c, head v = Some c -> isSpace c = false)
  /\ (forall c, last v = Some c -> isSpace c = false).

(** The newline characters: the line terminators of JavaScript, that is line
    feed, carriage return, line separator and paragraph separator. *)
Definition isNewline (c : Z) : bool :=
  (c =? LF) || (c =? CR) || (c =? 8232) || (c =? 8233).

(** A mapped value as the claim words it: not empty, without any newline
    character, without whitespace at either end. *)
Definition claimedTrimmed (v : jsstring) : Prop :=
  v <> []
  /\ Forall (fun c => isNewline c = false) v
  /\ (forall c, head v = Some c -> isSpace c = false)
  /\ (forall c, last v = Some c -> isSpace c = false).

Section AdaptiveVocabulary.

Import Adaptive.

Variable paras : list jsstring.

(** What one turn of Tier 2 does: the segment consumes an unconsumed
    paragraph at or after the scan pointer, or no paragraph is left and the
    segment is deferred. *)
Inductive Step2 (segment : Segment) (st st' : T2) : Prop :=
  | Step2_consume (k : Z) :
      tIdx st <= k < Z.of_nat (length paras) ->
      k ∉ usedTranslations st ->
      tIdx st' = k + 1 ->
      usedTranslations st' = {[k]} ∪ usedTranslations st ->
      mapping (res st') = <[id segment := get_ paras k]> (mapping (res st)) ->
      assigned (res st') = assigned (res st) ++ [(segment, k)] ->
      unmatched (res st') = unmatched (res st) ->
      matched (stats (res st')) = matched (stats (res st)) + 1 ->
      unmatchedCount (stats (res st')) = unmatchedCount (stats (res st)) ->
      total (stats (res st')) = total (stats (res st)) ->
      fuzzy (stats (res st)) <= fuzzy (stats (res st'))
        <= fuzzy (stats (res st)) + 1 ->
      Step2 segment st st'
  | Step2_defer :
      Z.of_nat (length paras) <= tIdx st ->
      tIdx st' = tIdx st ->
      usedTranslations st' = usedTranslations st ->
      mapping (res st') = mapping (res st) ->
      assigned (res st') = assigned (res st) ->
      unmatched (res st') = unmatched (res st) ++ [segment] ->
      matched (stats (res st')) = matched (stats (res st)) ->
      unmatchedCount (stats (res st')) = unmatchedCount (stats (res st)) + 1 ->
      total (stats (res st')) = total (stats (res st)) ->
      fuzzy (stats (res st')) = fuzzy (stats (res st)) ->
      Step2 segment st st'.

(** The invariant of the Tier 2 loop, [seen] being the segments handled so
    far: the scan pointer is past every consumed index, the consumed indices
    are those of the history and increase strictly, the segments handled are
    the matched ones followed by the deferred ones, and a segment is only
    deferred once the paragraphs are exhausted. *)
Definition T2inv (total0 : Z) (seen : list Segment) (st : T2) : Prop :=
  0 <= tIdx st <= Z.of_nat (length paras)
  /\ (forall k, k ∈ usedTranslations st <-> k ∈ (assigned (res st)).*2)
  /\ Forall (fun k => 0 <= k < tIdx st) (assigned (res st)).*2
  /\ StronglySorted Z.lt (assigned (res st)).*2
  /\ match last (assigned (res st)).*2 with
     | Some k => tIdx st = k + 1
     | None => tIdx st = 0
     end
  /\ seen = (assigned (res st)).*1 ++ unmatched (res st)
  /\ (unmatched (res st) <> [] -> Z.of_nat (length paras) <= tIdx st)
  /\ matched (stats (res st)) = Z.of_nat (length (assigned (res st)))
  /\ unmatchedCount (stats (res st)) = Z.of_nat (length (unmatched (res st)))
  /\ total (stats (res st)) = total0
  /\ 0 <= fuzzy (stats (res st)) <= matched (stats (res st))
  /\ map_Forall (fun _ v => v ∈ paras) (mapping (res st)).

(** A pool entry of Tier 3 is an unconsumed paragraph with its index. *)
Definition poolEntry (st2 : T2) (c : Candidate) : Prop :=
  0 <= snd c < Z.of_nat (length paras)
  /\ fst c ∈ paras
  /\ snd c ∉ usedTranslations st2.

(** The invariant of the Tier 3 loop, over the final state [st2] of Tier 2:
    the history is that of Tier 2 followed by the residual matches, whose
    indices, together with those still in the pool, are pairwise distinct and
    different from the indices Tier 2 consumed. *)
Definition T3inv (st2 : T2) (seen : list Segment) (st3 : T3) : Prop :=
  exists resPart : list (Segment * Z),
    assigned (res3 st3) = assigned (res st2) ++ resPart
    /\ NoDup ((assigned (res3 st3)).*2 ++ (unusedTranslations st3).*2)
    /\ Forall (poolEntry st2) (unusedTranslations st3)
    /\ Forall (fun k => 0 <= k < Z.of_nat (length paras)
                        /\ k ∉ usedTranslations st2) resPart.*2
    /\ resPart.*1 `sublist_of` seen
    /\ stillUnmatched st3 `sublist_of` seen
    /\ length seen = (length resPart + length (stillUnmatched st3))%nat
    /\ matched (stats (res3 st3))
       = matched (stats (res st2)) + Z.of_nat (length resPart)
    /\ unmatchedCount (stats (res3 st3))
       = unmatchedCount (stats (res st2)) - Z.of_nat (length resPart)
    /\ total (stats (res3 st3)) = total (stats (res st2))
    /\ fuzzy (stats (res3 st3))
       = fuzzy (stats (res st2)) + Z.of_nat (length resPart)
    /\ method (stats (res3 st3)) = method (stats (res st2))
    /\ map_Forall (fun _ v => v ∈ paras) (mapping (res3 st3)).

(** The pool Tier 3 starts from: the paragraphs Tier 2 left unconsumed. *)
Definition initialPool (st2 : T2) : list Candidate :=
  List.filter (fun t => negb (bool_decide (snd t ∈ usedTranslations st2)))
    (indexed paras).

End AdaptiveVocabulary.

Section RewriteVocabulary.

Import Dom Rebuild.

Variable k : Kind.

(** The text of a list of runs, and the lengths of the runs that carry text. *)
Definition flatText (runs : list Node) : jsstring :=
  List.concat (List.map (runText k) runs).

Definition textRunLengths (runs : list Node) : list nat :=
  List.filter (fun l => (0 <? l)%nat)
    (List.map (fun run => length (runText k run)) runs).

(** [totalOriginalLen] of a paragraph. *)
Definition originalLength (p : Node) : float :=
  num (Z.of_nat (fold_left Nat.add
    (List.map (fun run => length (runText k run)) (getRuns k p)) O)).

(** What [carriesFlag] looks at in a child of a run. *)
Definition flaggedProps (c : Node) : bool :=
  isElem (runNs k) "rPr" c && existsb (isFlag k) (children c).

End RewriteVocabulary.

(** The runs of a DOCX paragraph, from its children. *)
Definition docxRuns (cs : list Dom.Node) : list Dom.Node :=
  List.concat (List.map (fun child =>
    (if Dom.isElem Dom.NS_w "r" child then [child] else [])
    ++ (if Dom.isElem Dom.NS_w "hyperlink" child
        then List.filter (Dom.isElem Dom.NS_w "r") (Dom.children child)
        else [])) cs).

(** The counts of a result add up, for the segments it was computed from. *)
Definition complete (segs : list Segment) (r : MatchResult) : Prop :=
  matched (stats r) + unmatchedCount (stats r) = total (stats r)
  /\ total (stats r) = Z.of_nat (length segs).

(** A mapped value of the strict matcher comes from the paragraphs: it is one
    of them, or the paragraphs from some index on joined by single spaces. *)
Definition fromParagraphs (paras : list jsstring) (v : jsstring) : Prop :=
  v ∈ paras
  \/ exists j : nat, (j < length paras)%nat /\ v = join [SP] (drop j paras).

(** The result of an exact structural match: segment [i] maps to paragraph
    [i], nothing else is mapped, nothing is left over. *)
Definition identityResult (segs : list Segment) (paras : list jsstring)
    (r : MatchResult) : Prop :=
  (forall (i : nat) seg, segs !! i = Some seg -> mapping r !! id seg = paras !! i)
  /\ (forall key, key ∉ (id <$> segs) -> mapping r !! key = None)
  /\ assigned r = imap (fun i seg => (seg, Z.of_nat i)) segs
  /\ matched (stats r) = total (stats r)
  /\ total (stats r) = Z.of_nat (length segs)
  /\ unmatchedCount (stats r) = 0
  /\ method (stats r) = "structure-1:1"%string
  /\ unmatched r = [].

(** Strict matcher, more segments than paragraphs. *)
Definition partialResult (segs : list Segment) (paras : list jsstring)
    (r : MatchResult) : Prop :=
  (forall (i : nat) seg, segs !! i = Some seg -> (i < length paras)%nat ->
     mapping r !! id seg = paras !! i)
  /\ (forall (i : nat) seg, segs !! i = Some seg -> (length paras <= i)%nat ->
        mapping r !! id seg = None)
  /\ unmatched r = drop (length paras) segs
  /\ matched (stats r) = Z.of_nat (length paras)
  /\ unmatchedCount (stats r) = Z.of_nat (length segs) - Z.of_nat (length paras)
  /\ fuzzy (stats r) = 0.

(** Strict matcher, more paragraphs than segments. *)
Definition mergeResult (segs : list Segment) (paras : list jsstring)
    (r : MatchResult) : Prop :=
  (forall (i : nat) seg, segs !! i = Some seg -> (S i < length segs)%nat ->
     mapping r !! id seg = paras !! i)
  /\ (forall seg, last segs = Some seg ->
        mapping r !! id seg = Some (join [SP] (drop (length segs - 1) paras)))
  /\ fuzzy (stats r) = Z.of_nat (length paras) - Z.of_nat (length segs)
  /\ matched (stats r) = Z.of_nat (length segs)
  /\ unmatchedCount (stats r) = 0
  /\ unmatched r = [].

(** Degenerate inputs.  What the claim promises: nothing mapped, nothing
    unmatched, all counts zero. *)
Definition allZero (r : MatchResult) : Prop :=
  mapping r = ∅ /\ unmatched r = []
  /\ matched (stats r) = 0 /\ fuzzy (stats r) = 0 /\ unmatchedCount (stats r) = 0.

(** What an empty segment list gives. *)
Definition emptyResult (r : MatchResult) : Prop :=
  mapping r = ∅ /\ unmatched r = []
  /\ matched (stats r) = 0 /\ unmatchedCount (stats r) = 0 /\ total (stats r) = 0.

(** What an empty translation gives: every segment comes back unmatched. *)
Definition allUnmatched (segs : list Segment) (r : MatchResult) : Prop :=
  mapping r = ∅ /\ unmatched r = segs
  /\ matched (stats r) = 0 /\ fuzzy (stats r) = 0
  /\ unmatchedCount (stats r) = Z.of_nat (length segs).

(** Examples. *)
Definition segment (i : Z) (s : string) : Segment :=
  mkSegment i (lit s) (lit "word/document.xml").

Definition helloSegments : list Segment :=
  [segment 0 "Hello world"; segment 1 "Second line"].

(** ["Bonjour le monde\nDeuxième ligne"] *)
Definition helloTranslation : jsstring :=
  lit "Bonjour le monde" ++ [LF] ++ lit "Deuxi" ++ [232] ++ lit "me ligne".

Definition threeSegments : list Segment :=
  [segment 0 "one"; segment 1 "two"; segment 2 "three"].

Definition fiveLines : jsstring :=
  lit "un" ++ [LF] ++ lit "deux" ++ [LF] ++ lit "trois" ++ [CR; LF; LF]
  ++ lit " quatre " ++ [LF] ++ lit "cinq".

Definition twoLines : jsstring := lit "un" ++ [LF] ++ lit "deux".

Definition oneSegment : list Segment := [segment 0 "Hello world"].

(** The history of the sequential tiers of the adaptive matcher: that of the
    structural match when the counts agree, else that of Tier 2. *)
Definition sequentialPart (segs : list Segment) (translationText : jsstring)
    : list (Segment * Z) :=
  let paras := splitIntoParagraphs translationText in
  let r0 := initial (Z.of_nat (length segs)) in
  if Z.of_nat (length segs) =? Z.of_nat (length paras)
  then assigned (structureMatch segs paras r0)
  else assigned (Adaptive.res
         (Adaptive.tier2 paras segs (updStats (setMethod "sequential-flex") r0))).

(** An input on which Tier 2 skips a paragraph that Tier 3 then uses. *)
Definition skippedSegments : list Segment :=
  [segment 0 "Total 42"; segment 1 "zzz"; segment 2 "qqqqqqqq"].

Definition skippedTranslation : jsstring := lit "zzz" ++ [LF] ++ lit "Total 42".

(** The score of a window candidate as the claim words it: the length ratio
    itself, when above the floor, weighted 0.3. *)
Definition claimedScore (normSource candidate : jsstring) (w : Z) : float :=
  let normTrans := Adaptive.normalize candidate in
  let ratio :=
    PrimFloat.div (Math_min (len normSource) (len normTrans))
                  (Math_max (len normSource) (len normTrans)) in
  (Adaptive.anchorScore normSource normTrans * 0.4
   + (1 - num w * 0.1) * 0.3
   + (if PrimFloat.ltb 0.3 ratio then ratio else 0) * 0.3)%float.

(** What the code computes: the bonus is 0.3 times the ratio, and is then
    weighted 0.3. *)
Definition weightedScore (normSource candidate : jsstring) (w : Z) : float :=
  let normTrans := Adaptive.normalize candidate in
  let ratio :=
    PrimFloat.div (Math_min (len normSource) (len normTrans))
                  (Math_max (len normSource) (len normTrans)) in
  (Adaptive.anchorScore normSource normTrans * 0.4
   + (1 - num w * 0.1) * 0.3
   + (if PrimFloat.ltb 0.3 ratio then ratio * 0.3 else 0) * 0.3)%float.

(** The window of a Tier 2 turn and its best candidate. *)
Definition windowOf (paras : list jsstring) (st : Adaptive.T2) : nat :=
  Z.to_nat (Z.min 5 (Z.of_nat (length paras) - Adaptive.tIdx st)).

Definition bestOf (paras : list jsstring) (st : Adaptive.T2) (segment : Segment)
    : Z * float :=
  Adaptive.windowLoop paras (Adaptive.usedTranslations st)
    (Adaptive.normalize (text segment)) (Adaptive.tIdx st)
    (windowOf paras st) 0 (-1, 0%float).

(** The state after an accepted window match of score [bestScore]. *)
Definition accepted (paras : list jsstring) (st : Adaptive.T2) (segment : Segment)
    (bestMatch : Z) (bestScore : float) : Adaptive.T2 :=
  let r := updStats incMatched
             (mapSet segment bestMatch (get_ paras bestMatch) (Adaptive.res st)) in
  Adaptive.mkT2 (if PrimFloat.ltb bestScore 0.6 then updStats incFuzzy r else r)
    (bestMatch + 1) ({[bestMatch]} ∪ Adaptive.usedTranslations st).

(** A DOCX paragraph with three runs that carry text (one of them inside a
    hyperlink, with two text nodes) and one that carries a tab only. *)
Definition textNode (s : string) : Dom.Node :=
  Dom.Elem Dom.NS_w "t" [] [Dom.Text (lit s)].

Definition run (cs : list Dom.Node) : Dom.Node := Dom.Elem Dom.NS_w "r" [] cs.

Definition mixedParagraph : Dom.Node :=
  Dom.Elem Dom.NS_w "p" []
    [run [textNode "Hello "];
     Dom.Elem Dom.NS_w "hyperlink" []
       [run [Dom.Elem Dom.NS_w "rPr" [] []; textNode "big"; textNode " bad"]];
     run [Dom.Elem Dom.NS_w "tab" [] []];
     run [textNode " world"]].

Definition mixedSegment : Segment := segment 0 "Hello big bad world".

(** A paragraph without text: not a content paragraph. *)
Definition emptyParagraph : Dom.Node :=
  Dom.Elem Dom.NS_w "p" [] [run [Dom.Elem Dom.NS_w "br" [] []]].

(** A paragraph whose only run is already highlighted in red in the source
    document, its segment and a mapping that translates it. *)
Definition flaggedParagraph : Dom.Node :=
  Dom.Elem Dom.NS_w "p" []
    [run [Dom.Elem Dom.NS_w "rPr" []
            [Dom.Elem Dom.NS_w "highlight" [("w:val", "red")]%string []];
          textNode "Hello"]].

Definition flaggedSegment : Segment := segment 0 "Hello".

Definition flaggedMapping : gmap Z jsstring := <[0 := lit "Bonjour"]> ∅.

(** The flag claim as stated, for the content paragraph of index [i]:
    flagged when its segment has no mapping entry, never flagged when it has
    one. *)
Definition flagClaim (k : Dom.Kind) (m : gmap Z jsstring) (fileSegments : list Segment)
    (allParas : list Dom.Node) (i : nat) : Prop :=
  forall p seg p',
    List.filter (Dom.isContent k) allParas !! i = Some p ->
    fileSegments !! i = Some seg ->
    Rebuild.rewriteFile k m fileSegments allParas !! i = Some p' ->
    (m !! id seg = None ->
     Forall (fun r => Rebuild.carriesFlag k r = true) (Dom.getRuns k p'))
    /\ (is_Some (m !! id seg) ->
        Forall (fun r => Rebuild.carriesFlag k r = false) (Dom.getRuns k p')).

(** * Further code: parsers, application, earlier rebuilder *)

(** ** Numbers and strings: conversions *)

Module Num.

(** The decimal digits of [n >= 0], most significant first, in front of
    [acc]; [fuel] bounds the number of digits. *)
Fixpoint digits (fuel : nat) (n : Z) (acc : jsstring) : jsstring :=
  match fuel with
  | O => acc
  | S fuel' =>
      let acc' := (48 + n mod 10) :: acc in
      if n <? 10 then acc' else digits fuel' (n / 10) acc'
  end.

(** [String(n)], also what a template literal does with [${n}], for an
    integer [n] (below 10^21 in absolute value, where JavaScript switches to
    the exponent notation): the decimal digits, after a minus sign when
    [n < 0].  A number has no more decimal digits than binary ones. *)
Definition toString (n : Z) : jsstring :=
  if n <? 0 then 45 :: digits (S (Z.to_nat (Z.log2 (- n)))) (- n) []
  else digits (S (Z.to_nat (Z.log2 n))) n [].

(** The value of the longest prefix of decimal digits. *)
Fixpoint parseDigits (acc : Z) (s : jsstring) : Z :=
  match s with
  | c :: s' => if isDigit c then parseDigits (acc * 10 + (c - 48)) s' else acc
  | [] => acc
  end.

(** [parseInt(s, 10)]: leading whitespace is skipped, one sign is read, then
    the longest prefix of digits; [None] is [NaN] (no digit).  (The exact
    integer is returned; JavaScript rounds it to a binary64 number, which
    changes nothing below 2^53.) *)
Definition parseInt (s : jsstring) : option Z :=
  let s := dropWhile isSpace s in
  let '(sign, s) :=
    match s with
    | c :: s' => if c =? 45 then (-1, s') else if c =? 43 then (1, s') else (1, s)
    | [] => (1, s)
    end in
  match s with
  | c :: _ => if isDigit c then Some (sign * parseDigits 0 s) else None
  | [] => None
  end.

End Num.

(** ** The parsers (docxParser.js, pptxParser.js) *)

Module Parse.

Import Dom.

(** A code unit and a pattern character under the flag [i] of a regular
    expression without the flag [u]: for the ASCII patterns below only the
    ASCII letters have two cases. *)
Definition lowerAscii (c : Z) : Z := if isUpper c then c + 32 else c.

(** [p], in lower case, is a prefix of [s] up to case: what is left of [s]. *)
Fixpoint stripPrefixCI (p s : jsstring) : option jsstring :=
  match p, s with
  | [], _ => Some s
  | a :: p', b :: s' => if a =? lowerAscii b then stripPrefixCI p' s' else None
  | _ :: _, [] => None
  end.

(** [/^word\/(header|footer)\d*\.xml$/i.test(path)] *)
Definition isHeaderFooterPath (path : jsstring) : bool :=
  match stripPrefixCI (lit "word/") path with
  | Some r =>
      match
        match stripPrefixCI (lit "header") r with
        | Some r' => Some r'
        | None => stripPrefixCI (lit "footer") r
        end
      with
      | Some r' =>
          match stripPrefixCI (lit ".xml") (dropWhile isDigit r') with
          | Some [] => true
          | _ => false
          end
      | None => false
      end
  | None => false
  end.

(** [zip.file(name)] is not [null]: [keys] is [Object.keys(zip.files)], and
    the only entries [zip.file] does not return are folders, whose names end
    with a slash. *)
Definition zipHas (keys : list jsstring) (name : jsstring) : bool :=
  bool_decide (name ∈ keys).

(** The first part of [parseDocx]: the XML files that can contain text. *)
Definition textXmlPaths (keys : list jsstring) : list jsstring :=
  let textXmlPaths := [] in
  let textXmlPaths :=
    if zipHas keys (lit "word/document.xml")
    then textXmlPaths ++ [lit "word/document.xml"] else textXmlPaths in
  let textXmlPaths :=
    fold_left (fun paths path =>
      if isHeaderFooterPath path && negb (bool_decide (path ∈ paths))
      then paths ++ [path] else paths) keys textXmlPaths in
  let textXmlPaths :=
    if zipHas keys (lit "word/footnotes.xml")
    then textXmlPaths ++ [lit "word/footnotes.xml"] else textXmlPaths in
  if zipHas keys (lit "word/endnotes.xml")
  then textXmlPaths ++ [lit "word/endnotes.xml"] else textXmlPaths.

(** The body of the innermost loop of both parsers; the state is
    [(segments, segmentId)].  (The [_element] field of a segment, a reference
    to the paragraph, is read by no one and left out.) *)
Definition pushSegment (k : Kind) (xmlPath : jsstring) (st : list Segment * Z)
    (para : Node) : list Segment * Z :=
  if isContent k para then
    (fst st ++ [mkSegment (snd st) (extractText k para) xmlPath], snd st + 1)
  else st.

(** The last part of [parseDocx]: the segments of the parsed files.
    [xmlFiles] is the [Map] from path to document, in insertion order, a
    document being given by its [documentElement]. *)
Definition parseDocx (xmlFiles : list (jsstring * Node)) : list Segment :=
  fst (fold_left (fun st file =>
         fold_left (pushSegment Docx (fst file)) (getAllParagraphs (snd file)) st)
       xmlFiles ([], 0)).

(** The last part of [parsePptx]. *)
Definition parsePptx (xmlFiles : list (jsstring * Node)) : list Segment :=
  fst (fold_left (fun st file =>
         fold_left (fun st shape =>
           match getPptxTxBody shape with
           | Some txBody =>
               fold_left (pushSegment Pptx (fst file)) (getPptxParagraphs txBody) st
           | None => st
           end) (getPptxTextShapes (snd file)) st)
       xmlFiles ([], 0)).

Definition parse (k : Kind) (xmlFiles : list (jsstring * Node)) : list Segment :=
  match k with
  | Docx => parseDocx xmlFiles
  | Pptx => parsePptx xmlFiles
  end.

(** [xmlFiles.get(path)] *)
Definition mapGet (xmlFiles : list (jsstring * Node)) (path : jsstring) : option Node :=
  snd <$> List.find (fun file => strEq (fst file) path) xmlFiles.

(** The field [paragraphCount] of [getDocumentInfo]; [None] when the function
    returns [{}], for want of a main document. *)
Definition paragraphCount (xmlFiles : list (jsstring * Node)) : option Z :=
  match mapGet xmlFiles (lit "word/document.xml") with
  | Some docXml =>
      Some (Z.of_nat (length (List.filter (isContent Docx) (getAllParagraphs docXml))))
  | None => None
  end.

End Parse.

(** ** The application (main.js) *)

Module Main.

Import Dom.

(** The part of [state] the functions below read. *)
Record State := mkState {
  sourceBuffer : option (list Z);
  translationText : jsstring;
}.

(** [updateGenerateButton]: the value it gives [btnGenerate.disabled]. *)
Definition updateGenerateButton (state : State) : bool :=
  let hasSource := bool_decide (sourceBuffer state <> None) in
  let hasTranslation := (0 <? length (trim (translationText state)))%nat in
  negb (hasSource && hasTranslation).

(** [updateTextCounts]: the number shown as the paragraph count. *)
Definition paraCount (text : jsstring) : nat :=
  length (List.filter (fun l => (0 <? length (trim l))%nat) (splitLines text)).

(** How the review dialog of [showMatchReview] ends: closed, skipped, or
    confirmed with the values of its text areas, one for each unmatched
    segment, in order. *)
Inductive Review :=
  | Close
  | Skip
  | Confirm (values : list jsstring).

(** [handleConfirm]: the text area of a segment carries the segment's id in
    [data-seg-id], as a string.  ([NaN] cannot come out of [parseInt] here,
    see [parseInt_toString].) *)
Definition handleConfirm (unmatched : list Segment) (values : list jsstring)
    (mapping : gmap Z jsstring) : gmap Z jsstring :=
  fold_left (fun mapping input =>
    match Num.parseInt (Num.toString (id (fst input))) with
    | Some segId =>
        let text := trim (snd input) in
        if (0 <? length text)%nat then <[segId := text]> mapping else mapping
    | None => mapping
    end) (zip unmatched values) mapping.

(** [runPipeline], from the parsed files on: the content paragraphs of every
    file after the rewrite, or [None] when the review dialog was closed. *)
Definition runPipeline (k : Kind) (xmlFiles : list (jsstring * Node))
    (translationText : jsstring) (review : Review)
    : option (list (jsstring * list Node)) :=
  let segments := Parse.parse k xmlFiles in
  let r := Strict.matchTexts segments translationText in
  if (0 <? length (unmatched r))%nat then
    match review with
    | Close => None
    | Skip => Some (Rebuild.rebuild k xmlFiles segments (mapping r))
    | Confirm values =>
        Some (Rebuild.rebuild k xmlFiles segments
                (handleConfirm (unmatched r) values (mapping r)))
    end
  else Some (Rebuild.rebuild k xmlFiles segments (mapping r)).

End Main.

(** ** The earlier DOCX rebuilder (paragraphs verified by their text, the
    translation distributed by characters) *)

Module Earlier.

Import Dom.
Local Open Scope float_scope.

(** [s.substring(0, n)] for a number [n]: NaN and what is not positive count
    as 0, a fraction is dropped, and the end is capped at the length. *)
Definition substringTo (s : jsstring) (n : float) : jsstring :=
  match Prim2SF n with
  | S754_finite false m e =>
      let i := if (0 <=? e)%Z then (Z.pos m * 2 ^ e)%Z else (Z.pos m / 2 ^ (- e))%Z in
      take (Z.to_nat (Z.min i (Z.of_nat (length s)))) s
  | S754_infinity false => s
  | _ => []
  end.

(** [s.lastIndexOf(c)] for a string [c] of one code unit; [i] is the index
    of the head of [s], [best] the last index found so far. *)
Fixpoint lastIndexOf_go (c : Z) (s : jsstring) (i best : Z) : Z :=
  match s with
  | [] => best
  | d :: s' => lastIndexOf_go c s' (i + 1)%Z (if (d =? c)%Z then i else best)
  end.

Definition lastIndexOf (c : Z) (s : jsstring) : Z := lastIndexOf_go c s 0%Z (-1)%Z.

(** The loop over the text runs: a run takes the characters of its share of
    the translation, cut back to the last space of the chunk when that one
    lies in the second half; the last run takes what remains. *)
Fixpoint distribute (totalOriginalLen newLen : float) (textRuns : list nat)
    (remaining : jsstring) : list jsstring :=
  match textRuns with
  | [] => []
  | [_] => [remaining]
  | l :: rest =>
      let ratio := num (Z.of_nat l) / totalOriginalLen in
      let chunkLen := Math_round (newLen * ratio) in
      let chunk := substringTo remaining chunkLen in
      let lastSpace := lastIndexOf SP chunk in
      let chunk :=
        if chunkLen * 0.5 <? num lastSpace
        then take (Z.to_nat (lastSpace + 1)) remaining else chunk in
      chunk :: distribute totalOriginalLen newLen rest (drop (length chunk) remaining)
  end.

Definition chunksFor (totalOriginalLen : float) (textRuns : list nat)
    (newText : jsstring) : list jsstring :=
  match textRuns with
  | [] => []
  | [_] => [newText]
  | _ => distribute totalOriginalLen (len newText) textRuns newText
  end.

(** [replaceParagraphText]; the writes into the runs are those of the later
    version. *)
Definition replaceParagraphText (paraElement : Node) (newText : jsstring) : Node :=
  let runs := getRuns Docx paraElement in
  let lengths := List.map (fun run => length (runText Docx run)) runs in
  let totalOriginalLen := num (Z.of_nat (fold_left Nat.add lengths O)) in
  let textRuns := List.filter (fun l => (0 <? l)%nat) lengths in
  match paraElement, textRuns with
  | Elem ns name attrs cs, _ :: _ =>
      Elem ns name attrs
        (Rebuild.writeRuns Docx cs (chunksFor totalOriginalLen textRuns newText))
  | _, _ => paraElement
  end.

(** The loop over the content paragraphs of a file; [fileSegments] are the
    segments from [segIdx] on.  A paragraph whose trimmed text is not that of
    the current segment is passed over, the segment staying current. *)
Fixpoint rewriteParas (mapping : gmap Z jsstring) (fileSegments : list Segment)
    (contentParas : list Node) : list Node :=
  match contentParas, fileSegments with
  | para :: paras, segment :: segments' =>
      if strEq (trim (extractText Docx para)) (trim (text segment)) then
        match mapping !! id segment with
        | Some translatedText => replaceParagraphText para translatedText
        | None => para
        end :: rewriteParas mapping segments' paras
      else para :: rewriteParas mapping fileSegments paras
  | _, _ => contentParas
  end.

(** [rebuildDocx], up to the serialisation. *)
Definition rebuildDocx (xmlFiles : list (jsstring * Node))
    (segments : list Segment) (mapping : gmap Z jsstring)
    : list (jsstring * list Node) :=
  List.map (fun '(path, doc) =>
    let fileSegments := List.filter (fun seg => strEq (xmlPath seg) path) segments in
    let contentParas := List.filter (isContent Docx) (getAllParagraphs doc) in
    (path,
     if (length fileSegments =? 0)%nat then contentParas
     else rewriteParas mapping fileSegments contentParas)) xmlFiles.

End Earlier.

(** ** Vocabulary of the further statements *)

(** The texts of the content paragraphs of a rebuilt document, file after
    file. *)
Definition flattened (k : Dom.Kind) (files : list (jsstring * list Dom.Node))
    : list jsstring :=
  List.concat (List.map (fun file => List.map (Dom.extractText k) (snd file)) files).

(** The content paragraphs of a parsed file. *)
Definition contentParagraphs (k : Dom.Kind) (doc : Dom.Node) : list Dom.Node :=
  List.filter (Dom.isContent k) (Dom.fileParagraphs k doc).

(** What the rewrite makes of a paragraph whose segment is [seg]. *)
Definition rewritten (k : Dom.Kind) (m : gmap Z jsstring) (seg : Segment)
    (q : Dom.Node) : Dom.Node :=
  match m !! id seg with
  | Some translatedText => Rebuild.replaceText k q translatedText
  | None => Rebuild.highlightRed k q
  end.

(** A node with its text elements ([w:t] or [a:t]) emptied of attributes and
    content, at any depth: what a rewrite has to leave as it is. *)
Fixpoint eraseText (k : Dom.Kind) (n : Dom.Node) : Dom.Node :=
  match n with
  | Dom.Text _ => n
  | Dom.Elem ns name attrs cs =>
      if Dom.isElem (Dom.runNs k) "t" n then Dom.Elem ns name [] []
      else Dom.Elem ns name attrs (List.map (eraseText k) cs)
  end.

(** The segments of a list of (path, content paragraph) pairs, numbered from
    [n0]: what the parsers make of them. *)
Definition numbered (k : Dom.Kind) (n0 : Z) (l : list (jsstring * Dom.Node))
    : list Segment :=
  imap (fun i pq => mkSegment (n0 + Z.of_nat i) (Dom.extractText k (snd pq)) (fst pq)) l.

(** The content paragraphs of a file, each with the path of the file. *)
Definition fileContent (k : Dom.Kind) (file : jsstring * Dom.Node)
    : list (jsstring * Dom.Node) :=
  List.map (pair (fst file)) (contentParagraphs k (snd file)).

(** The segments [rebuild] groups under a path. *)
Definition segmentsOfFile (path : jsstring) (segments : list Segment) : list Segment :=
  List.filter (fun seg => strEq (xmlPath seg) path) segments.

(** The value the strict matcher gives the segment of index [i]: the
    paragraph of index [i] when there is one and the paragraphs do not
    outnumber the segments; else the paragraph of index [i] for every segment
    but the last, which takes the paragraphs from its index on. *)
Definition strictValue (segs : list Segment) (paras : list jsstring) (i : nat)
    : option jsstring :=
  if (length paras <=? length segs)%nat then paras !! i
  else if (S i <? length segs)%nat then paras !! i
  else Some (join [SP] (drop i paras)).

(** All the content paragraphs of a rebuilt document, file after file. *)
Definition paragraphsOf (files : list (jsstring * list Dom.Node)) : list Dom.Node :=
  List.concat (List.map snd files).

(** What [rebuild] does with one file, given all the segments. *)
Definition perFile (k : Dom.Kind) (m : gmap Z jsstring) (segments : list Segment)
    (file : jsstring * Dom.Node) : jsstring * list Dom.Node :=
  (fst file,
   if (length (segmentsOfFile (fst file) segments) =? 0)%nat
   then contentParagraphs k (snd file)
   else Rebuild.rewriteFile k m (segmentsOfFile (fst file) segments)
          (Dom.fileParagraphs k (snd file))).

(** The text of a segment after the rewrite: its translation, or its own
    text when it has none. *)
Definition textAfter (m : gmap Z jsstring) (seg : Segment) : jsstring :=
  default (text seg) (m !! id seg).

(** Examples: a document with a body (a paragraph, an empty paragraph and a
    table cell with a paragraph of several runs) and a footer; translations
    of three lines, of one line and of four lines. *)
Definition paragraph (s : string) : Dom.Node :=
  Dom.Elem Dom.NS_w "p" [] [run [textNode s]].

Definition exampleFiles : list (jsstring * Dom.Node) :=
  [(lit "word/document.xml",
    Dom.Elem Dom.NS_w "document" []
      [Dom.Elem Dom.NS_w "body" []
         [paragraph "Hello world"; emptyParagraph;
          Dom.Elem Dom.NS_w "tbl" []
            [Dom.Elem Dom.NS_w "tr" [] [Dom.Elem Dom.NS_w "tc" [] [mixedParagraph]]]]]);
   (lit "word/footer1.xml", Dom.Elem Dom.NS_w "ftr" [] [paragraph "Page"])].

Definition threeLines : jsstring :=
  lit "Bonjour le monde" ++ [CR; LF] ++ lit "Bonjour grand monde" ++ [LF; LF]
  ++ lit "  Page  ".

Definition oneLine : jsstring := lit "Bonjour le monde".

Definition fourLines : jsstring :=
  lit "Bonjour le monde" ++ [LF] ++ lit "Bonjour grand monde" ++ [LF]
  ++ lit "Page" ++ [LF] ++ lit "un de plus".

(** What the history of the [mapping.set] calls accounts for: the keys of the
    mapping are the ids of the segments of the history, the input segments
    are those of the history and the unmatched ones, and [matched] counts the
    history. *)
Definition keysListed (r : MatchResult) : Prop :=
  dom (mapping r) = list_to_set (id <$> (assigned r).*1).

Definition accounted (segs : list Segment) (r : MatchResult) : Prop :=
  keysListed r
  /\ segs ≡ₚ (assigned r).*1 ++ unmatched r
  /\ matched (stats r) = Z.of_nat (length (assigned r)).

(** The segments a result maps and those it leaves unmatched are told apart
    by the mapping: its keys are ids of segments, and a segment is unmatched
    exactly when its id is no key. *)
Definition toldApart (segs : list Segment) (r : MatchResult) : Prop :=
  (forall key, is_Some (mapping r !! key) -> key ∈ id <$> segs)
  /\ (forall seg, seg ∈ segs -> seg ∈ unmatched r <-> mapping r !! id seg = None).

(** The unmatched list of a result keeps the order of the segments, and
    [stats.unmatched] is its length. *)
Definition unmatchedListed (segs : list Segment) (r : MatchResult) : Prop :=
  unmatched r `sublist_of` segs
  /\ unmatchedCount (stats r) = Z.of_nat (length (unmatched r)).

(** One turn of Tier 3 on a pool: no entry scores above 0.3 and the segment
    stays unmatched, or the segment takes an entry that scores above 0.3 and
    that no entry of the pool beats. *)
Definition residualChoice (st : Adaptive.T3) (segment : Segment) (st' : Adaptive.T3)
    : Prop :=
  let pool := Adaptive.unusedTranslations st in
  let score := Adaptive.residualScore segment in
  (Forall (fun c => PrimFloat.ltb 0.3 (score c) = false) pool
   /\ st' = Adaptive.mkT3 (Adaptive.res3 st) pool
              (Adaptive.stillUnmatched st ++ [segment]))
  \/ (exists c,
        c ∈ pool
        /\ PrimFloat.ltb 0.3 (score c) = true
        /\ Forall (fun d => PrimFloat.ltb (score c) (score d) = false) pool
        /\ st' = Adaptive.mkT3
                   (updStats incFuzzy (updStats decUnmatched (updStats incMatched
                      (mapSet segment (snd c) (fst c) (Adaptive.res3 st)))))
                   (Adaptive.splice1 c pool) (Adaptive.stillUnmatched st)).

(** The values of the segments that have one, in the order of the segments. *)
Definition mappedValues (segs : list Segment) (r : MatchResult) : list jsstring :=
  omap (fun seg => mapping r !! id seg) segs.

(** A node without its run properties ([w:rPr] or [a:rPr]), at any depth:
    what highlighting has to leave as it is. *)
Fixpoint dropProps (k : Dom.Kind) (n : Dom.Node) : Dom.Node :=
  match n with
  | Dom.Text _ => n
  | Dom.Elem ns name attrs cs =>
      Dom.Elem ns name attrs
        (List.concat (List.map (fun c =>
           if Dom.isElem (Dom.runNs k) "rPr" c then [] else [dropProps k c]) cs))
  end.

(** A slide with a shape that has a text body, a shape that has none, and a
    group with a shape that has one. *)
Definition slideParagraph (s : string) : Dom.Node :=
  Dom.Elem Dom.NS_a "p" []
    [Dom.Elem Dom.NS_a "r" [] [Dom.Elem Dom.NS_a "t" [] [Dom.Text (lit s)]]].

Definition slideShape (paras : list Dom.Node) : Dom.Node :=
  Dom.Elem Dom.NS_p "sp" [] [Dom.Elem Dom.NS_p "txBody" [] paras].

Definition exampleSlide : Dom.Node :=
  Dom.Elem Dom.NS_p "sld" []
    [Dom.Elem Dom.NS_p "cSld" []
       [Dom.Elem Dom.NS_p "spTree" []
          [slideShape [slideParagraph "Title"; slideParagraph "  "];
           Dom.Elem Dom.NS_p "sp" [] [Dom.Elem Dom.NS_p "spPr" [] []];
           Dom.Elem Dom.NS_p "grpSp" [] [slideShape [slideParagraph "Inside"]]]]].

(** The Levenshtein matrix of [similarity], entry by entry. *)
Definition cost (x y : Z) : Z := if x =? y then 0 else 1.

(** The entry of the matrix for two prefixes, each given last code unit
    first. *)
Fixpoint dist (a : jsstring) : jsstring -> Z :=
  fix inner (b : jsstring) : Z :=
    match a, b with
    | [], _ => Z.of_nat (length b)
    | _, [] => Z.of_nat (length a)
    | x :: a', y :: b' =>
        Z.min (Z.min (dist a' b + 1) (inner b' + 1)) (dist a' b' + cost x y)
    end.

(** A row of the matrix from the column of the prefix [pb] on, [b] being
    what follows the prefix. *)
Fixpoint rowFrom (pa pb b : jsstring) : list Z :=
  dist pa pb ::
  match b with
  | [] => []
  | y :: b' => rowFrom pa (y :: pb) b'
  end.

(** [edits a b n]: [b] comes from [a] by deleting, inserting, keeping and
    substituting code units, from left to right, at the price [n]: one for
    each code unit deleted, inserted or replaced by another one. *)
Inductive edits : jsstring -> jsstring -> Z -> Prop :=
  | edits_nil : edits [] [] 0
  | edits_delete x a b n : edits a b n -> edits (x :: a) b (n + 1)
  | edits_insert y a b n : edits a b n -> edits a (y :: b) (n + 1)
  | edits_replace x y a b n : edits a b n -> edits (x :: a) (y :: b) (n + cost x y).

(** Whitespace in [s] is single spaces only: every whitespace code unit is a
    space and follows no whitespace ([afterSpace]: the code unit in front of
    [s] is whitespace). *)
Fixpoint singleSpaced (afterSpace : bool) (s : jsstring) : bool :=
  match s with
  | [] => true
  | c :: s' =>
      if isSpace c then (c =? SP) && negb afterSpace && singleSpaced true s'
      else singleSpaced false s'
  end.

(** What the earlier rewrite makes of a paragraph whose segment is [seg]. *)
Definition rewrittenEarlier (m : gmap Z jsstring) (seg : Segment) (q : Dom.Node)
    : Dom.Node :=
  match m !! id seg with
  | Some translatedText => Earlier.replaceParagraphText q translatedText
  | None => q
  end.

(** A paragraph of two runs, the first one bold. *)
Definition boldParagraph : Dom.Node :=
  Dom.Elem Dom.NS_w "p" []
    [run [Dom.Elem Dom.NS_w "rPr" [] [Dom.Elem Dom.NS_w "b" [] []]; textNode "Hello "];
     run [textNode "world"]].

(** Parsed files with footnotes. *)
Definition notesFiles : list (jsstring * Dom.Node) :=
  [(lit "word/document.xml",
    Dom.Elem Dom.NS_w "document" [] [Dom.Elem Dom.NS_w "body" [] [paragraph "Text"]]);
   (lit "word/footnotes.xml",
    Dom.Elem Dom.NS_w "footnotes" []
      [Dom.Elem Dom.NS_w "footnote" [] [paragraph "A note"]])].

(** * Properties *)

(** ** Comparison of numbers *)

Lemma SFltb_chain (x y z : spec_float) :
  SFltb y z = true -> SFltb y x = false -> SFltb z x = false.
Proof.
  unfold SFltb, SFcompare.
  destruct x as [sx|sx| |sx mx ex], y as [sy|sy| |sy my ey], z as [sz|sz| |sz mz ez];
    try destruct sx; try destruct sy; try destruct sz; simpl; try congruence;
    repeat match goal with
    | |- context [Z.compare ?a ?b] =>
        destruct (Z.compare_spec a b); simpl; try congruence
    | |- context [Pos.compare_cont Eq ?a ?b] =>
        change (Pos.compare_cont Eq a b) with (Pos.compare a b);
        destruct (Pos.compare_spec a b); simpl; try congruence
    end; try lia.
Qed.

(** If [z] beats [y] and [x] does not beat [y], then [x] does not beat [z]. *)
Lemma ltb_chain (x y z : float) :
  PrimFloat.ltb y z = true -> PrimFloat.ltb y x = false -> PrimFloat.ltb z x = false.
Proof. rewrite !FloatAxioms.ltb_spec. apply SFltb_chain. Qed.

Lemma SFltb_irrefl (x : spec_float) : SFltb x x = false.
Proof.
  unfold SFltb, SFcompare. destruct x as [s|s| |s m e]; try destruct s; simpl;
    try done; rewrite Z.compare_refl, Pos.compare_cont_refl; done.
Qed.

Lemma ltb_irrefl (x : float) : PrimFloat.ltb x x = false.
Proof. rewrite FloatAxioms.ltb_spec. apply SFltb_irrefl. Qed.

(** ** Indexing and counted loops *)

Section Loops.

Context {A S : Type}.

Lemma at_lookup (l : list A) (i : nat) : at_ l (Z.of_nat i) = l !! i.
Proof.
  unfold at_. destruct (Z.ltb_spec (Z.of_nat i) 0); [lia|].
  by rewrite Nat2Z.id.
Qed.

Lemma at_Some (l : list A) (k : Z) (x : A) :
  at_ l k = Some x -> 0 <= k < Z.of_nat (length l) /\ l !! Z.to_nat k = Some x.
Proof.
  unfold at_. destruct (Z.ltb_spec k 0); [done|].
  intros H'. split; [|done]. apply lookup_lt_Some in H'. lia.
Qed.

Lemma at_in_range (l : list A) (k : Z) :
  0 <= k < Z.of_nat (length l) -> exists x, at_ l k = Some x.
Proof.
  intros Hk. unfold at_. destruct (Z.ltb_spec k 0); [lia|].
  destruct (lookup_lt_is_Some_2 l (Z.to_nat k)) as [x Hx]; [lia|]. eauto.
Qed.

Lemma forLoop_succ (n : nat) (body : S -> Z -> S) (s : S) :
  forLoop (Z.of_nat (Datatypes.S n)) body s
  = body (forLoop (Z.of_nat n) body s) (Z.of_nat n).
Proof.
  unfold forLoop. rewrite !Nat2Z.id, seq_S, List.map_app, fold_left_app. done.
Qed.

(** The invariant rule of a counted loop. *)
Lemma forLoop_ind (P : Z -> S -> Prop) (n : Z) (body : S -> Z -> S) (s : S) :
  0 <= n ->
  P 0 s ->
  (forall i s', 0 <= i < n -> P i s' -> P (i + 1) (body s' i)) ->
  P n (forLoop n body s).
Proof.
  intros Hn H0 Hstep. rewrite <- (Z2Nat.id n) in * by done.
  induction (Z.to_nat n) as [|k IH].
  - done.
  - rewrite forLoop_succ. replace (Z.of_nat (Datatypes.S k)) with (Z.of_nat k + 1) by lia.
    apply Hstep; [lia|]. apply IH; [lia|].
    intros i s' Hi. apply Hstep. lia.
Qed.

End Loops.

Lemma get_lookup (l : list jsstring) (i : nat) (x : jsstring) :
  l !! i = Some x -> get_ l (Z.of_nat i) = x.
Proof. intros H. unfold get_. by rewrite at_lookup, H. Qed.

Lemma get_elem_of (l : list jsstring) (k : Z) :
  0 <= k < Z.of_nat (length l) -> get_ l k ∈ l.
Proof.
  intros Hk. destruct (at_in_range l k Hk) as [x Hx].
  unfold get_. rewrite Hx. simpl. apply at_Some in Hx as [_ Hx].
  by eapply list_elem_of_lookup_2.
Qed.

(** ** The strict matcher *)

Section StrictFacts.

Import Strict.

Variable segs : list Segment.
Variable paras : list jsstring.

Lemma mappedUpTo_start value r0 : mappedUpTo segs value 0 r0 r0.
Proof.
  split; [intros; lia|]. split; [done|]. split; [by left|].
  simpl. by rewrite app_nil_r.
Qed.

Lemma mappedUpTo_step value (i : Z) seg r0 r :
  0 <= i -> at_ segs i = Some seg ->
  mappedUpTo segs value i r0 r ->
  mappedUpTo segs value (i + 1) r0 (mapSet seg i (value i) r).
Proof.
  intros Hi Hseg (Hmap & Hother & Hvals & Hhist).
  apply at_Some in Hseg as [Hr Hseg].
  unfold mappedUpTo.
  replace (Z.to_nat (i + 1)) with (Datatypes.S (Z.to_nat i)) by lia.
  rewrite (take_S_r _ _ _ Hseg).
  split; [|split; [|split]].
  - intros Hnd j sj Hj Hsj. simpl.
    destruct (decide (j = Z.to_nat i)) as [->|Hne].
    + rewrite Hseg in Hsj. injection Hsj as <-.
      rewrite lookup_insert_eq. by rewrite Z2Nat.id.
    + rewrite lookup_insert_ne; [apply Hmap; [done|lia|done]|].
      intros Heq. apply Hne. symmetry.
      eapply (NoDup_lookup _ _ _ _ Hnd); rewrite list_lookup_fmap.
      * by rewrite Hseg.
      * rewrite Hsj. simpl. by rewrite Heq.
  - intros key Hkey. simpl. rewrite fmap_app in Hkey. simpl in Hkey.
    apply not_elem_of_app in Hkey as [Hk1 Hk2].
    rewrite lookup_insert_ne; [by apply Hother|].
    intros Heq. apply Hk2. rewrite <- Heq. constructor.
  - intros key v. simpl. rewrite lookup_insert.
    case_decide.
    + intros [= <-]. right. exists i. split; [lia|done].
    + intros Hv. apply Hvals in Hv as [?|(j & Hj & ->)]; [by left|].
      right. exists j. split; [lia|done].
  - simpl. rewrite Hhist, imap_app, <- app_assoc. simpl.
    rewrite length_take_le by (apply lookup_lt_Some in Hseg; lia).
    rewrite Nat.add_0_r, Z2Nat.id by done. done.
Qed.

(** The loop of the structural match. *)
Lemma structureMatch_spec r0 :
  let r := structureMatch segs paras r0 in
  mappedUpTo segs (get_ paras) (Z.of_nat (length segs)) r0 r
  /\ unmatched r = unmatched r0
  /\ stats r = setMatched (Z.of_nat (length segs)) (setMethod "structure-1:1" (stats r0)).
Proof.
  unfold structureMatch.
  set (r1 := updStats _ r0).
  pose proof (forLoop_ind
    (fun i r => mappedUpTo segs (get_ paras) i r1 r
                /\ unmatched r = unmatched r1 /\ stats r = stats r1)
    (Z.of_nat (length segs)) (body1 segs paras) r1) as Hloop.
  destruct Hloop as (Hm & Hu & Hs); [lia| |..].
  - split; [apply mappedUpTo_start|done].
  - intros i r [Hi1 Hi2] (Hm & Hu & Hs). unfold body1.
    destruct (at_in_range segs i) as [seg Hseg]; [lia|]. rewrite Hseg.
    split; [by apply mappedUpTo_step|done].
  - simpl. rewrite Hs. done.
Qed.

(** Case 2: more segments than paragraphs. *)
Lemma partial_spec r0 :
  let src := Z.of_nat (length segs) in
  let trg := Z.of_nat (length paras) in
  let r := forLoop src (body2 segs paras trg) r0 in
  mappedUpTo segs (get_ paras) (Z.min src trg) r0 r
  /\ unmatched r = unmatched r0 ++ drop (length paras) segs
  /\ matched (stats r) = matched (stats r0) + Z.min src trg
  /\ unmatchedCount (stats r) = unmatchedCount (stats r0) + Z.max 0 (src - trg)
  /\ fuzzy (stats r) = fuzzy (stats r0)
  /\ total (stats r) = total (stats r0)
  /\ method (stats r) = method (stats r0).
Proof.
  intros src trg.
  pose proof (forLoop_ind
    (fun i r => mappedUpTo segs (get_ paras) (Z.min i trg) r0 r
       /\ unmatched r = unmatched r0 ++ drop (length paras) (take (Z.to_nat i) segs)
       /\ matched (stats r) = matched (stats r0) + Z.min i trg
       /\ unmatchedCount (stats r) = unmatchedCount (stats r0) + Z.max 0 (i - trg)
       /\ fuzzy (stats r) = fuzzy (stats r0)
       /\ total (stats r) = total (stats r0)
       /\ method (stats r) = method (stats r0))
    src (body2 segs paras trg) r0) as Hloop.
  destruct Hloop as (Hm & Hu & Hrest); [lia| |..].
  - replace (Z.min 0 trg) with 0 by lia.
    split; [apply mappedUpTo_start|]. change (Z.to_nat 0) with O.
    rewrite take_0, drop_nil, app_nil_r.
    repeat split; lia.
  - intros i r [Hi1 Hi2] (Hm & Hu & Hma & Hun & Hf & Ht & Hme). unfold body2.
    destruct (at_in_range segs i) as [seg Hseg]; [lia|]. rewrite Hseg.
    pose proof Hseg as Hseg'. apply at_Some in Hseg' as [_ Hseg'].
    replace (Z.to_nat (i + 1)) with (Datatypes.S (Z.to_nat i)) by lia.
    rewrite (take_S_r _ _ _ Hseg').
    destruct (Z.ltb_spec i trg).
    + replace (Z.min (i + 1) trg) with (i + 1) by lia.
      replace (Z.min i trg) with i in * by lia.
      split; [by apply mappedUpTo_step|]. simpl.
      rewrite Hu, Hma, Hun, Hf, Ht, Hme.
      rewrite !drop_ge by (rewrite ?length_app, length_take; simpl; lia).
      repeat split; lia.
    + replace (Z.min (i + 1) trg) with (Z.min i trg) by lia.
      split; [done|]. simpl. rewrite Hu, Hma, Hun, Hf, Ht, Hme.
      rewrite drop_app_le by (rewrite length_take; lia).
      rewrite <- app_assoc.
      repeat split; lia.
  - split; [done|]. unfold src in Hu. rewrite Nat2Z.id, firstn_all in Hu.
    split; [done|]. done.
Qed.

(** Case 3: more paragraphs than segments. *)
Lemma merge_spec r0 :
  let src := Z.of_nat (length segs) in
  let r := forLoop src (body3 segs paras src) r0 in
  mappedUpTo segs (mergeValue segs paras) src r0 r
  /\ unmatched r = unmatched r0
  /\ matched (stats r) = matched (stats r0) + src
  /\ unmatchedCount (stats r) = unmatchedCount (stats r0)
  /\ fuzzy (stats r) = fuzzy (stats r0)
  /\ total (stats r) = total (stats r0)
  /\ method (stats r) = method (stats r0).
Proof.
  intros src.
  pose proof (forLoop_ind
    (fun i r => mappedUpTo segs (mergeValue segs paras) i r0 r
       /\ unmatched r = unmatched r0
       /\ matched (stats r) = matched (stats r0) + i
       /\ unmatchedCount (stats r) = unmatchedCount (stats r0)
       /\ fuzzy (stats r) = fuzzy (stats r0)
       /\ total (stats r) = total (stats r0)
       /\ method (stats r) = method (stats r0))
    src (body3 segs paras src) r0) as Hloop.
  apply Hloop; [lia| |].
  - split; [apply mappedUpTo_start|]. repeat split; lia.
  - intros i r [Hi1 Hi2] (Hm & Hu & Hma & Hun & Hf & Ht & Hme). unfold body3.
    destruct (at_in_range segs i) as [seg Hseg]; [lia|]. rewrite Hseg.
    split.
    + pose proof (mappedUpTo_step (mergeValue segs paras) i seg r0 r Hi1 Hseg Hm) as Hs.
      unfold mergeValue in Hs at 2. fold src in Hs.
      destruct (i <? src - 1); exact Hs.
    + destruct (i <? src - 1); simpl; rewrite Hu, Hma, Hun, Hf, Ht, Hme;
        repeat split; lia.
Qed.

End StrictFacts.

(** ** Strings: trimming, lines and words *)

Section StringFacts.

Lemma dropWhile_head {A} (p : A -> bool) (l : list A) (c : A) :
  head (dropWhile p l) = Some c -> p c = false.
Proof.
  induction l as [|x l IH]; simpl; [done|].
  destruct (p x) eqn:Hx; [done|]. simpl. by intros [= <-].
Qed.

Lemma dropWhile_elem_of {A} (p : A -> bool) (l : list A) (c : A) :
  c ∈ dropWhile p l -> c ∈ l.
Proof.
  induction l as [|x l IH]; simpl; [done|].
  destruct (p x); [|done]. intros H. right. by apply IH.
Qed.

Lemma dropWhile_last {A} (p : A -> bool) (l : list A) (c : A) :
  last l = Some c -> p c = false -> last (dropWhile p l) = Some c.
Proof.
  intros Hl Hc. induction l as [|x l IH]; simpl; [done|].
  destruct (p x) eqn:Hx; [|done].
  destruct l as [|y l]; [|by apply IH].
  simpl in Hl. congruence.
Qed.

Lemma trim_elem_of (s : jsstring) (c : Z) : c ∈ trim s -> c ∈ s.
Proof.
  unfold trim. rewrite elem_of_reverse. intros H.
  apply dropWhile_elem_of in H. rewrite elem_of_reverse in H.
  by apply dropWhile_elem_of in H.
Qed.

Lemma trim_last (s : jsstring) (c : Z) : last (trim s) = Some c -> isSpace c = false.
Proof. unfold trim. rewrite last_reverse. apply dropWhile_head. Qed.

Lemma trim_head (s : jsstring) (c : Z) : head (trim s) = Some c -> isSpace c = false.
Proof.
  unfold trim. rewrite head_reverse.
  destruct (head (dropWhile isSpace s)) as [d|] eqn:Hd.
  - pose proof (dropWhile_head _ _ _ Hd) as Hsp.
    rewrite <- last_reverse in Hd.
    rewrite (dropWhile_last _ _ _ Hd Hsp). by intros [= <-].
  - apply head_None in Hd. rewrite Hd. done.
Qed.

Lemma splitLines_go_no_LF (cur s line : jsstring) :
  LF ∉ cur -> line ∈ splitLines_go cur s -> LF ∉ line.
Proof.
  revert cur. induction s as [|c s IH]; intros cur Hcur; simpl.
  - intros H. apply list_elem_of_singleton in H as ->. by rewrite elem_of_reverse.
  - destruct (Z.eqb_spec c LF) as [->|Hne].
    + intros H. apply elem_of_cons in H as [->|Hin].
      * rewrite elem_of_reverse. destruct cur as [|d cur']; [done|].
        destruct (d =? CR); [|done]. intros H. apply Hcur. by right.
      * eapply IH; [|done]. apply not_elem_of_nil.
    + apply IH. intros H. apply elem_of_cons in H as [?|?]; [congruence|done].
Qed.

Lemma paragraph_wellTrimmed (t p : jsstring) :
  p ∈ splitIntoParagraphs t -> wellTrimmed p.
Proof.
  unfold splitIntoParagraphs. rewrite list_elem_of_In, filter_In, <- list_elem_of_In.
  intros [Hin Hlen]. apply list_elem_of_In, in_map_iff in Hin as (line & <- & Hline).
  apply list_elem_of_In in Hline.
  split; [|split; [|split]].
  - intros Heq. rewrite Heq in Hlen. done.
  - intros H. apply trim_elem_of in H. revert H.
    eapply splitLines_go_no_LF; [|exact Hline]. apply not_elem_of_nil.
  - apply trim_head.
  - apply trim_last.
Qed.

Lemma join_cons_cons (sep p q : jsstring) (ps : list jsstring) :
  join sep (p :: q :: ps) = p ++ sep ++ join sep (q :: ps).
Proof. done. Qed.

Lemma join_wellTrimmed (ps : list jsstring) :
  ps <> [] -> Forall wellTrimmed ps -> wellTrimmed (join [SP] ps).
Proof.
  induction ps as [|p ps IH]; [done|]. intros _ Hall.
  apply Forall_cons in Hall as [Hp Hps].
  destruct ps as [|q ps]; [done|].
  rewrite join_cons_cons.
  destruct IH as (Hne & Hlf & Hhd & Hla); [done|done|].
  destruct Hp as (Hpne & Hplf & Hphd & Hpla).
  split; [|split; [|split]].
  - destruct p; done.
  - rewrite !elem_of_app. intros [?|[H|?]]; [done| |done].
    apply list_elem_of_singleton in H. done.
  - destruct p; [done|]. simpl. apply Hphd.
  - intros c. rewrite !last_app.
    destruct (last (join [SP] (q :: ps))) as [d|] eqn:Hd.
    + intros [= <-]. by apply Hla.
    + apply last_None in Hd. done.
Qed.

(** The separators are kept, so joining the words gives the text back. *)
Lemma splitWords_go_concat (inWs : bool) (cur s : jsstring) :
  List.concat (splitWords_go inWs cur s) = reverse cur ++ s.
Proof.
  revert inWs cur. induction s as [|c s IH]; intros inWs cur; simpl.
  - destruct inWs; simpl; by rewrite ?app_nil_r.
  - destruct (isSpace c), inWs; simpl; rewrite IH;
      rewrite ?reverse_cons, ?reverse_singleton, <- ?app_assoc; done.
Qed.

Lemma splitWords_concat (s : jsstring) : List.concat (splitWords s) = s.
Proof. unfold splitWords. by rewrite splitWords_go_concat. Qed.

Lemma join_empty_concat (ps : list jsstring) : join [] ps = List.concat ps.
Proof.
  induction ps as [|p ps IH]; [done|].
  destruct ps as [|q ps]; [simpl; by rewrite app_nil_r|].
  rewrite join_cons_cons, IH. done.
Qed.

End StringFacts.

(** ** The adaptive matcher *)

Lemma fold_left_ind {A B} (P : list B -> A -> Prop) (f : A -> B -> A)
    (l : list B) (a : A) :
  P [] a ->
  (forall seen x a', P seen a' -> P (seen ++ [x]) (f a' x)) ->
  P l (fold_left f l a).
Proof.
  intros H0 Hstep.
  cut (forall seen a', P seen a' -> P (seen ++ l) (fold_left f l a')).
  { intros H. apply (H [] a H0). }
  induction l as [|x l IH]; intros seen a' Hp; simpl.
  - by rewrite app_nil_r.
  - replace (seen ++ x :: l) with ((seen ++ [x]) ++ l) by (by rewrite <- app_assoc).
    apply IH. by apply Hstep.
Qed.

Section AdaptiveFacts.

Import Adaptive.

Variable paras : list jsstring.

Abbreviation nparas := (Z.of_nat (length paras)).

(** The window loop returns the pair it was given, or an unconsumed index of
    the window with its score. *)
Lemma windowLoop_range used normSource t n w best :
  let r := windowLoop paras used normSource t n w best in
  r = best
  \/ ((t + w <= fst r < t + w + Z.of_nat n) /\ fst r < nparas /\ (fst r ∉ used)
      /\ snd r = candidateScore normSource (get_ paras (fst r)) (fst r - t)).
Proof.
  revert w best. induction n as [|n IH]; intros w best; simpl; [by left|].
  destruct (Z.leb_spec nparas (t + w)); [by left|].
  case_bool_decide as Hused.
  - destruct (IH (w + 1) best) as [Heq|(Hr & Hl & Hu & Hs)]; [by left|].
    right. repeat split; try done; lia.
  - set (score := candidateScore normSource (get_ paras (t + w)) w).
    set (best' := if PrimFloat.ltb (snd best) score then (t + w, score) else best).
    destruct (IH (w + 1) best') as [Heq|(Hr & Hl & Hu & Hs)].
    + fold score best'. rewrite Heq. unfold best'.
      destruct (PrimFloat.ltb (snd best) score); [|by left].
      right. simpl. repeat split; try done; try lia.
      unfold score. do 2 f_equal. lia.
    + right. fold score best'. repeat split; try done; lia.
Qed.

Lemma tier2Step_Step2 st segment :
  0 <= tIdx st ->
  (forall k, k ∈ usedTranslations st -> k < tIdx st) ->
  Step2 paras segment st (tier2Step paras st segment).
Proof.
  intros Ht Hused. unfold tier2Step.
  set (n := Z.to_nat (Z.min 5 (nparas - tIdx st))).
  pose proof (windowLoop_range (usedTranslations st) (normalize (text segment))
                (tIdx st) n 0 (-1, 0%float)) as Hw.
  simpl in Hw.
  destruct (windowLoop paras (usedTranslations st) (normalize (text segment))
              (tIdx st) n 0 (-1, 0%float)) as [bestMatch bestScore].
  simpl in Hw.
  destruct (Z.leb_spec 0 bestMatch) as [Hb|Hb]; simpl.
  - destruct Hw as [[= -> ->]|(Hr & Hl & Hu & Hs)]; [lia|].
    destruct (PrimFloat.ltb 0.2 bestScore).
    + apply (Step2_consume _ _ _ _ bestMatch); simpl; try done; try lia.
      * destruct (PrimFloat.ltb bestScore 0.6); done.
      * destruct (PrimFloat.ltb bestScore 0.6); done.
      * destruct (PrimFloat.ltb bestScore 0.6); done.
      * destruct (PrimFloat.ltb bestScore 0.6); done.
      * destruct (PrimFloat.ltb bestScore 0.6); done.
      * destruct (PrimFloat.ltb bestScore 0.6); done.
      * destruct (PrimFloat.ltb bestScore 0.6); simpl; lia.
    + destruct (Z.ltb_spec (tIdx st) nparas) as [Hlt|Hge]; simpl.
      * case_bool_decide as Hin; simpl.
        { apply Hused in Hin. lia. }
        apply (Step2_consume _ _ _ _ (tIdx st)); simpl; try done; lia.
      * by apply Step2_defer.
  - destruct (Z.ltb_spec (tIdx st) nparas) as [Hlt|Hge]; simpl.
    + case_bool_decide as Hin; simpl.
      { apply Hused in Hin. lia. }
      apply (Step2_consume _ _ _ _ (tIdx st)); simpl; try done; lia.
    + by apply Step2_defer.
Qed.

Lemma T2inv_start label n :
  T2inv paras n [] (mkT2 (updStats (setMethod label) (initial n)) 0 ∅).
Proof.
  unfold T2inv. simpl.
  split; [lia|]. split; [intros k; set_solver|].
  repeat split; try done; try lia; try constructor.
Qed.

Lemma T2inv_used total0 seen st k :
  T2inv paras total0 seen st -> k ∈ usedTranslations st -> k < tIdx st.
Proof.
  intros (_ & Hu & Hall & _) Hk. apply Hu in Hk.
  rewrite Forall_forall in Hall. apply Hall in Hk. lia.
Qed.

Lemma T2inv_step total0 seen st segment :
  T2inv paras total0 seen st ->
  T2inv paras total0 (seen ++ [segment]) (tier2Step paras st segment).
Proof.
  intros Hinv.
  pose proof (tier2Step_Step2 st segment) as Hstep.
  destruct Hinv as ([Ht0 Ht1] & Hu & Hall & Hsort & Hlast & Hseen & Hdef & Hm & Hun
                    & Htot & Hfz & Hval).
  destruct Hstep as [k Hk Hfresh Ht' Hu' Hmap' Has' Hun' Hm' Huc' Htot' Hfz'
                    |Hge Ht' Hu' Hmap' Has' Hun' Hm' Huc' Htot' Hfz']; [done| | |].
  { intros k Hk. apply Hu in Hk. rewrite Forall_forall in Hall.
    apply Hall in Hk. lia. }
  - assert (unmatched (res st) = []) as Hnil.
    { destruct (unmatched (res st)) eqn:E; [done|]. exfalso.
      assert (nparas <= tIdx st) by (apply Hdef; done). lia. }
    unfold T2inv.
    rewrite Ht', Hu', Hmap', Has', Hun', Hm', Huc', Htot', !fmap_app, Hnil in *.
    simpl. split; [lia|]. split; [|split; [|split; [|split]]].
    + intros j. rewrite elem_of_union, elem_of_singleton, elem_of_app,
        list_elem_of_singleton, Hu. tauto.
    + apply Forall_app. split; [|repeat constructor; lia].
      eapply Forall_impl; [exact Hall|]. simpl. lia.
    + apply StronglySorted_app_2; [|done|repeat constructor].
      intros x1 x2 Hx1 Hx2. apply list_elem_of_singleton in Hx2 as ->.
      rewrite Forall_forall in Hall. apply Hall in Hx1. lia.
    + rewrite last_snoc. done.
    + rewrite Hseen, !app_nil_r. split; [done|]. split; [done|].
      rewrite length_app. simpl in *. split; [lia|]. split; [lia|]. split; [done|].
      split; [lia|]. apply map_Forall_insert_2; [|done].
      apply get_elem_of. lia.
  - unfold T2inv.
    rewrite Ht', Hu', Hmap', Has', Hun', Hm', Huc', Htot', Hfz'.
    split; [lia|]. repeat (split; [done|]).
    split; [by rewrite Hseen, app_assoc|]. split; [done|].
    rewrite length_app. simpl. repeat split; try done; lia.
Qed.

Lemma tier2_inv label (segs : list Segment) :
  let n := Z.of_nat (length segs) in
  T2inv paras n segs (tier2 paras segs (updStats (setMethod label) (initial n))).
Proof.
  intros n. unfold tier2.
  apply (fold_left_ind (T2inv paras n)).
  - apply T2inv_start.
  - intros seen x a'. apply T2inv_step.
Qed.

(** Tier 3 compares at most 100 code units of each side, so [similarity]
    takes its Levenshtein branch there, never the word-overlap one. *)
Lemma similarity_short (a b : jsstring) :
  (length a <= 500)%nat -> (length b <= 500)%nat ->
  similarity a b
  = if strEq a b then 1%float
    else if strEq a [] || strEq b [] then 0%float
    else if PrimFloat.ltb 0.8
              (PrimFloat.div
                 (num (Z.abs (Z.of_nat (length a) - Z.of_nat (length b))))
                 (num (Z.max (Z.of_nat (length a)) (Z.of_nat (length b)))))
    then 0%float
    else PrimFloat.sub 1
           (PrimFloat.div (num (editDistance a b))
              (num (Z.max (Z.of_nat (length a)) (Z.of_nat (length b))))).
Proof.
  intros Ha Hb. unfold similarity.
  destruct (Z.ltb_spec 500 (Z.of_nat (length a))); [lia|].
  destruct (Z.ltb_spec 500 (Z.of_nat (length b))); [lia|].
  done.
Qed.

Lemma substring0_short (s : jsstring) : (length (substring0 s 100) <= 500)%nat.
Proof. unfold substring0. rewrite length_take. lia. Qed.

(** Tier 3.  The chosen pool entry is an entry of the pool. *)
Lemma poolStep_fold_elem_of segment (pool : list Candidate) best :
  let r := fold_left (poolStep segment) pool best in
  fst r = fst best \/ exists c, fst r = Some c /\ c ∈ pool.
Proof.
  revert best. induction pool as [|d pool IH]; intros best; simpl; [by left|].
  destruct (IH (poolStep segment best d)) as [Heq|(c & Hc & Hin)].
  - rewrite Heq. unfold poolStep.
    destruct (_ && _); [|by left]. right. exists d. split; [done|]. by left.
  - right. exists c. split; [done|]. by right.
Qed.

Lemma splice1_perm (c : Candidate) (pool : list Candidate) :
  c ∈ pool -> pool.*2 ≡ₚ snd c :: (splice1 c pool).*2.
Proof.
  induction pool as [|d pool IH]; intros Hin; [by apply elem_of_nil in Hin|].
  simpl. destruct (Z.eqb_spec (snd d) (snd c)) as [Heq|Hne].
  - by rewrite Heq.
  - apply elem_of_cons in Hin as [->|Hin]; [done|].
    simpl. rewrite (IH Hin) at 1. apply Permutation_swap.
Qed.

Lemma splice1_elem_of (c d : Candidate) (pool : list Candidate) :
  d ∈ splice1 c pool -> d ∈ pool.
Proof.
  induction pool as [|e pool IH]; simpl; [done|].
  destruct (snd e =? snd c); [by right|].
  intros H. apply elem_of_cons in H as [->|H]; [by left|]. right. by apply IH.
Qed.

Lemma elem_of_indexed (c : Candidate) :
  c ∈ indexed paras <-> exists i : nat, paras !! i = Some (fst c) /\ snd c = Z.of_nat i.
Proof.
  unfold indexed. rewrite elem_of_lookup_imap. split.
  - intros (i & t & -> & Hi). by exists i.
  - intros (i & Hi & Hs). exists i, (fst c). split; [|done].
    destruct c as [t k]. simpl in *. by rewrite Hs.
Qed.

Lemma NoDup_indexed : NoDup (indexed paras).*2.
Proof.
  unfold indexed. rewrite fmap_imap.
  rewrite (imap_ext _ (fun i _ => Z.of_nat i)) by done.
  rewrite imap_seq_0. apply NoDup_fmap_2; [apply _|apply NoDup_seq].
Qed.

Lemma T3inv_start total0 seen2 st2 :
  T2inv paras total0 seen2 st2 ->
  T3inv paras st2 [] (mkT3 (res st2) (initialPool paras st2) []).
Proof.
  intros (_ & Hu & Hall & Hsort & _ & _ & _ & _ & _ & _ & _ & Hval).
  exists []. simpl. rewrite app_nil_r.
  assert (forall c, c ∈ initialPool paras st2 ->
            c ∈ indexed paras /\ snd c ∉ usedTranslations st2) as Hpool.
  { intros c. unfold initialPool. rewrite list_elem_of_In, filter_In, <- list_elem_of_In.
    intros [Hc Hf]. split; [done|]. apply negb_true_iff in Hf.
    by apply bool_decide_eq_false in Hf. }
  split; [done|]. split; [|split; [|split]].
  - apply NoDup_app. split; [|split].
    + clear -Hsort. induction Hsort as [|x l Hs IH Hx]; [constructor|].
      constructor; [|done]. intros Hin. rewrite Forall_forall in Hx.
      apply Hx in Hin. lia.
    + intros k Hk Hk'. apply list_elem_of_fmap in Hk' as (c & -> & Hc).
      apply Hpool in Hc as [_ Hc]. apply Hc, Hu, Hk.
    + apply (NoDup_fmap_2_strong snd).
      * intros c d Hc Hd Heq. apply Hpool in Hc as [Hc _], Hd as [Hd _].
        apply elem_of_indexed in Hc as (i & Hi & Hci), Hd as (j & Hj & Hdj).
        assert (i = j) as -> by lia.
        destruct c, d; simpl in *. congruence.
      * unfold initialPool. apply NoDup_ListNoDup, List.NoDup_filter, NoDup_ListNoDup.
        eapply NoDup_fmap_1. apply NoDup_indexed.
  - apply Forall_forall. intros c Hc. apply Hpool in Hc as [Hc Hnu].
    apply elem_of_indexed in Hc as (i & Hi & Hci).
    split; [|split; [|done]].
    + apply lookup_lt_Some in Hi. lia.
    + by eapply list_elem_of_lookup_2.
  - constructor.
  - repeat split; try done; try lia.
Qed.

Lemma T3inv_step st2 seen st3 segment :
  T3inv paras st2 seen st3 -> T3inv paras st2 (seen ++ [segment]) (tier3Step st3 segment).
Proof.
  intros (resPart & Has & Hnd & Hpool & Hres & Hsub & Hstill & Hlen & Hm & Hun
          & Htot & Hfz & Hme & Hval).
  unfold tier3Step.
  pose proof (poolStep_fold_elem_of segment (unusedTranslations st3) (None, 0%float))
    as Hbest. simpl in Hbest.
  destruct (fst (fold_left (poolStep segment) (unusedTranslations st3) (None, 0%float)))
    as [bestMatch|] eqn:Hfold.
  - destruct Hbest as [?|(c & [= <-] & Hin)]; [done|].
    rewrite Forall_forall in Hpool. pose proof (Hpool _ Hin) as (Hr & Hp & Hnu).
    exists (resPart ++ [(segment, snd bestMatch)]). simpl.
    rewrite Has, !fmap_app, !length_app, <- !app_assoc. simpl.
    split; [done|]. split; [|split; [|split; [|split; [|split]]]].
    + rewrite Has, !fmap_app, <- !app_assoc in Hnd.
      rewrite (splice1_perm _ _ Hin) in Hnd.
      eapply (NoDup_Permutation_proper); [|exact Hnd].
      apply Permutation_app_head, Permutation_app_head. done.
    + apply Forall_forall. intros d Hd. apply Hpool. by eapply splice1_elem_of.
    + apply Forall_app. split; [done|]. constructor; [done|constructor].
    + by apply sublist_app.
    + by apply sublist_inserts_r.
    + rewrite Hm, Hun, Htot, Hfz, Hme. repeat split; try lia.
      by apply map_Forall_insert_2.
  - exists resPart. simpl. rewrite !length_app. simpl.
    repeat split; try done; try lia.
    + by apply sublist_inserts_r.
    + by apply sublist_app.
Qed.

End AdaptiveFacts.

(** ** The rewrite engine *)

Section RebuildFacts.

Import Dom Rebuild.

Variable k : Kind.

Abbreviation isRun := (isElem (runNs k) "r").
Abbreviation isT := (isElem (runNs k) "t").

Lemma flatText_app (r1 r2 : list Node) : flatText k (r1 ++ r2) = flatText k r1 ++ flatText k r2.
Proof. unfold flatText. by rewrite List.map_app, concat_app. Qed.

Lemma textRunLengths_app (r1 r2 : list Node) :
  textRunLengths k (r1 ++ r2) = textRunLengths k r1 ++ textRunLengths k r2.
Proof. unfold textRunLengths. by rewrite List.map_app, List.filter_app. Qed.

Lemma isElem_Elem ns name (n : Node) :
  isElem ns name n = true -> exists attrs cs, n = Elem ns name attrs cs.
Proof.
  destruct n as [|ns' name' attrs cs]; simpl; [done|].
  intros H. apply andb_true_iff in H as [H1 H2].
  apply bool_decide_eq_true in H1 as ->. apply String.eqb_eq in H2 as ->. eauto.
Qed.

Lemma isElem_refl ns name attrs cs : isElem ns name (Elem ns name attrs cs) = true.
Proof. simpl. rewrite String.eqb_refl. by rewrite bool_decide_eq_true_2. Qed.

Lemma textContent_setTextContent ns name attrs cs (s : jsstring) :
  textContent (setTextContent s (Elem ns name attrs cs)) = s.
Proof. destruct s; simpl; [done|]. by rewrite app_nil_r. Qed.

(** Writing a chunk into the children of a run. *)
Lemma writeTextNodes_text (chunk : jsstring) (first : bool) (cs : list Node) :
  List.concat (List.map textContent (List.filter isT (writeTextNodes k chunk first cs)))
  = if first && existsb isT cs then chunk else [].
Proof.
  revert first. induction cs as [|c cs IH]; intros first; simpl.
  - by rewrite andb_false_r.
  - destruct (isElem (runNs k) "t" c) eqn:Hc.
    + destruct (isElem_Elem _ _ _ Hc) as (attrs & ts & ->).
      rewrite andb_true_r. destruct first.
      * assert (isT (match k with
                     | Docx => setAttribute "xml:space" "preserve"
                                 (setTextContent chunk (Elem (runNs k) "t" attrs ts))
                     | Pptx => setTextContent chunk (Elem (runNs k) "t" attrs ts)
                     end) = true) as Ht.
        { destruct k; apply isElem_refl. }
        simpl. simpl in Ht. rewrite Ht. simpl. rewrite IH. simpl.
        rewrite app_nil_r. destruct k, chunk; simpl; by rewrite ?app_nil_r.
      * pose proof (isElem_refl (runNs k) "t" attrs []) as Ht.
        simpl. simpl in Ht. rewrite Ht. simpl. rewrite IH. done.
    + simpl. rewrite Hc. apply IH.
Qed.

Lemma filter_none {A} (p : A -> bool) (l : list A) :
  existsb p l = false -> List.filter p l = [].
Proof.
  induction l as [|x l IH]; simpl; [done|].
  destruct (p x); simpl; [done|]. apply IH.
Qed.

Lemma runText_nonempty (run : Node) :
  (0 < length (runText k run))%nat -> existsb isT (children run) = true.
Proof.
  unfold runText, getTextNodes. intros H.
  destruct (existsb isT (children run)) eqn:E; [done|]. exfalso.
  rewrite (filter_none _ _ E) in H. simpl in H. lia.
Qed.

Lemma setRunText_isRun (chunk : jsstring) (run : Node) :
  isRun (setRunText k chunk run) = isRun run.
Proof. by destruct run. Qed.

Lemma setRunText_text (chunk : jsstring) (run : Node) :
  isRun run = true -> (0 < length (runText k run))%nat ->
  runText k (setRunText k chunk run) = chunk.
Proof.
  intros Hr Hlen. apply isElem_Elem in Hr as (attrs & cs & ->).
  apply runText_nonempty in Hlen. simpl in Hlen.
  unfold runText, getTextNodes. simpl. rewrite writeTextNodes_text, Hlen. done.
Qed.

(** A run that takes a chunk carries it afterwards; a run without text keeps
    its (empty) text. *)
Lemma writeRun_spec (c : Node) (chunks : list jsstring) :
  isRun c = true ->
  (length (textRunLengths k [c]) <= length chunks)%nat ->
  let r := writeRun k c chunks in
  isRun (fst r) = true
  /\ runText k (fst r) = List.concat (take (length (textRunLengths k [c])) chunks)
  /\ snd r = drop (length (textRunLengths k [c])) chunks.
Proof.
  intros Hr. unfold writeRun, textRunLengths. simpl.
  destruct (Nat.ltb_spec 0 (length (runText k c))) as [Hlen|Hlen]; simpl.
  - destruct chunks as [|chunk rest]; simpl; [lia|]. intros _.
    rewrite setRunText_isRun, setRunText_text, app_nil_r by done. done.
  - intros _. split; [done|]. split; [|done].
    destruct (runText k c); [done|simpl in Hlen; lia].
Qed.

Lemma take_concat_add (m1 m2 : nat) (chunks : list jsstring) :
  List.concat (take (m1 + m2) chunks)
  = List.concat (take m1 chunks) ++ List.concat (take m2 (drop m1 chunks)).
Proof. by rewrite <- take_take_drop, concat_app. Qed.

(** The runs that are direct children. *)
Lemma writeRunsFlat_spec (cs : list Node) (chunks : list jsstring) :
  let runs := List.filter isRun cs in
  let m := length (textRunLengths k runs) in
  (m <= length chunks)%nat ->
  let r := writeRunsFlat k cs chunks in
  flatText k (List.filter isRun (fst r)) = List.concat (take m chunks)
  /\ snd r = drop m chunks.
Proof.
  revert chunks. induction cs as [|c cs IH]; intros chunks; simpl.
  - done.
  - destruct (isElem (runNs k) "r" c) eqn:Hc.
    + change (c :: List.filter isRun cs) with ([c] ++ List.filter isRun cs).
      rewrite textRunLengths_app, length_app. intros Hm.
      destruct (writeRun_spec c chunks Hc) as (Hr1 & Ht1 & Hs1); [lia|].
      destruct (writeRun k c chunks) as [c' chunks'] eqn:E1. simpl in *.
      specialize (IH chunks'). rewrite Hs1, length_drop in IH.
      destruct IH as [IH1 IH2]; [lia|].
      destruct (writeRunsFlat k cs chunks') as [cs'' chunks''] eqn:E2.
      rewrite Hs1 in E2. rewrite E2 in IH1, IH2. simpl in *.
      rewrite Hr1. change (c' :: List.filter isRun cs'') with ([c'] ++ List.filter isRun cs'').
      rewrite flatText_app, IH1, take_concat_add, IH2, drop_drop.
      unfold flatText. simpl. by rewrite app_nil_r, Ht1.
    + intros Hm. specialize (IH chunks Hm).
      destruct (writeRunsFlat k cs chunks) as [cs'' chunks'']. simpl in *.
      by rewrite Hc.
Qed.

End RebuildFacts.

Section RewriteFacts.

Import Dom Rebuild.

Lemma isElem_r_not_hyperlink (c : Node) :
  isElem NS_w "r" c = true -> isElem NS_w "hyperlink" c = false.
Proof. intros H. apply isElem_Elem in H as (attrs & cs & ->). done. Qed.

Lemma writeRunsDocx_spec (cs : list Node) (chunks : list jsstring) :
  let m := length (textRunLengths Docx (docxRuns cs)) in
  (m <= length chunks)%nat ->
  let r := writeRunsDocx cs chunks in
  flatText Docx (docxRuns (fst r)) = List.concat (take m chunks)
  /\ snd r = drop m chunks.
Proof.
  revert chunks. induction cs as [|c cs IH]; intros chunks; [done|].
  unfold docxRuns. simpl. fold (docxRuns cs).
  destruct (isElem NS_w "r" c) eqn:Hc.
  - rewrite (isElem_r_not_hyperlink c Hc). simpl.
    change (c :: docxRuns cs) with ([c] ++ docxRuns cs).
    rewrite textRunLengths_app, length_app. intros Hm.
    destruct (writeRun_spec Docx c chunks Hc) as (Hr1 & Ht1 & Hs1); [lia|].
    destruct (writeRun Docx c chunks) as [c' chunks'] eqn:E1. simpl in *.
    specialize (IH chunks'). rewrite Hs1, length_drop in IH.
    destruct IH as [IH1 IH2]; [lia|].
    destruct (writeRunsDocx cs chunks') as [cs'' chunks''] eqn:E2.
    rewrite Hs1 in E2. rewrite E2 in IH1, IH2. simpl in *.
    unfold docxRuns. simpl. fold (docxRuns cs'').
    rewrite Hr1, (isElem_r_not_hyperlink c' Hr1). simpl.
    change (c' :: docxRuns cs'') with ([c'] ++ docxRuns cs'').
    rewrite flatText_app, IH1, take_concat_add, IH2, drop_drop.
    unfold flatText. simpl. by rewrite app_nil_r, Ht1.
  - destruct (isElem NS_w "hyperlink" c) eqn:Hh.
    + destruct (isElem_Elem _ _ _ Hh) as (attrs & hs & ->). simpl.
      rewrite textRunLengths_app, length_app. intros Hm.
      destruct (writeRunsFlat_spec Docx hs chunks) as [Hf1 Hf2]; [simpl; lia|].
      destruct (writeRunsFlat Docx hs chunks) as [hs' chunks'] eqn:E1. simpl in *.
      specialize (IH chunks'). rewrite Hf2, length_drop in IH.
      destruct IH as [IH1 IH2]; [lia|].
      destruct (writeRunsDocx cs chunks') as [cs'' chunks''] eqn:E2.
      rewrite Hf2 in E2. rewrite E2 in IH1, IH2. simpl in *.
      unfold docxRuns. simpl. fold (docxRuns cs'').
      rewrite flatText_app, IH1, take_concat_add, IH2, drop_drop, Hf1. done.
    + simpl. intros Hm. specialize (IH chunks Hm).
      destruct (writeRunsDocx cs chunks) as [cs'' chunks'']. simpl in *.
      unfold docxRuns. simpl. fold (docxRuns cs''). rewrite Hc, Hh. done.
Qed.

(** Both kinds: after the writes, the runs of the paragraph read the first
    [m] chunks, [m] being the number of runs that carried text. *)
Lemma writeRuns_spec (k : Kind) ns name attrs (cs : list Node) (chunks : list jsstring) :
  let m := length (textRunLengths k (getRuns k (Elem ns name attrs cs))) in
  (m <= length chunks)%nat ->
  flatText k (getRuns k (Elem ns name attrs (writeRuns k cs chunks)))
  = List.concat (take m chunks).
Proof.
  destruct k; simpl; intros Hm.
  - apply (writeRunsDocx_spec cs chunks Hm).
  - apply (writeRunsFlat_spec Pptx cs chunks Hm).
Qed.

(** The distribution loses and repeats nothing. *)
Lemma takeWords_concat (target : float) (chunk : jsstring) (words : list jsstring) :
  let r := takeWords target chunk words in
  fst r ++ List.concat (snd r) = chunk ++ List.concat words.
Proof.
  revert chunk. induction words as [|w words IH]; intros chunk; simpl; [done|].
  destruct (_ && _); simpl; [done|].
  destruct (_ && _); simpl; [by rewrite <- app_assoc|].
  rewrite IH. by rewrite <- app_assoc.
Qed.

Lemma distribute_concat (targets : list float) (words : list jsstring) :
  targets <> [] -> List.concat (distribute targets words) = List.concat words.
Proof.
  revert words. induction targets as [|t targets IH]; intros words Hne; [done|].
  destruct targets as [|t' targets].
  - simpl. by rewrite app_nil_r, join_empty_concat.
  - change (distribute (t :: t' :: targets) words)
      with (let '(chunk, words') := takeWords t [] words in
            chunk :: distribute (t' :: targets) words').
    pose proof (takeWords_concat t [] words) as Ht.
    destruct (takeWords t [] words) as [chunk words']. simpl in Ht.
    cbv zeta iota beta. rewrite List.concat_cons, IH by done. done.
Qed.

Lemma distribute_length (targets : list float) (words : list jsstring) :
  length (distribute targets words) = length targets.
Proof.
  revert words. induction targets as [|t targets IH]; intros words; [done|].
  destruct targets as [|t' targets]; [done|].
  change (distribute (t :: t' :: targets) words)
    with (let '(chunk, words') := takeWords t [] words in
          chunk :: distribute (t' :: targets) words').
  destruct (takeWords t [] words) as [chunk words']. cbv zeta iota beta.
  rewrite length_cons, IH. done.
Qed.

Lemma chunksFor_length (total : float) (lengths : list nat) (newText : jsstring) :
  length (chunksFor total lengths newText) = length lengths.
Proof.
  destruct lengths as [|l [|l' lengths]]; [done|done|].
  unfold chunksFor. by rewrite distribute_length, length_map.
Qed.

Lemma chunksFor_concat (total : float) (lengths : list nat) (newText : jsstring) :
  lengths <> [] -> List.concat (chunksFor total lengths newText) = newText.
Proof.
  destruct lengths as [|l [|l' lengths]]; [done| |].
  - intros _. simpl. by rewrite app_nil_r.
  - intros _. unfold chunksFor. rewrite distribute_concat by done.
    apply splitWords_concat.
Qed.

(** The flattened text of a rewritten paragraph. *)
Lemma replaceText_flat (k : Kind) (p : Node) (newText : jsstring) :
  textRunLengths k (getRuns k p) <> [] ->
  extractText k (replaceText k p newText) = newText.
Proof.
  intros Hne. unfold replaceText. cbv zeta.
  fold (textRunLengths k (getRuns k p)) (originalLength k p).
  destruct p as [s|ns name attrs cs].
  { destruct k; done. }
  set (total := originalLength k _).
  destruct (textRunLengths k (getRuns k (Elem ns name attrs cs))) as [|l ls] eqn:E; [done|].
  pose proof (writeRuns_spec k ns name attrs cs (chunksFor total (l :: ls) newText)) as Hw.
  cbv zeta in Hw. rewrite E, chunksFor_length in Hw. specialize (Hw (Nat.le_refl _)).
  unfold flatText in Hw. unfold extractText. rewrite Hw.
  rewrite <- (chunksFor_length total (l :: ls) newText), firstn_all.
  by apply chunksFor_concat.
Qed.

End RewriteFacts.

Section FlagFacts.

Import Dom Rebuild.

#[local] Arguments isElem : simpl never.

Variable k : Kind.

Abbreviation isRun' := (isElem (runNs k) "r").
Abbreviation isRPr := (isElem (runNs k) "rPr").

Lemma isFlag_highlightElem : isFlag k (highlightElem k) = true.
Proof. by destruct k. Qed.

Lemma flagFirstRPr_flagged (cs : list Node) :
  existsb isRPr cs = true -> existsb (flaggedProps k) (flagFirstRPr k cs) = true.
Proof.
  induction cs as [|c cs IH]; simpl; [done|].
  destruct (isElem (runNs k) "rPr" c) eqn:Hc; simpl.
  - intros _. destruct (isElem_Elem _ _ _ Hc) as (attrs & ps & ->).
    simpl. apply orb_true_iff. left. unfold flaggedProps.
    rewrite isElem_refl. simpl.
    rewrite existsb_app. simpl. by rewrite isFlag_highlightElem, orb_true_r.
  - intros H. unfold flaggedProps at 1. rewrite Hc. simpl. by apply IH.
Qed.

Lemma highlightRun_isRun (run : Node) : isRun' (highlightRun k run) = isRun' run.
Proof. by destruct run. Qed.

(** A highlighted run carries the flag. *)
Lemma highlightRun_flag (run : Node) :
  isRun' run = true -> carriesFlag k (highlightRun k run) = true.
Proof.
  intros Hr. apply isElem_Elem in Hr as (attrs & cs & ->).
  unfold carriesFlag. simpl. fold (flaggedProps k).
  apply flagFirstRPr_flagged.
  destruct (existsb (isElem (runNs k) "rPr") cs) eqn:E; [done|].
  simpl. by rewrite isElem_refl.
Qed.

Lemma filter_map_same (f : Node -> Node) (cs : list Node) :
  (forall c, isRun' (f c) = isRun' c) ->
  List.filter isRun' (List.map (fun h => if isRun' h then f h else h) cs)
  = List.map f (List.filter isRun' cs).
Proof.
  intros Hf. induction cs as [|c cs IH]; simpl; [done|].
  destruct (isElem (runNs k) "r" c) eqn:Hc; simpl.
  - rewrite Hf, Hc. simpl. by rewrite IH.
  - rewrite Hc. apply IH.
Qed.

End FlagFacts.

Section HighlightFacts.

Import Dom Rebuild.

(** The runs of a highlighted paragraph are the highlighted runs. *)
Lemma getRuns_highlightRed (k : Kind) (p : Node) :
  getRuns k (highlightRed k p) = List.map (highlightRun k) (getRuns k p).
Proof.
  destruct p as [s|ns name attrs cs]; [by destruct k|].
  destruct k; simpl.
  - induction cs as [|c cs IH]; simpl; [done|].
    rewrite List.map_app, <- IH. f_equal.
    destruct (isElem NS_w "r" c) eqn:Hc.
    + pose proof (highlightRun_isRun Docx c) as Hi. simpl in Hi. rewrite Hi, Hc.
      pose proof (isElem_r_not_hyperlink c Hc) as Hh.
      pose proof (isElem_r_not_hyperlink (highlightRun Docx c)) as Hh'.
      rewrite Hh, Hh' by (by rewrite Hi). done.
    + destruct c as [s|ns' name' attrs' hs]; [done|].
      destruct (isElem NS_w "hyperlink" (Elem ns' name' attrs' hs)) eqn:Hh.
      * destruct (isElem_Elem _ _ _ Hh) as (a2 & h2 & [= -> -> -> ->]).
        simpl. apply (filter_map_same Docx (highlightRun Docx)).
        apply highlightRun_isRun.
      * rewrite Hc, Hh. done.
  - apply (filter_map_same Pptx (highlightRun Pptx)). apply highlightRun_isRun.
Qed.

Lemma getRuns_isRun (k : Kind) (p run : Node) :
  run ∈ getRuns k p -> isElem (runNs k) "r" run = true.
Proof.
  destruct p as [s|ns name attrs cs]; [destruct k; simpl; by intros H%elem_of_nil|].
  destruct k; simpl.
  - rewrite list_elem_of_In, in_concat. intros (l & Hl & Hin).
    apply in_map_iff in Hl as (c & <- & _).
    apply in_app_or in Hin as [Hin|Hin].
    + destruct (isElem NS_w "r" c) eqn:Hc; [|done]. by destruct Hin as [<-|[]].
    + destruct (isElem NS_w "hyperlink" c); [|done].
      by apply filter_In in Hin as [_ ?].
  - rewrite list_elem_of_In, filter_In. by intros [_ ?].
Qed.

(** Every run of a highlighted paragraph carries the flag. *)
Lemma highlightRed_flags (k : Kind) (p : Node) :
  Forall (fun run => carriesFlag k run = true) (getRuns k (highlightRed k p)).
Proof.
  rewrite getRuns_highlightRed. apply Forall_forall. intros run Hin.
  apply list_elem_of_In, in_map_iff in Hin as (old & <- & Hold).
  apply highlightRun_flag. eapply getRuns_isRun. by apply list_elem_of_In.
Qed.

End HighlightFacts.

Section KeepFacts.

Import Dom Rebuild.

#[local] Arguments isElem : simpl never.

Variable k : Kind.

Lemma isT_not_flagged (c : Node) :
  isElem (runNs k) "t" c = true -> flaggedProps k c = false.
Proof. intros H. apply isElem_Elem in H as (attrs & cs & ->). by destruct k. Qed.

(** Writing text leaves the run properties alone. *)
Lemma writeTextNodes_props (chunk : jsstring) (first : bool) (cs : list Node) :
  existsb (flaggedProps k) (writeTextNodes k chunk first cs)
  = existsb (flaggedProps k) cs.
Proof.
  revert first. induction cs as [|c cs IH]; intros first; simpl; [done|].
  destruct (isElem (runNs k) "t" c) eqn:Hc; simpl; [|by rewrite IH].
  rewrite IH, (isT_not_flagged c Hc).
  destruct (isElem_Elem _ _ _ Hc) as (attrs & ts & ->).
  rewrite isT_not_flagged; [done|]. destruct first, k; apply isElem_refl.
Qed.

Lemma setRunText_flag (chunk : jsstring) (run : Node) :
  carriesFlag k (setRunText k chunk run) = carriesFlag k run.
Proof.
  destruct run as [s|ns name attrs cs]; [done|].
  unfold carriesFlag. simpl. apply writeTextNodes_props.
Qed.

Lemma writeRun_keeps (c : Node) (chunks : list jsstring) :
  isElem (runNs k) "r" (fst (writeRun k c chunks)) = isElem (runNs k) "r" c
  /\ carriesFlag k (fst (writeRun k c chunks)) = carriesFlag k c.
Proof.
  unfold writeRun. destruct (0 <? length (runText k c))%nat; [|done].
  destruct chunks; [done|]. simpl. by rewrite setRunText_isRun, setRunText_flag.
Qed.

Lemma writeRunsFlat_keeps (cs : list Node) (chunks : list jsstring) :
  List.map (carriesFlag k) (List.filter (isElem (runNs k) "r") (fst (writeRunsFlat k cs chunks)))
  = List.map (carriesFlag k) (List.filter (isElem (runNs k) "r") cs).
Proof.
  revert chunks. induction cs as [|c cs IH]; intros chunks; simpl; [done|].
  destruct (isElem (runNs k) "r" c) eqn:Hc.
  - destruct (writeRun_keeps c chunks) as [H1 H2].
    destruct (writeRun k c chunks) as [c' chunks']. simpl in *.
    specialize (IH chunks').
    destruct (writeRunsFlat k cs chunks') as [cs'' chunks'']. simpl in *.
    rewrite H1, Hc. simpl. by rewrite H2, IH.
  - specialize (IH chunks).
    destruct (writeRunsFlat k cs chunks) as [cs'' chunks'']. simpl in *.
    by rewrite Hc.
Qed.

End KeepFacts.

Section ReplaceKeeps.

Import Dom Rebuild.

#[local] Arguments isElem : simpl never.

Lemma writeRunsDocx_keeps (cs : list Node) (chunks : list jsstring) :
  List.map (carriesFlag Docx) (docxRuns (fst (writeRunsDocx cs chunks)))
  = List.map (carriesFlag Docx) (docxRuns cs).
Proof.
  revert chunks. induction cs as [|c cs IH]; intros chunks; [done|].
  unfold docxRuns. simpl. fold (docxRuns cs).
  destruct (isElem NS_w "r" c) eqn:Hc.
  - destruct (writeRun_keeps Docx c chunks) as [H1 H2].
    destruct (writeRun Docx c chunks) as [c' chunks']. simpl in *.
    specialize (IH chunks').
    destruct (writeRunsDocx cs chunks') as [cs'' chunks'']. simpl in *.
    unfold docxRuns. simpl. fold (docxRuns cs'').
    rewrite H1, Hc, (isElem_r_not_hyperlink c Hc), (isElem_r_not_hyperlink c').
    + simpl. by rewrite H2, IH.
    + by rewrite H1.
  - destruct (isElem NS_w "hyperlink" c) eqn:Hh.
    + destruct (isElem_Elem _ _ _ Hh) as (attrs & hs & ->).
      pose proof (writeRunsFlat_keeps Docx hs chunks) as Hf.
      destruct (writeRunsFlat Docx hs chunks) as [hs' chunks']. simpl in *.
      specialize (IH chunks').
      destruct (writeRunsDocx cs chunks') as [cs'' chunks'']. simpl in *.
      unfold docxRuns. simpl. fold (docxRuns cs'') (docxRuns cs).
      by rewrite !List.map_app, Hf, IH.
    + specialize (IH chunks).
      destruct (writeRunsDocx cs chunks) as [cs'' chunks'']. simpl in *.
      unfold docxRuns. simpl. fold (docxRuns cs''). rewrite Hc, Hh. done.
Qed.

(** Replacing the text of a paragraph changes the flag of none of its runs. *)
Lemma replaceText_keeps (k : Kind) (p : Node) (newText : jsstring) :
  List.map (carriesFlag k) (getRuns k (replaceText k p newText))
  = List.map (carriesFlag k) (getRuns k p).
Proof.
  unfold replaceText.
  destruct p as [s|ns name attrs cs]; [done|].
  destruct (List.filter _ _); [done|].
  destruct k.
  - apply writeRunsDocx_keeps.
  - apply (writeRunsFlat_keeps Pptx).
Qed.

(** The content paragraph of index [j] after the loop of a file: rewritten
    according to the segment of index [j], left alone when the file has no
    such segment. *)
Lemma rewriteFile_spec (k : Kind) (m : gmap Z jsstring) (segs : list Segment)
    (allParas : list Node) (j : nat) (q : Node) :
  List.filter (isContent k) allParas !! j = Some q ->
  rewriteFile k m segs allParas !! j
  = Some (match segs !! j with
          | Some seg =>
              match m !! id seg with
              | Some translatedText => replaceText k q translatedText
              | None => highlightRed k q
              end
          | None => q
          end).
Proof.
  unfold rewriteFile. cbv zeta.
  set (cp := List.filter (isContent k) allParas).
  set (count := Z.min _ _).
  set (rewritten := fun (j : nat) (q : Node) =>
         match segs !! j with
         | Some seg =>
             match m !! id seg with
             | Some translatedText => replaceText k q translatedText
             | None => highlightRed k q
             end
         | None => q
         end).
  intros Hq. change (forLoop count (rewriteBody k m segs) cp !! j
                     = Some (rewritten j q)).
  pose proof (forLoop_ind
    (fun n st =>
       length st = length cp
       /\ forall (j : nat) q, cp !! j = Some q ->
            st !! j = Some (if Z.of_nat j <? n then rewritten j q else q))
    count (rewriteBody k m segs) cp) as Hloop.
  destruct Hloop as [_ Hloop].
  - unfold count. lia.
  - split; [done|]. intros j' q' Hq'.
    destruct (Z.ltb_spec (Z.of_nat j') 0); [lia|done].
  - intros n st Hn [Hlen Hst]. unfold rewriteBody.
    destruct (at_in_range segs n) as [s Hs]; [unfold count in Hn; lia|].
    destruct (at_in_range st n) as [p Hp]; [unfold count in Hn; lia|].
    rewrite Hs, Hp. split; [by rewrite length_insert|].
    apply at_Some in Hs as [_ Hs], Hp as [_ Hp].
    intros j' q' Hq'.
    destruct (decide (j' = Z.to_nat n)) as [->|Hne].
    + rewrite list_lookup_insert_eq
        by (rewrite Hlen; apply lookup_lt_Some in Hq'; lia).
      rewrite (Hst _ q' Hq') in Hp.
      destruct (Z.ltb_spec (Z.of_nat (Z.to_nat n)) n); [lia|].
      injection Hp as <-.
      destruct (Z.ltb_spec (Z.of_nat (Z.to_nat n)) (n + 1)); [|lia].
      unfold rewritten. by rewrite Hs.
    + rewrite list_lookup_insert_ne by done. rewrite (Hst _ q' Hq').
      destruct (Z.ltb_spec (Z.of_nat j') n), (Z.ltb_spec (Z.of_nat j') (n + 1));
        try done; lia.
  - rewrite (Hloop j q Hq).
    destruct (Z.ltb_spec (Z.of_nat j) count) as [|Hge]; [done|].
    unfold rewritten.
    destruct (segs !! j) as [seg|] eqn:Hseg; [|done].
    apply lookup_lt_Some in Hseg, Hq. unfold count in Hge. fold cp in Hq. lia.
Qed.

(** A content paragraph beyond the segments of its file is left as it is,
    without highlight. *)
Lemma rewriteFile_beyond (k : Kind) (m : gmap Z jsstring) (segs : list Segment)
    (allParas : list Node) (j : nat) (q : Node) :
  List.filter (isContent k) allParas !! j = Some q ->
  (length segs <= j)%nat ->
  rewriteFile k m segs allParas !! j = Some q.
Proof.
  intros Hq Hj. rewrite (rewriteFile_spec k m segs allParas j q Hq).
  by rewrite (lookup_ge_None_2 segs j Hj).
Qed.

End ReplaceKeeps.

(** ** Both matchers, as wholes *)

Section MatcherFacts.

Variable segs : list Segment.
Variable text_ : jsstring.

Abbreviation paras_ := (splitIntoParagraphs text_).
Abbreviation src_ := (Z.of_nat (length segs)).

(** The three cases of the strict matcher. *)
Lemma strict_cases :
  (length segs = length paras_
   /\ Strict.matchTexts segs text_ = structureMatch segs paras_ (initial src_))
  \/ ((length paras_ < length segs)%nat
      /\ Strict.matchTexts segs text_
         = forLoop src_ (Strict.body2 segs paras_ (Z.of_nat (length paras_)))
             (updStats (setMethod "sequential-partial") (initial src_)))
  \/ ((length segs < length paras_)%nat
      /\ Strict.matchTexts segs text_
         = updStats (setFuzzy (Z.of_nat (length paras_) - src_))
             (forLoop src_ (Strict.body3 segs paras_ src_)
                (updStats (setMethod "sequential-merge") (initial src_)))).
Proof.
  unfold Strict.matchTexts.
  destruct (Z.eqb_spec src_ (Z.of_nat (length paras_))) as [Heq|Hne].
  - left. split; [lia|done].
  - destruct (Z.ltb_spec (Z.of_nat (length paras_)) src_).
    + right. left. split; [lia|done].
    + right. right. split; [lia|done].
Qed.

(** The two cases of the adaptive matcher; in the second, Tier 3 runs when
    Tier 2 deferred a segment. *)
Lemma adaptive_cases :
  (length segs = length paras_
   /\ Adaptive.matchTexts segs text_ = structureMatch segs paras_ (initial src_))
  \/ (length segs <> length paras_
      /\ let st2 := Adaptive.tier2 paras_ segs
                      (updStats (setMethod "sequential-flex") (initial src_)) in
         T2inv paras_ src_ segs st2
         /\ ((unmatched (Adaptive.res st2) = []
              /\ Adaptive.matchTexts segs text_ = Adaptive.res st2)
             \/ (unmatched (Adaptive.res st2) <> []
                 /\ exists st3,
                      T3inv paras_ st2 (unmatched (Adaptive.res st2)) st3
                      /\ Adaptive.matchTexts segs text_
                         = resetUnmatched (Adaptive.stillUnmatched st3)
                             (Adaptive.res3 st3)))).
Proof.
  unfold Adaptive.matchTexts.
  destruct (Z.eqb_spec src_ (Z.of_nat (length paras_))) as [Heq|Hne].
  - left. split; [lia|done].
  - right. split; [lia|]. cbv zeta.
    set (st2 := Adaptive.tier2 _ _ _).
    pose proof (tier2_inv paras_ "sequential-flex" segs) as Hinv.
    cbv zeta in Hinv. fold st2 in Hinv.
    split; [done|]. unfold Adaptive.tier3. fold st2.
    destruct (unmatched (Adaptive.res st2)) as [|u us] eqn:Hu.
    + left. done.
    + right. split; [done|]. eexists. split; [|reflexivity].
      fold (initialPool paras_ st2).
      apply (fold_left_ind (T3inv paras_ st2)).
      * eapply T3inv_start. exact Hinv.
      * intros seen x a'. apply T3inv_step.
Qed.

End MatcherFacts.

(** ** The claims *)

Lemma structureMatch_complete segs paras :
  complete segs (structureMatch segs paras (initial (Z.of_nat (length segs)))).
Proof.
  destruct (structureMatch_spec segs paras (initial (Z.of_nat (length segs))))
    as (_ & _ & Hs).
  unfold complete. rewrite Hs. simpl. lia.
Qed.

(** C4. For every input and both strategies the counts add up:
    [matched + unmatched = total], [total] being the number of segments;
    in the adaptive matcher this is so after Tier 3 has moved segments from
    unmatched to matched. *)
Theorem stats_complete (segs : list Segment) (translationText : jsstring) :
  complete segs (Strict.matchTexts segs translationText)
  /\ complete segs (Adaptive.matchTexts segs translationText).
Proof.
  split.
  - destruct (strict_cases segs translationText) as [[_ ->]|[[Hlt ->]|[Hlt ->]]].
    + apply structureMatch_complete.
    + destruct (partial_spec segs (splitIntoParagraphs translationText)
                  (updStats (setMethod "sequential-partial")
                     (initial (Z.of_nat (length segs)))))
        as (_ & _ & Hm & Hu & _ & Ht & _).
      unfold complete. rewrite Hm, Hu, Ht. simpl. lia.
    + destruct (merge_spec segs (splitIntoParagraphs translationText)
                  (updStats (setMethod "sequential-merge")
                     (initial (Z.of_nat (length segs)))))
        as (_ & _ & Hm & Hu & _ & Ht & _).
      unfold complete. simpl. rewrite Hm, Hu, Ht. simpl. lia.
  - destruct (adaptive_cases segs translationText)
      as [[_ ->]|[_ (Hinv & [[Hnil ->]|[Hne (st3 & H3 & ->)]])]].
    + apply structureMatch_complete.
    + destruct Hinv as (_ & _ & _ & _ & _ & Hseen & _ & Hm & Hu & Ht & _).
      pose proof (f_equal length Hseen) as Hl. rewrite length_app, length_fmap in Hl.
      unfold complete. rewrite Hm, Hu, Ht. split; [lia|done].
    + destruct Hinv as (_ & _ & _ & _ & _ & Hseen & _ & Hm & Hu & Ht & _).
      destruct H3 as (resPart & _ & _ & _ & _ & _ & _ & _ & Hm3 & Hu3 & Ht3 & _).
      pose proof (f_equal length Hseen) as Hl. rewrite length_app, length_fmap in Hl.
      unfold complete. simpl. rewrite Hm3, Hu3, Ht3, Hm, Hu, Ht. split; [lia|done].
Qed.

(** C6. In the adaptive matcher no translated paragraph is used twice: the
    indices in the history of the [mapping.set] calls are pairwise different,
    through all tiers. *)
Theorem no_double_use (segs : list Segment) (translationText : jsstring) :
  NoDup (assigned (Adaptive.matchTexts segs translationText)).*2.
Proof.
  destruct (adaptive_cases segs translationText)
    as [[_ ->]|[_ (Hinv & [[Hnil ->]|[Hne (st3 & H3 & ->)]])]].
  - destruct (structureMatch_spec segs (splitIntoParagraphs translationText)
                (initial (Z.of_nat (length segs)))) as ((_ & _ & _ & Ha) & _).
    rewrite Ha. simpl. rewrite fmap_imap.
    rewrite (imap_ext _ (fun i _ => Z.of_nat i)) by done.
    rewrite imap_seq_0. apply NoDup_fmap_2; [apply _|apply NoDup_seq].
  - destruct Hinv as (_ & _ & _ & Hsort & _).
    induction Hsort as [|x l Hs IH Hx]; [constructor|].
    constructor; [|done]. intros Hin. rewrite Forall_forall in Hx.
    apply Hx in Hin. lia.
  - destruct H3 as (resPart & _ & Hnd & _). simpl.
    by apply NoDup_app in Hnd as [Hnd _].
Qed.

Lemma paragraphs_wellTrimmed (t : jsstring) :
  Forall wellTrimmed (splitIntoParagraphs t).
Proof. apply Forall_forall. intros p. apply paragraph_wellTrimmed. Qed.

Lemma fromParagraphs_wellTrimmed (paras : list jsstring) (v : jsstring) :
  Forall wellTrimmed paras -> fromParagraphs paras v -> wellTrimmed v.
Proof.
  intros Hall [Hin|(j & Hj & ->)].
  - rewrite Forall_forall in Hall. by apply Hall.
  - apply join_wellTrimmed.
    + intros Hnil. apply (f_equal length) in Hnil.
      rewrite length_drop in Hnil. simpl in Hnil. lia.
    + by apply Forall_drop.
Qed.

Lemma structureMatch_values segs paras key v :
  length segs = length paras ->
  mapping (structureMatch segs paras (initial (Z.of_nat (length segs)))) !! key = Some v ->
  v ∈ paras.
Proof.
  intros Hlen Hv.
  destruct (structureMatch_spec segs paras (initial (Z.of_nat (length segs))))
    as ((_ & _ & Hvals & _) & _).
  apply Hvals in Hv as [Hv|(j & Hj & ->)]; [done|].
  apply get_elem_of. lia.
Qed.

(** C10, as amended.  For every input and both strategies a value stored in
    the mapping is a non-empty string without line feed and without
    whitespace at either end: a trimmed non-empty line of the translation
    (always so in the adaptive matcher), or, in the strict merge case, the
    lines from some index on joined by single spaces.  Of the newline
    characters only the line feed is excluded: a carriage return that no line
    feed follows stays inside its line. *)
Theorem mapped_values_well_trimmed (segs : list Segment) (translationText : jsstring) :
  map_Forall
    (fun _ v => wellTrimmed v /\ fromParagraphs (splitIntoParagraphs translationText) v)
    (mapping (Strict.matchTexts segs translationText))
  /\ map_Forall
       (fun _ v => wellTrimmed v /\ v ∈ splitIntoParagraphs translationText)
       (mapping (Adaptive.matchTexts segs translationText)).
Proof.
  set (paras := splitIntoParagraphs translationText).
  pose proof (paragraphs_wellTrimmed translationText) as Hall. fold paras in Hall.
  assert (forall v, fromParagraphs paras v -> wellTrimmed v /\ fromParagraphs paras v)
    as Hfrom.
  { intros v Hv. split; [by apply (fromParagraphs_wellTrimmed paras)|done]. }
  assert (forall v, v ∈ paras -> wellTrimmed v /\ v ∈ paras) as Hline.
  { intros v Hv. split; [|done]. rewrite Forall_forall in Hall. by apply Hall. }
  split; intros key v Hv.
  - apply Hfrom.
    destruct (strict_cases segs translationText) as [[Hlt Heq]|[[Hlt Heq]|[Hlt Heq]]];
      rewrite Heq in Hv; fold paras in Hv, Hlt.
    + left. by eapply structureMatch_values.
    + destruct (partial_spec segs paras
                  (updStats (setMethod "sequential-partial")
                     (initial (Z.of_nat (length segs)))))
        as ((_ & _ & Hvals & _) & _).
      apply Hvals in Hv as [Hv|(j & Hj & ->)]; [done|].
      left. apply get_elem_of. lia.
    + destruct (merge_spec segs paras
                  (updStats (setMethod "sequential-merge")
                     (initial (Z.of_nat (length segs)))))
        as ((_ & _ & Hvals & _) & _).
      simpl in Hv. apply Hvals in Hv as [Hv|(j & Hj & ->)]; [done|].
      unfold mergeValue. destruct (j <? Z.of_nat (length segs) - 1).
      * left. apply get_elem_of. lia.
      * right. exists (Z.to_nat j). split; [lia|done].
  - apply Hline.
    destruct (adaptive_cases segs translationText)
      as [[Hlen Heq]|[_ (Hinv & [[Hnil Heq]|[Hne (st3 & H3 & Heq)]])]];
      rewrite Heq in Hv.
    + by eapply structureMatch_values.
    + destruct Hinv as (_ & _ & _ & _ & _ & _ & _ & _ & _ & _ & _ & Hval).
      by apply (Hval key).
    + destruct H3 as (resPart & H3). repeat (destruct H3 as [_ H3]).
      by apply (H3 key).
Qed.

(** The splitter splits at line feeds only: a carriage return that no line
    feed follows stays inside its line. *)
Example lone_carriage_return :
  splitIntoParagraphs [97; CR; 98; CR; LF; 99] = [[97; CR; 98]; [99]].
Proof. reflexivity. Qed.

(** C10 as stated fails: the translation [a], carriage return, [b] is one
    line for the splitter, and both matchers store it, carriage return
    included, as the value of the segment. *)
Lemma newline_counterexample :
  mapping (Strict.matchTexts oneSegment [97; CR; 98]) !! 0 = Some [97; CR; 98]
  /\ mapping (Adaptive.matchTexts oneSegment [97; CR; 98]) !! 0 = Some [97; CR; 98]
  /\ wellTrimmed [97; CR; 98]
  /\ ~ claimedTrimmed [97; CR; 98].
Proof.
  split; [vm_compute; reflexivity|]. split; [vm_compute; reflexivity|]. split.
  - split; [done|]. split; [|split; intros c [= <-]; reflexivity].
    rewrite !elem_of_cons, elem_of_nil. intros [H|[H|[H|[]]]]; discriminate H.
  - intros (_ & H & _).
    apply Forall_cons in H as [_ H]. apply Forall_cons in H as [H _].
    discriminate H.
Qed.

Lemma structureMatch_identity segs paras :
  length segs = length paras -> NoDup (id <$> segs) ->
  identityResult segs paras (structureMatch segs paras (initial (Z.of_nat (length segs)))).
Proof.
  intros Hlen Hnd.
  destruct (structureMatch_spec segs paras (initial (Z.of_nat (length segs))))
    as ((Hmap & Hother & _ & Ha) & Hu & Hs).
  rewrite Nat2Z.id, firstn_all in Hother, Ha.
  unfold identityResult. rewrite Hs, Hu, Ha.
  split; [|by repeat split].
  intros i seg Hi. pose proof (lookup_lt_Some _ _ _ Hi) as Hlt.
  rewrite (Hmap Hnd i seg) by (done || lia).
  destruct (lookup_lt_is_Some_2 paras i) as [p Hp]; [lia|].
  by rewrite Hp, (get_lookup _ _ _ Hp).
Qed.

(** C2. When the number of non-empty trimmed lines of the translation equals
    the number of segments (whose ids are pairwise different), both matchers
    return the identity mapping in order: segment [i] maps to paragraph [i],
    [matched = total], [unmatched = 0], the method is "structure-1:1" and the
    unmatched list is empty. *)
Theorem tier1_identity (segs : list Segment) (translationText : jsstring) :
  length segs = length (splitIntoParagraphs translationText) ->
  NoDup (id <$> segs) ->
  identityResult segs (splitIntoParagraphs translationText)
    (Strict.matchTexts segs translationText)
  /\ identityResult segs (splitIntoParagraphs translationText)
       (Adaptive.matchTexts segs translationText).
Proof.
  intros Hlen Hnd. split.
  - destruct (strict_cases segs translationText) as [[_ ->]|[[Hlt _]|[Hlt _]]];
      [|lia|lia].
    by apply structureMatch_identity.
  - destruct (adaptive_cases segs translationText) as [[_ ->]|[Hne _]]; [|done].
    by apply structureMatch_identity.
Qed.

Lemma NoDup_example (l : list Z) : bool_decide (NoDup l) = true -> NoDup l.
Proof. apply bool_decide_eq_true_1. Qed.

Lemma tier1_identity_witness :
  identityResult helloSegments (splitIntoParagraphs helloTranslation)
    (Strict.matchTexts helloSegments helloTranslation)
  /\ identityResult helloSegments (splitIntoParagraphs helloTranslation)
       (Adaptive.matchTexts helloSegments helloTranslation).
Proof.
  apply (tier1_identity helloSegments helloTranslation).
  - vm_compute. reflexivity.
  - apply NoDup_example. vm_compute. reflexivity.
Defined.

(** The scenario of the specification, evaluated. *)
Example hello_mapping :
  mapping (Adaptive.matchTexts helloSegments helloTranslation)
  = <[0 := lit "Bonjour le monde"]>
      (<[1 := lit "Deuxi" ++ [232] ++ lit "me ligne"]> ∅)
  /\ mapping (Strict.matchTexts helloSegments helloTranslation)
     = mapping (Adaptive.matchTexts helloSegments helloTranslation).
Proof. split; vm_compute; reflexivity. Qed.

(** C3. The strict matcher, for segments with pairwise different ids.  With
    more segments than paragraphs the first paragraph-count segments map
    index for index and the others are returned unmatched; with more
    paragraphs than segments every segment but the last maps index for index,
    the last maps to the remaining paragraphs joined by single spaces, and
    [fuzzy] is the number of excess paragraphs. *)
Theorem strict_positional (segs : list Segment) (translationText : jsstring) :
  NoDup (id <$> segs) ->
  let paras := splitIntoParagraphs translationText in
  let r := Strict.matchTexts segs translationText in
  ((length paras < length segs)%nat -> partialResult segs paras r)
  /\ ((length segs < length paras)%nat -> mergeResult segs paras r).
Proof.
  intros Hnd paras r. split; intros Hlt.
  - destruct (strict_cases segs translationText) as [[Hl _]|[[_ Heq]|[Hl _]]];
      [fold paras in Hl; lia| |fold paras in Hl; lia].
    unfold r. rewrite Heq. fold paras.
    destruct (partial_spec segs paras
                (updStats (setMethod "sequential-partial")
                   (initial (Z.of_nat (length segs)))))
      as ((Hmap & Hother & _) & Hu & Hm & Huc & Hf & _).
    replace (Z.min (Z.of_nat (length segs)) (Z.of_nat (length paras)))
      with (Z.of_nat (length paras)) in * by lia.
    rewrite Nat2Z.id in Hother.
    unfold partialResult. rewrite Hu, Hm, Huc, Hf. simpl.
    split; [|split; [|repeat split; lia]].
    + intros i seg Hi Hip. rewrite (Hmap Hnd i seg) by (done || lia).
      destruct (lookup_lt_is_Some_2 paras i) as [p Hp]; [lia|].
      by rewrite Hp, (get_lookup _ _ _ Hp).
    + intros i seg Hi Hip. rewrite Hother; [done|].
      intros Hin. apply list_elem_of_fmap in Hin as (s' & Hid & Hs').
      apply list_elem_of_lookup in Hs' as [j Hj].
      apply lookup_take_Some in Hj as [Hj Hjl].
      assert (i = j); [|lia].
      eapply (NoDup_lookup _ _ _ _ Hnd); rewrite list_lookup_fmap.
      * by rewrite Hi.
      * rewrite Hj. simpl. by rewrite Hid.
  - destruct (strict_cases segs translationText) as [[Hl _]|[[Hl _]|[_ Heq]]];
      [fold paras in Hl; lia|fold paras in Hl; lia|].
    unfold r. rewrite Heq. fold paras.
    destruct (merge_spec segs paras
                (updStats (setMethod "sequential-merge")
                   (initial (Z.of_nat (length segs)))))
      as ((Hmap & _) & Hu & Hm & Huc & _).
    unfold mergeResult. simpl. rewrite Hu, Hm, Huc. simpl.
    split; [|split; [|repeat split; lia]].
    + intros i seg Hi Hip. rewrite (Hmap Hnd i seg) by (done || lia).
      unfold mergeValue.
      destruct (Z.ltb_spec (Z.of_nat i) (Z.of_nat (length segs) - 1)); [|lia].
      destruct (lookup_lt_is_Some_2 paras i) as [p Hp]; [lia|].
      by rewrite Hp, (get_lookup _ _ _ Hp).
    + intros seg Hlast. rewrite last_lookup in Hlast.
      pose proof (lookup_lt_Some _ _ _ Hlast) as Hl.
      rewrite (Hmap Hnd (Nat.pred (length segs)) seg) by (done || lia).
      unfold mergeValue.
      destruct (Z.ltb_spec (Z.of_nat (Nat.pred (length segs)))
                  (Z.of_nat (length segs) - 1)); [lia|].
      unfold slice. rewrite Nat2Z.id. do 3 f_equal. lia.
Qed.

Lemma strict_positional_witness :
  partialResult threeSegments (splitIntoParagraphs twoLines)
    (Strict.matchTexts threeSegments twoLines)
  /\ mergeResult threeSegments (splitIntoParagraphs fiveLines)
       (Strict.matchTexts threeSegments fiveLines).
Proof.
  split.
  - apply (strict_positional threeSegments twoLines).
    + apply NoDup_example. vm_compute. reflexivity.
    + vm_compute. lia.
  - apply (strict_positional threeSegments fiveLines).
    + apply NoDup_example. vm_compute. reflexivity.
    + vm_compute. lia.
Defined.

(** The scenario of the specification: three segments, five lines. *)
Example three_segments_five_lines :
  let r := Strict.matchTexts threeSegments fiveLines in
  mapping r !! 0 = Some (lit "un")
  /\ mapping r !! 1 = Some (lit "deux")
  /\ mapping r !! 2 = Some (lit "trois quatre cinq")
  /\ fuzzy (stats r) = 2.
Proof. repeat split; vm_compute; reflexivity. Qed.

Lemma sublist_same_length {A} (l1 l2 : list A) :
  l1 `sublist_of` l2 -> length l1 = length l2 -> l1 = l2.
Proof.
  induction 1 as [|x l1 l2 Hs IH|x l1 l2 Hs IH]; simpl; intros Hlen.
  - done.
  - f_equal. apply IH. lia.
  - apply sublist_length in Hs. lia.
Qed.

Lemma map_Forall_nil_empty (m : gmap Z jsstring) :
  map_Forall (fun _ v => v ∈ ([] : list jsstring)) m -> m = ∅.
Proof.
  intros H. apply map_empty. intros i.
  destruct (m !! i) as [v|] eqn:E; [|done].
  apply H in E. by apply elem_of_nil in E.
Qed.

(** No paragraph at all: the strict matcher. *)
Lemma strict_no_paragraphs segs translationText :
  splitIntoParagraphs translationText = [] ->
  allUnmatched segs (Strict.matchTexts segs translationText).
Proof.
  intros Hnil.
  destruct (strict_cases segs translationText) as [[Hl ->]|[[Hl ->]|[Hl _]]];
    rewrite Hnil in *; simpl in Hl; [| |lia].
  - destruct segs; [|done]. unfold allUnmatched. by vm_compute.
  - destruct (partial_spec segs []
                (updStats (setMethod "sequential-partial")
                   (initial (Z.of_nat (length segs)))))
      as ((_ & Hother & _) & Hu & Hm & Huc & Hf & _).
    simpl in *. change (Z.of_nat 0) with 0 in *.
    replace (Z.min (Z.of_nat (length segs)) 0) with 0 in * by lia.
    change (Z.to_nat 0) with O in *. rewrite take_0 in Hother.
    unfold allUnmatched. rewrite Hu, Hm, Huc, Hf.
    split; [|repeat split; lia].
    apply map_empty. intros i. rewrite Hother; [done|]. apply not_elem_of_nil.
Qed.

(** No paragraph at all: the adaptive matcher. *)
Lemma adaptive_no_paragraphs segs translationText :
  splitIntoParagraphs translationText = [] ->
  allUnmatched segs (Adaptive.matchTexts segs translationText).
Proof.
  intros Hnil.
  destruct (adaptive_cases segs translationText)
    as [[Hl ->]|[_ (Hinv & Hcases)]]; rewrite Hnil in *.
  - destruct segs; [|done]. unfold allUnmatched. by vm_compute.
  - destruct Hinv as (Ht & _ & Hall & _ & _ & Hseen & _ & Hm & Hu & _ & Hf & Hval).
    simpl in Ht.
    set (st2 := Adaptive.tier2 [] segs _) in *.
    assert (assigned (Adaptive.res st2) = []) as Hnone.
    { destruct (assigned (Adaptive.res st2)) as [|[s j] l]; [done|].
      simpl in Hall. apply Forall_cons in Hall as [Hj _]. lia. }
    rewrite Hnone in *. simpl in Hseen, Hm.
    apply map_Forall_nil_empty in Hval.
    destruct Hcases as [[Hnil2 ->]|[Hne (st3 & H3 & ->)]].
    + unfold allUnmatched. rewrite Hval, Hm, Hu, <- Hseen. repeat split; lia.
    + destruct H3 as (resPart & Ha & _ & _ & Hres & _ & Hstill & Hlen & Hm3 & Hu3
                      & _ & Hf3 & _ & Hval3).
      assert (resPart = []) as ->.
      { destruct resPart as [|[s j] l]; [done|].
        simpl in Hres. apply Forall_cons in Hres as [[Hj _] _]. simpl in Hj. lia. }
      simpl in *. apply map_Forall_nil_empty in Hval3.
      rewrite <- Hseen in *.
      unfold allUnmatched. simpl. rewrite Hval3, Hm3, Hu3, Hf3, Hm, Hu.
      split; [done|]. split; [by apply sublist_same_length|].
      repeat split; lia.
Qed.

(** C8, as amended.  [matchTexts] is a total function.  With an empty
    segment list both matchers map nothing, leave nothing unmatched and
    count no match and no unmatched segment (the adaptive one no fuzzy match
    either).  With a translation without non-empty line both map nothing and
    return every segment, in order, as unmatched: [matched] and [fuzzy] are
    zero and [unmatched] is the number of segments. *)
Theorem degenerate_inputs (segs : list Segment) (translationText : jsstring) :
  (emptyResult (Strict.matchTexts [] translationText)
   /\ emptyResult (Adaptive.matchTexts [] translationText)
   /\ fuzzy (stats (Adaptive.matchTexts [] translationText)) = 0)
  /\ (splitIntoParagraphs translationText = [] ->
      allUnmatched segs (Strict.matchTexts segs translationText)
      /\ allUnmatched segs (Adaptive.matchTexts segs translationText)).
Proof.
  split.
  - unfold Strict.matchTexts, Adaptive.matchTexts, emptyResult.
    destruct (splitIntoParagraphs translationText) as [|p ps]; [by vm_compute|].
    repeat split; reflexivity.
  - intros Hnil. split.
    + by apply strict_no_paragraphs.
    + by apply adaptive_no_paragraphs.
Qed.

Lemma degenerate_inputs_witness :
  allUnmatched oneSegment (Strict.matchTexts oneSegment (lit "  "))
  /\ allUnmatched oneSegment (Adaptive.matchTexts oneSegment (lit "  ")).
Proof.
  apply (degenerate_inputs oneSegment (lit "  ")). vm_compute. reflexivity.
Defined.

(** C8 as stated fails: one segment and an empty translation give one
    unmatched segment, in both matchers. *)
Lemma degenerate_counterexample :
  splitIntoParagraphs [] = []
  /\ ~ allZero (Strict.matchTexts oneSegment [])
  /\ ~ allZero (Adaptive.matchTexts oneSegment []).
Proof.
  split; [reflexivity|].
  split; intros (_ & _ & _ & _ & H); vm_compute in H; discriminate H.
Qed.

Lemma seq_strictly_sorted (j n : nat) : StronglySorted Z.lt (Z.of_nat <$> seq j n).
Proof.
  revert j. induction n as [|n IH]; intros j; simpl; constructor; [apply IH|].
  apply Forall_forall. intros x Hx. apply list_elem_of_fmap in Hx as (y & -> & Hy).
  apply elem_of_seq in Hy. lia.
Qed.

(** C5, as amended.  In the adaptive matcher the history of the [mapping.set]
    calls follows the order of the segments; the indices consumed by the
    sequential tiers (the structural match, or Tier 2) increase strictly along
    it; what Tier 3 adds afterwards are paragraphs Tier 2 skipped, each of an
    index smaller than the last one consumed sequentially. *)
Theorem sequential_order (segs : list Segment) (translationText : jsstring) :
  let r := Adaptive.matchTexts segs translationText in
  let seqPart := sequentialPart segs translationText in
  exists resPart : list (Segment * Z),
    assigned r = seqPart ++ resPart
    /\ StronglySorted Z.lt seqPart.*2
    /\ (assigned r).*1 `sublist_of` segs
    /\ Forall (fun k => exists k', last seqPart.*2 = Some k' /\ k < k') resPart.*2.
Proof.
  intros r seqPart. unfold r, seqPart, sequentialPart.
  destruct (adaptive_cases segs translationText)
    as [[Hlen Heq]|[Hne (Hinv & Hcases)]].
  - rewrite Heq. destruct (Z.eqb_spec (Z.of_nat (length segs))
      (Z.of_nat (length (splitIntoParagraphs translationText)))); [|lia].
    exists []. rewrite app_nil_r. split; [done|].
    destruct (structureMatch_spec segs (splitIntoParagraphs translationText)
                (initial (Z.of_nat (length segs)))) as ((_ & _ & _ & Ha) & _).
    rewrite Ha, Nat2Z.id, firstn_all. simpl.
    rewrite !fmap_imap.
    rewrite (imap_ext _ (fun i _ => Z.of_nat i)) by done.
    rewrite (imap_ext (λ n : nat, fst ∘ _) (fun _ s => s)) by done.
    rewrite imap_seq_0. split; [apply seq_strictly_sorted|split; [|constructor]].
    clear. induction segs as [|s l IH]; [done|]. simpl. by constructor.
  - destruct (Z.eqb_spec (Z.of_nat (length segs))
      (Z.of_nat (length (splitIntoParagraphs translationText)))); [lia|].
    cbv zeta in Hinv, Hcases.
    set (st2 := Adaptive.tier2 _ _ _) in *.
    destruct Hinv as ([Ht0 Ht1] & Hu & Hall & Hsort & Hlast & Hseen & Hdef & _).
    destruct Hcases as [[Hnil ->]|[Hnn (st3 & H3 & ->)]].
    + exists []. rewrite app_nil_r. repeat split; [done| |constructor].
      rewrite Hseen at 1. by apply sublist_inserts_r.
    + destruct H3 as (resPart & Ha & _ & _ & Hres & Hsub & _).
      exists resPart. simpl. rewrite Ha. split; [done|]. split; [done|]. split.
      * rewrite fmap_app. rewrite Hseen at 1. by apply sublist_app.
      * apply Hdef in Hnn.
        eapply Forall_impl; [exact Hres|]. intros j [Hj Hfresh]. simpl in *.
        destruct (last (assigned (Adaptive.res st2)).*2) as [kl|] eqn:Hkl; [|lia].
        exists kl. split; [done|].
        assert (j <> kl); [|lia].
        intros ->. apply Hfresh, Hu. by eapply last_Some_elem_of.
Qed.

(** C5 as stated fails: the first segment consumes paragraph 1, Tier 3 then
    gives the skipped paragraph 0 to the second segment. *)
Lemma order_counterexample :
  let r := Adaptive.matchTexts skippedSegments skippedTranslation in
  splitIntoParagraphs skippedTranslation = [lit "zzz"; lit "Total 42"]
  /\ mapping r !! 0 = Some (lit "Total 42")
  /\ mapping r !! 1 = Some (lit "zzz")
  /\ assigned r = [(segment 0 "Total 42", 1); (segment 1 "zzz", 0)]
  /\ ~ StronglySorted Z.le (assigned r).*2.
Proof.
  assert (assigned (Adaptive.matchTexts skippedSegments skippedTranslation)
          = [(segment 0 "Total 42", 1); (segment 1 "zzz", 0)]) as E.
  { vm_compute. reflexivity. }
  repeat split; try (vm_compute; reflexivity).
  rewrite E. simpl. intros H.
  apply StronglySorted_cons in H as [H _].
  apply Forall_cons in H as [H _]. lia.
Qed.

Section WindowFacts.

Import Adaptive.

Variable paras : list jsstring.
Variable used : gset Z.
Variable normSource : jsstring.
Variable t : Z.

Abbreviation scoreAt w := (candidateScore normSource (get_ paras (t + w)) w).

(** The loop never lowers the best score. *)
Lemma windowLoop_no_worse n w best x :
  PrimFloat.ltb (snd best) x = false ->
  PrimFloat.ltb (snd (windowLoop paras used normSource t n w best)) x = false.
Proof.
  revert w best. induction n as [|n IH]; intros w best Hx; simpl; [done|].
  destruct (Z.of_nat (length paras) <=? t + w); [done|].
  case_bool_decide; [by apply IH|].
  apply IH. destruct (PrimFloat.ltb (snd best) (scoreAt w)) eqn:E; [|done].
  simpl. by eapply ltb_chain.
Qed.

(** No unconsumed candidate of the window beats the result. *)
Lemma windowLoop_best n w0 best w :
  w0 <= w < w0 + Z.of_nat n ->
  t + w < Z.of_nat (length paras) ->
  t + w ∉ used ->
  PrimFloat.ltb (snd (windowLoop paras used normSource t n w0 best)) (scoreAt w) = false.
Proof.
  revert w0 best. induction n as [|n IH]; intros w0 best Hw Hlen Hfresh; [lia|].
  simpl. destruct (Z.leb_spec (Z.of_nat (length paras)) (t + w0)); [lia|].
  destruct (decide (w = w0)) as [->|Hne].
  - rewrite bool_decide_eq_false_2 by done.
    apply windowLoop_no_worse.
    destruct (PrimFloat.ltb (snd best) (scoreAt w0)) eqn:E; [|done].
    simpl. apply ltb_irrefl.
  - case_bool_decide; apply IH; try done; lia.
Qed.

End WindowFacts.

(** C7, as amended.  The score of a window candidate is the weighted sum of
    the anchor overlap (weight 0.4), the position bonus [1 - 0.1 w] (weight
    0.3) and the length bonus (weight 0.3), the length bonus being 0.3 times
    the ratio of the shorter to the longer normalized length when that ratio
    exceeds 0.3, and zero otherwise.  The window loop returns no candidate or
    an unconsumed candidate of the window with its score, which no unconsumed
    candidate of the window beats; it is accepted when its score exceeds 0.2,
    and counted fuzzy when the score is below 0.6. *)
Theorem window_scoring (paras : list jsstring) (st : Adaptive.T2) (segment : Segment) :
  let normSource := Adaptive.normalize (text segment) in
  let best := bestOf paras st segment in
  (forall candidate w,
     Adaptive.candidateScore normSource candidate w
     = weightedScore normSource candidate w)
  /\ (best = (-1, 0%float)
      \/ (Adaptive.tIdx st <= fst best < Adaptive.tIdx st + Z.of_nat (windowOf paras st)
          /\ fst best < Z.of_nat (length paras)
          /\ (fst best ∉ Adaptive.usedTranslations st)
          /\ snd best
             = Adaptive.candidateScore normSource (get_ paras (fst best))
                 (fst best - Adaptive.tIdx st)))
  /\ (forall w,
        0 <= w < Z.of_nat (windowOf paras st) ->
        Adaptive.tIdx st + w < Z.of_nat (length paras) ->
        Adaptive.tIdx st + w ∉ Adaptive.usedTranslations st ->
        PrimFloat.ltb (snd best)
          (Adaptive.candidateScore normSource (get_ paras (Adaptive.tIdx st + w)) w)
        = false)
  /\ (0 <= fst best ->
      PrimFloat.ltb 0.2 (snd best) = true ->
      Adaptive.tier2Step paras st segment
      = accepted paras st segment (fst best) (snd best)).
Proof.
  intros normSource best. split; [done|]. split; [|split].
  - pose proof (windowLoop_range paras (Adaptive.usedTranslations st) normSource
                  (Adaptive.tIdx st) (windowOf paras st) 0 (-1, 0%float)) as Hr.
    cbv zeta in Hr. fold (bestOf paras st segment) in Hr. fold best in Hr.
    destruct Hr as [Hr|Hr]; [by left|right].
    rewrite Z.add_0_r in Hr. exact Hr.
  - intros w Hw Hlen Hfresh. apply windowLoop_best; [lia|done|done].
  - intros Hpos Hacc. unfold Adaptive.tier2Step.
    fold (windowOf paras st). fold (bestOf paras st segment). fold best.
    destruct best as [bestMatch bestScore]. simpl in *.
    destruct (Z.leb_spec 0 bestMatch); [|lia]. rewrite Hacc. done.
Qed.

Lemma window_scoring_witness :
  let paras := splitIntoParagraphs skippedTranslation in
  let st := Adaptive.mkT2 (initial 3) 0 ∅ in
  let seg := segment 0 "Total 42" in
  PrimFloat.ltb (snd (bestOf paras st seg))
    (Adaptive.candidateScore (Adaptive.normalize (text seg)) (get_ paras (0 + 0)) 0)
  = false
  /\ Adaptive.tier2Step paras st seg
     = accepted paras st seg (fst (bestOf paras st seg)) (snd (bestOf paras st seg)).
Proof.
  intros paras st seg.
  destruct (window_scoring paras st seg) as (_ & _ & Hbest & Hacc).
  split.
  - apply (Hbest 0).
    + split; [lia|]. vm_compute. reflexivity.
    + vm_compute. reflexivity.
    + simpl. apply not_elem_of_empty.
  - apply Hacc.
    + vm_compute. discriminate.
    + vm_compute. reflexivity.
Defined.

(** C7 as stated fails: with the ratio itself as bonus the score of a
    candidate of the same length as the source, in slot 0 and without anchors,
    would be 0.6 and the match not fuzzy; the code scores it 0.39, a fuzzy
    match. *)
Lemma score_counterexample :
  let s := Adaptive.normalize (lit "abc") in
  PrimFloat.eqb (Adaptive.candidateScore s (lit "xyz") 0) (claimedScore s (lit "xyz") 0)
  = false
  /\ PrimFloat.ltb (Adaptive.candidateScore s (lit "xyz") 0) 0.6 = true
  /\ PrimFloat.ltb (claimedScore s (lit "xyz") 0) 0.6 = false.
Proof. repeat split; vm_compute; reflexivity. Qed.

Lemma textRunLengths_nonempty (k : Dom.Kind) (runs : list Dom.Node) (r : Dom.Node) :
  r ∈ runs -> Dom.runText k r <> [] -> textRunLengths k runs <> [].
Proof.
  intros Hin Hne Hnil.
  assert (In (length (Dom.runText k r)) (textRunLengths k runs)) as Hl.
  { unfold textRunLengths. apply filter_In. split.
    - apply in_map_iff. exists r. split; [done|]. by apply list_elem_of_In.
    - destruct (Dom.runText k r); [done|]. done. }
  rewrite Hnil in Hl. destruct Hl.
Qed.

(** C1. For a paragraph with at least one run that carries non-empty text and
    every replacement text, the flattened text after the replacement is the
    replacement text: the chunks handed to the runs that carried text
    concatenate to it, and when exactly one run carried text the single chunk
    is the whole text. *)
Theorem rewrite_flattened_text (k : Dom.Kind) (p : Dom.Node) (newText : jsstring) :
  (exists r, r ∈ Dom.getRuns k p /\ Dom.runText k r <> []) ->
  Dom.extractText k (Rebuild.replaceText k p newText) = newText
  /\ List.concat
       (Rebuild.chunksFor (originalLength k p) (textRunLengths k (Dom.getRuns k p))
          newText)
     = newText
  /\ (length (textRunLengths k (Dom.getRuns k p)) = 1%nat ->
      Rebuild.chunksFor (originalLength k p) (textRunLengths k (Dom.getRuns k p))
        newText = [newText]).
Proof.
  intros (r & Hin & Hne).
  pose proof (textRunLengths_nonempty k _ r Hin Hne) as Hlens.
  split; [by apply replaceText_flat|]. split; [by apply chunksFor_concat|].
  destruct (textRunLengths k (Dom.getRuns k p)) as [|l [|l' ls]]; done.
Qed.

Lemma rewrite_flattened_text_witness :
  let newText := lit "Bonjour le tres grand monde  " in
  Dom.extractText Dom.Docx (Rebuild.replaceParagraphText mixedParagraph newText)
  = newText
  /\ List.concat
       (Rebuild.chunksFor (originalLength Dom.Docx mixedParagraph)
          (textRunLengths Dom.Docx (Dom.getRuns Dom.Docx mixedParagraph)) newText)
     = newText
  /\ (length (textRunLengths Dom.Docx (Dom.getRuns Dom.Docx mixedParagraph)) = 1%nat ->
      Rebuild.chunksFor (originalLength Dom.Docx mixedParagraph)
        (textRunLengths Dom.Docx (Dom.getRuns Dom.Docx mixedParagraph)) newText
      = [newText]).
Proof.
  intros newText.
  apply (rewrite_flattened_text Dom.Docx mixedParagraph newText).
  exists (run [textNode "Hello "]). split.
  - simpl. left.
  - vm_compute. discriminate.
Defined.

(** The chunks of the example: the formatting changes fall between words. *)
Example mixed_paragraph_chunks :
  Rebuild.chunksFor (originalLength Dom.Docx mixedParagraph)
    (textRunLengths Dom.Docx (Dom.getRuns Dom.Docx mixedParagraph))
    (lit "Bonjour le tres grand monde  ")
  = [lit "Bonjour le"; lit " tres grand"; lit " monde  "].
Proof. vm_compute. reflexivity. Qed.

(** C9, as amended.  The content paragraph of index [i] of a file is paired
    with the segment of index [i] of that file.  When that segment has no
    mapping entry, every run of the paragraph carries the red highlight after
    the rewrite.  When it has one, the paragraph's text is replaced and the
    flag of no run changes: a run carries the highlight after the rewrite
    exactly when it carried it in the source document. *)
Theorem unmatched_flag (k : Dom.Kind) (m : gmap Z jsstring)
    (fileSegments : list Segment) (allParas : list Dom.Node) (i : nat)
    (p : Dom.Node) (seg : Segment) :
  List.filter (Dom.isContent k) allParas !! i = Some p ->
  fileSegments !! i = Some seg ->
  (m !! id seg = None ->
   Rebuild.rewriteFile k m fileSegments allParas !! i
   = Some (Rebuild.highlightRed k p)
   /\ Forall (fun r => Rebuild.carriesFlag k r = true)
        (Dom.getRuns k (Rebuild.highlightRed k p)))
  /\ (forall translatedText, m !! id seg = Some translatedText ->
      Rebuild.rewriteFile k m fileSegments allParas !! i
      = Some (Rebuild.replaceText k p translatedText)
      /\ List.map (Rebuild.carriesFlag k)
           (Dom.getRuns k (Rebuild.replaceText k p translatedText))
         = List.map (Rebuild.carriesFlag k) (Dom.getRuns k p)).
Proof.
  intros Hp Hseg.
  pose proof (rewriteFile_spec k m fileSegments allParas i p Hp) as Hl.
  rewrite Hseg in Hl. split.
  - intros Hm. rewrite Hm in Hl. split; [done|]. apply highlightRed_flags.
  - intros translatedText Hm. rewrite Hm in Hl. split; [done|].
    apply replaceText_keeps.
Qed.

Lemma unmatched_flag_witness :
  (Rebuild.rewriteFile Dom.Docx ∅ [mixedSegment] [emptyParagraph; mixedParagraph]
     !! 0%nat
   = Some (Rebuild.highlightRed Dom.Docx mixedParagraph)
   /\ Forall (fun r => Rebuild.carriesFlag Dom.Docx r = true)
        (Dom.getRuns Dom.Docx (Rebuild.highlightRed Dom.Docx mixedParagraph)))
  /\ (Rebuild.rewriteFile Dom.Docx flaggedMapping [flaggedSegment] [flaggedParagraph]
        !! 0%nat
      = Some (Rebuild.replaceText Dom.Docx flaggedParagraph (lit "Bonjour"))
      /\ List.map (Rebuild.carriesFlag Dom.Docx)
           (Dom.getRuns Dom.Docx
              (Rebuild.replaceText Dom.Docx flaggedParagraph (lit "Bonjour")))
         = List.map (Rebuild.carriesFlag Dom.Docx) (Dom.getRuns Dom.Docx flaggedParagraph)).
Proof.
  split.
  - apply (unmatched_flag Dom.Docx ∅ [mixedSegment] [emptyParagraph; mixedParagraph] 0
             mixedParagraph mixedSegment).
    + vm_compute. reflexivity.
    + reflexivity.
    + reflexivity.
  - apply (unmatched_flag Dom.Docx flaggedMapping [flaggedSegment] [flaggedParagraph] 0
             flaggedParagraph flaggedSegment).
    + vm_compute. reflexivity.
    + reflexivity.
    + vm_compute. reflexivity.
Defined.

(** C9 as stated fails for a matched paragraph: a run that is highlighted in
    red in the source document is still highlighted after its text has been
    replaced. *)
Lemma flag_counterexample :
  flaggedMapping !! id flaggedSegment = Some (lit "Bonjour")
  /\ List.map (Rebuild.carriesFlag Dom.Docx)
       (Dom.getRuns Dom.Docx
          (Rebuild.replaceParagraphText flaggedParagraph (lit "Bonjour")))
     = [true]
  /\ ~ flagClaim Dom.Docx flaggedMapping [flaggedSegment] [flaggedParagraph] 0.
Proof.
  split; [vm_compute; reflexivity|]. split; [vm_compute; reflexivity|].
  intros H.
  destruct (H flaggedParagraph flaggedSegment
              (Rebuild.replaceText Dom.Docx flaggedParagraph (lit "Bonjour")))
    as [_ Hflag]; try (vm_compute; reflexivity).
  assert (is_Some (flaggedMapping !! id flaggedSegment)) as Hsome.
  { exists (lit "Bonjour"). vm_compute. reflexivity. }
  apply Hflag in Hsome. vm_compute in Hsome.
  apply Forall_cons in Hsome as [Hsome _]. discriminate Hsome.
Qed.

(** * Further properties *)

(** ** The parsers *)

Section ParserFacts.

Import Dom Parse.

Variable k : Kind.

Lemma numbered_cons (n : Z) (pq : jsstring * Node) (l : list (jsstring * Node)) :
  numbered k n (pq :: l)
  = mkSegment n (extractText k (snd pq)) (fst pq) :: numbered k (n + 1) l.
Proof.
  unfold numbered. simpl. rewrite Z.add_0_r. f_equal.
  apply imap_ext. intros i x _. simpl. f_equal. lia.
Qed.

Lemma numbered_app (n : Z) (l1 l2 : list (jsstring * Node)) :
  numbered k n (l1 ++ l2)
  = numbered k n l1 ++ numbered k (n + Z.of_nat (length l1)) l2.
Proof.
  revert n. induction l1 as [|pq l1 IH]; intros n.
  - simpl. by rewrite Z.add_0_r.
  - rewrite <- app_comm_cons, !numbered_cons, IH, <- app_comm_cons, length_cons.
    do 3 f_equal. lia.
Qed.

Lemma numbered_length (n : Z) (l : list (jsstring * Node)) :
  length (numbered k n l) = length l.
Proof. unfold numbered. by rewrite length_imap. Qed.

Lemma numbered_lookup (n : Z) (l : list (jsstring * Node)) (i : nat) (seg : Segment) :
  numbered k n l !! i = Some seg ->
  exists pq, l !! i = Some pq
    /\ seg = mkSegment (n + Z.of_nat i) (extractText k (snd pq)) (fst pq).
Proof.
  unfold numbered. rewrite list_lookup_imap.
  destruct (l !! i) as [pq|]; simpl; [|done].
  intros [= <-]. by exists pq.
Qed.

(** The innermost loop, on the paragraphs of one container. *)
Lemma pushSegment_fold (path : jsstring) (paras : list Node) (acc : list Segment) (n : Z) :
  fold_left (pushSegment k path) paras (acc, n)
  = (acc ++ numbered k n (List.map (pair path) (List.filter (isContent k) paras)),
     n + Z.of_nat (length (List.filter (isContent k) paras))).
Proof.
  revert acc n. induction paras as [|p paras IH]; intros acc n; simpl.
  - by rewrite app_nil_r, Z.add_0_r.
  - unfold pushSegment at 2. simpl. destruct (isContent k p); simpl.
    + rewrite IH, numbered_cons, <- app_assoc. simpl. f_equal. lia.
    + apply IH.
Qed.

Lemma fold_left_concat {A B} (f : A -> B -> A) (ls : list (list B)) (a : A) :
  fold_left (fun a l => fold_left f l a) ls a = fold_left f (List.concat ls) a.
Proof.
  revert a. induction ls as [|l ls IH]; intros a; simpl; [done|].
  by rewrite fold_left_app, IH.
Qed.

(** The loop over the shapes of a slide visits the paragraphs
    [fileParagraphs] lists. *)
Lemma shapes_fold (path : jsstring) (doc : Node) (st : list Segment * Z) :
  fold_left (fun st shape =>
     match getPptxTxBody shape with
     | Some txBody => fold_left (pushSegment Pptx path) (getPptxParagraphs txBody) st
     | None => st
     end) (getPptxTextShapes doc) st
  = fold_left (pushSegment Pptx path) (fileParagraphs Pptx doc) st.
Proof.
  unfold fileParagraphs. rewrite <- fold_left_concat.
  generalize (getPptxTextShapes doc). intros shapes. revert st.
  induction shapes as [|s shapes IH]; intros st; simpl; [done|].
  rewrite <- IH. by destruct (getPptxTxBody s).
Qed.

Lemma file_fold (file : jsstring * Node) (st : list Segment * Z) :
  fold_left (pushSegment k (fst file)) (fileParagraphs k (snd file)) st
  = (fst st ++ numbered k (snd st) (fileContent k file),
     snd st + Z.of_nat (length (fileContent k file))).
Proof.
  destruct st as [acc n]. rewrite pushSegment_fold. unfold fileContent, contentParagraphs.
  by rewrite length_map.
Qed.

Lemma files_fold (files : list (jsstring * Node)) (st : list Segment * Z) :
  fold_left (fun st file =>
     fold_left (pushSegment k (fst file)) (fileParagraphs k (snd file)) st) files st
  = (fst st ++ numbered k (snd st) (List.concat (List.map (fileContent k) files)),
     snd st + Z.of_nat (length (List.concat (List.map (fileContent k) files)))).
Proof.
  revert st. induction files as [|file files IH]; intros [acc n]; simpl.
  - by rewrite app_nil_r, Z.add_0_r.
  - rewrite file_fold, IH. simpl.
    rewrite numbered_app, length_app, <- app_assoc. f_equal. lia.
Qed.

End ParserFacts.

Lemma fold_left_same {A B} (f g : A -> B -> A) (l : list B) (a : A) :
  (forall a x, f a x = g a x) -> fold_left f l a = fold_left g l a.
Proof.
  intros H. revert a. induction l as [|x l IH]; intros a; simpl; [done|].
  by rewrite H, IH.
Qed.

(** Both parsers number the content paragraphs of the files, in order. *)
Lemma parse_numbered (k : Dom.Kind) (xmlFiles : list (jsstring * Dom.Node)) :
  Parse.parse k xmlFiles
  = numbered k 0 (List.concat (List.map (fileContent k) xmlFiles)).
Proof.
  destruct k; unfold Parse.parse, Parse.parseDocx, Parse.parsePptx.
  - change (fun st file =>
              fold_left (Parse.pushSegment Dom.Docx (fst file))
                (Dom.getAllParagraphs (snd file)) st)
      with (fun st (file : jsstring * Dom.Node) =>
              fold_left (Parse.pushSegment Dom.Docx (fst file))
                (Dom.fileParagraphs Dom.Docx (snd file)) st).
    by rewrite files_fold.
  - rewrite (fold_left_same _ (fun st (file : jsstring * Dom.Node) =>
              fold_left (Parse.pushSegment Dom.Pptx (fst file))
                (Dom.fileParagraphs Dom.Pptx (snd file)) st)).
    + by rewrite files_fold.
    + intros st file. apply shapes_fold.
Qed.

Lemma numbered_ids (k : Dom.Kind) (n : Z) (l : list (jsstring * Dom.Node)) :
  id <$> numbered k n l = (fun i => n + Z.of_nat i) <$> seq 0 (length l).
Proof.
  revert n. induction l as [|pq l IH]; intros n; [done|].
  rewrite numbered_cons. simpl. rewrite IH, Z.add_0_r. f_equal.
  rewrite <- fmap_S_seq, <- list_fmap_compose. apply list_fmap_ext.
  intros i x _. simpl. lia.
Qed.

Lemma parse_ids (k : Dom.Kind) (xmlFiles : list (jsstring * Dom.Node)) :
  NoDup (id <$> Parse.parse k xmlFiles).
Proof.
  rewrite parse_numbered, numbered_ids.
  apply NoDup_fmap_2; [|apply NoDup_seq]. intros i j. lia.
Qed.

Lemma fileContent_content (k : Dom.Kind) (files : list (jsstring * Dom.Node))
    (pq : jsstring * Dom.Node) :
  pq ∈ List.concat (List.map (fileContent k) files) -> Dom.isContent k (snd pq) = true.
Proof.
  rewrite list_elem_of_In, in_concat. intros (l & Hl & Hin).
  apply in_map_iff in Hl as (file & <- & _).
  unfold fileContent, contentParagraphs in Hin.
  apply in_map_iff in Hin as (p & <- & Hp). by apply filter_In in Hp as [_ ?].
Qed.

(** ** Parsed segments, file by file *)

Section FileSegments.

Import Dom Parse.

Variable k : Kind.

Lemma segmentsOfFile_app (path : jsstring) (l1 l2 : list Segment) :
  segmentsOfFile path (l1 ++ l2) = segmentsOfFile path l1 ++ segmentsOfFile path l2.
Proof. apply List.filter_app. Qed.

Lemma segmentsOfFile_other (path : jsstring) (n : Z) (l : list (jsstring * Node)) :
  Forall (fun pq => fst pq <> path) l -> segmentsOfFile path (numbered k n l) = [].
Proof.
  revert n. induction l as [|pq l IH]; intros n Hall; [done|].
  apply Forall_cons in Hall as [Hpq Hl].
  rewrite numbered_cons. unfold segmentsOfFile. simpl. unfold strEq.
  rewrite bool_decide_eq_false_2 by done. by apply IH.
Qed.

Lemma segmentsOfFile_same (path : jsstring) (n : Z) (l : list (jsstring * Node)) :
  Forall (fun pq => fst pq = path) l -> segmentsOfFile path (numbered k n l) = numbered k n l.
Proof.
  revert n. induction l as [|pq l IH]; intros n Hall; [done|].
  apply Forall_cons in Hall as [Hpq Hl].
  rewrite numbered_cons. unfold segmentsOfFile. simpl. unfold strEq.
  rewrite bool_decide_eq_true_2 by done. f_equal. by apply IH.
Qed.

Lemma fileContent_path (file : jsstring * Node) :
  Forall (fun pq => fst pq = fst file) (fileContent k file).
Proof.
  unfold fileContent. apply Forall_forall. intros pq Hin.
  apply list_elem_of_In, in_map_iff in Hin as (p & <- & _). done.
Qed.

Lemma filesContent_path (files : list (jsstring * Node)) (path : jsstring) :
  path ∉ files.*1 ->
  Forall (fun pq => fst pq <> path) (List.concat (List.map (fileContent k) files)).
Proof.
  intros Hnot. apply Forall_forall. intros pq Hin.
  apply list_elem_of_In, in_concat in Hin as (l & Hl & Hin).
  apply in_map_iff in Hl as (file & <- & Hfile).
  pose proof (fileContent_path file) as Hall. rewrite Forall_forall in Hall.
  apply list_elem_of_In, Hall in Hin. rewrite Hin. intros <-.
  apply Hnot. apply list_elem_of_fmap. exists file. split; [done|]. by apply list_elem_of_In.
Qed.

(** The number of content paragraphs in the files before a given one: the id
    of the first segment of that file. *)
Lemma segmentsOfFile_parse (pre post : list (jsstring * Node)) (file : jsstring * Node) :
  NoDup (pre ++ file :: post).*1 ->
  segmentsOfFile (fst file) (parse k (pre ++ file :: post))
  = numbered k (Z.of_nat (length (List.concat (List.map (fileContent k) pre))))
      (fileContent k file).
Proof.
  intros Hnd. rewrite fmap_app, fmap_cons in Hnd.
  apply NoDup_app in Hnd as (_ & Hpre & Hnd).
  apply NoDup_cons in Hnd as [Hpost _].
  rewrite parse_numbered, List.map_app, concat_app. simpl.
  rewrite !numbered_app, !segmentsOfFile_app.
  rewrite segmentsOfFile_other, segmentsOfFile_same, segmentsOfFile_other.
  - simpl. by rewrite app_nil_r.
  - by apply filesContent_path.
  - apply fileContent_path.
  - apply filesContent_path. intros Hin. apply (Hpre _ Hin). left.
Qed.

End FileSegments.

(** ** The rewrite of a parsed document *)

Section RebuildParsed.

Import Dom Rebuild.

Variable k : Kind.
Variable m : gmap Z jsstring.

Lemma rewriteFile_length (segs : list Segment) (allParas : list Node) :
  length (rewriteFile k m segs allParas) = length (List.filter (isContent k) allParas).
Proof.
  unfold rewriteFile. cbv zeta.
  set (cp := List.filter (isContent k) allParas).
  apply (forLoop_ind (fun _ st => length st = length cp)); [lia|done|].
  intros i st _ Hlen. unfold rewriteBody.
  destruct (at_ segs i); [|done]. destruct (at_ st i); [|done].
  by rewrite length_insert.
Qed.

(** With one segment for each content paragraph, the loop of a file rewrites
    every content paragraph according to its segment. *)
Lemma rewriteFile_zip (segs : list Segment) (allParas : list Node) :
  length segs = length (List.filter (isContent k) allParas) ->
  rewriteFile k m segs allParas
  = zip_with (rewritten k m) segs (List.filter (isContent k) allParas).
Proof.
  intros Hlen. apply list_eq. intros i. rewrite lookup_zip_with.
  destruct (List.filter (isContent k) allParas !! i) as [q|] eqn:Hq.
  - rewrite (rewriteFile_spec k m segs allParas i q Hq).
    destruct (lookup_lt_is_Some_2 segs i) as [seg Hseg].
    { apply lookup_lt_Some in Hq. lia. }
    rewrite Hseg. done.
  - rewrite lookup_ge_None_2.
    + by destruct (segs !! i).
    + rewrite rewriteFile_length. by apply lookup_ge_None_1.
Qed.

Lemma rebuild_perFile (files : list (jsstring * Node)) (segs : list Segment) :
  rebuild k files segs m = List.map (perFile k m segs) files.
Proof. unfold rebuild. apply map_ext. by intros [path doc]. Qed.

(** What [rebuild] makes of a file of a parsed document. *)
Lemma perFile_parsed (pre post : list (jsstring * Node)) (file : jsstring * Node) :
  NoDup (pre ++ file :: post).*1 ->
  let segs := numbered k (Z.of_nat (length (List.concat (List.map (fileContent k) pre))))
                (fileContent k file) in
  segmentsOfFile (fst file) (Parse.parse k (pre ++ file :: post)) = segs
  /\ length segs = length (contentParagraphs k (snd file))
  /\ perFile k m (Parse.parse k (pre ++ file :: post)) file
     = (fst file, zip_with (rewritten k m) segs (contentParagraphs k (snd file))).
Proof.
  intros Hnd segs.
  pose proof (segmentsOfFile_parse k pre post file Hnd) as Hseg. fold segs in Hseg.
  assert (length segs = length (contentParagraphs k (snd file))) as Hlen.
  { unfold segs. rewrite numbered_length. unfold fileContent. by rewrite length_map. }
  split; [done|]. split; [done|].
  unfold perFile. rewrite Hseg. f_equal.
  destruct (Nat.eqb_spec (length segs) 0) as [H0|H0].
  - rewrite H0 in Hlen. destruct segs; [|done].
    destruct (contentParagraphs k (snd file)); done.
  - by apply rewriteFile_zip.
Qed.

(** Highlighting leaves the text nodes alone. *)
Lemma flagFirstRPr_textNodes (cs : list Node) :
  List.filter (isElem (runNs k) "t") (flagFirstRPr k cs)
  = List.filter (isElem (runNs k) "t") cs.
Proof.
  induction cs as [|c cs IH]; [done|]. simpl.
  destruct (isElem (runNs k) "rPr" c) eqn:Hc.
  - destruct (isElem_Elem _ _ _ Hc) as (attrs & ps & ->).
    destruct k; done.
  - simpl. by rewrite IH.
Qed.

Lemma highlightRun_text (run : Node) : runText k (highlightRun k run) = runText k run.
Proof.
  destruct run as [s|ns name attrs cs]; [done|].
  unfold runText, getTextNodes. simpl. rewrite flagFirstRPr_textNodes.
  destruct (existsb (isElem (runNs k) "rPr") cs); [done|]. by destruct k.
Qed.

Lemma highlightRed_text (p : Node) : extractText k (highlightRed k p) = extractText k p.
Proof.
  unfold extractText. rewrite getRuns_highlightRed, List.map_map.
  f_equal. apply map_ext. apply highlightRun_text.
Qed.

(** A content paragraph has a run that carries text. *)
Lemma content_textRuns (q : Node) :
  isContent k q = true -> textRunLengths k (getRuns k q) <> [].
Proof.
  unfold isContent, extractText, textRunLengths. intros Hc Hnil.
  assert (List.concat (List.map (runText k) (getRuns k q)) = []) as E.
  { clear Hc. induction (getRuns k q) as [|r rs IH]; [done|]. simpl in *.
    destruct (runText k r) as [|c s]; simpl in *; [by apply IH|done]. }
  rewrite E in Hc. done.
Qed.

Lemma rewritten_text (seg : Segment) (q : Node) :
  isContent k q = true ->
  extractText k (rewritten k m seg q) = default (extractText k q) (m !! id seg).
Proof.
  intros Hc. unfold rewritten. destruct (m !! id seg) as [t|]; simpl.
  - apply replaceText_flat. by apply content_textRuns.
  - apply highlightRed_text.
Qed.

Lemma contentParagraphs_content (doc : Node) :
  Forall (fun q => isContent k q = true) (contentParagraphs k doc).
Proof.
  apply Forall_forall. intros q Hq. unfold contentParagraphs in Hq.
  by apply list_elem_of_In, filter_In in Hq as [_ ?].
Qed.

Lemma numbered_zip_app {B} (f : Segment -> Node -> B) (n : Z)
    (l1 l2 : list (jsstring * Node)) :
  zip_with f (numbered k n (l1 ++ l2)) (snd <$> (l1 ++ l2))
  = zip_with f (numbered k n l1) (snd <$> l1)
    ++ zip_with f (numbered k (n + Z.of_nat (length l1)) l2) (snd <$> l2).
Proof.
  rewrite numbered_app, fmap_app. apply zip_with_app.
  by rewrite numbered_length, length_fmap.
Qed.

Lemma fileContent_snd (file : jsstring * Node) :
  snd <$> fileContent k file = contentParagraphs k (snd file).
Proof.
  unfold fileContent. change (List.map ?f ?l) with (f <$> l).
  rewrite <- list_fmap_compose. apply list_fmap_id.
Qed.

(** The paragraphs of the files from a given one on, after the rewrite. *)
Lemma paragraphs_suffix (suf pre : list (jsstring * Node)) :
  NoDup (pre ++ suf).*1 ->
  paragraphsOf (List.map (perFile k m (Parse.parse k (pre ++ suf))) suf)
  = zip_with (rewritten k m)
      (numbered k (Z.of_nat (length (List.concat (List.map (fileContent k) pre))))
         (List.concat (List.map (fileContent k) suf)))
      (snd <$> List.concat (List.map (fileContent k) suf)).
Proof.
  revert pre. induction suf as [|file post IH]; intros pre Hnd; [done|].
  destruct (perFile_parsed pre post file Hnd) as (_ & _ & Hfile).
  unfold paragraphsOf. rewrite !List.map_cons, !List.concat_cons, Hfile.
  cbn [snd]. rewrite numbered_zip_app, fileContent_snd. f_equal.
  specialize (IH (pre ++ [file])). rewrite <- app_assoc in IH.
  change ([file] ++ post) with (file :: post) in IH.
  unfold paragraphsOf in IH. rewrite IH by done.
  rewrite List.map_app, concat_app, length_app. cbn [List.map List.concat].
  rewrite app_nil_r. do 3 f_equal. lia.
Qed.

(** All the content paragraphs of a parsed document, after the rewrite: each
    rewritten according to the segment the parser made of it. *)
Lemma paragraphs_rebuild (files : list (jsstring * Node)) :
  NoDup files.*1 ->
  paragraphsOf (rebuild k files (Parse.parse k files) m)
  = zip_with (rewritten k m) (Parse.parse k files)
      (snd <$> List.concat (List.map (fileContent k) files)).
Proof.
  intros Hnd. rewrite rebuild_perFile.
  pose proof (paragraphs_suffix files [] Hnd) as H. simpl in H.
  by rewrite H, parse_numbered.
Qed.

Lemma flattened_paragraphs (out : list (jsstring * list Node)) :
  flattened k out = List.map (extractText k) (paragraphsOf out).
Proof.
  unfold flattened, paragraphsOf. rewrite concat_map, List.map_map. done.
Qed.

Lemma numbered_texts (n : Z) (l : list (jsstring * Node)) :
  Forall (fun pq => isContent k (snd pq) = true) l ->
  List.map (extractText k) (zip_with (rewritten k m) (numbered k n l) (snd <$> l))
  = List.map (textAfter m) (numbered k n l).
Proof.
  revert n. induction l as [|pq l IH]; intros n Hall; [done|].
  apply Forall_cons in Hall as [Hq Hall].
  rewrite fmap_cons, numbered_cons. cbn [zip_with List.map]. rewrite IH by done.
  rewrite rewritten_text by done. done.
Qed.

Lemma flattened_rebuild (files : list (jsstring * Node)) :
  NoDup files.*1 ->
  flattened k (rebuild k files (Parse.parse k files) m)
  = List.map (textAfter m) (Parse.parse k files).
Proof.
  intros Hnd. rewrite flattened_paragraphs, paragraphs_rebuild by done.
  rewrite parse_numbered. apply numbered_texts.
  apply Forall_forall. intros pq. apply fileContent_content.
Qed.

End RebuildParsed.

(** ** The strict matcher, segment by segment *)

Section StrictResult.

Variable segs : list Segment.
Variable translationText : jsstring.

Abbreviation sparas := (splitIntoParagraphs translationText).
Abbreviation sresult := (Strict.matchTexts segs translationText).

Lemma NoDup_ids_lookup (i j : nat) (s1 s2 : Segment) :
  NoDup (id <$> segs) -> segs !! i = Some s1 -> segs !! j = Some s2 ->
  id s1 = id s2 -> i = j.
Proof.
  intros Hnd H1 H2 Heq.
  eapply (NoDup_lookup _ _ _ _ Hnd); rewrite list_lookup_fmap.
  - by rewrite H1.
  - rewrite H2. simpl. by rewrite Heq.
Qed.

(** The value of every segment. *)
Lemma strict_lookup (i : nat) (seg : Segment) :
  NoDup (id <$> segs) -> segs !! i = Some seg ->
  mapping sresult !! id seg = strictValue segs sparas i.
Proof.
  intros Hnd Hi. pose proof (lookup_lt_Some _ _ _ Hi) as Hlt.
  unfold strictValue.
  destruct (strict_cases segs translationText) as [[Hl ->]|[[Hl ->]|[Hl ->]]].
  - destruct (structureMatch_spec segs sparas (initial (Z.of_nat (length segs))))
      as ((Hmap & _) & _).
    rewrite (Hmap Hnd i seg) by (done || lia).
    destruct (Nat.leb_spec (length sparas) (length segs)); [|lia].
    destruct (lookup_lt_is_Some_2 sparas i) as [p Hp]; [lia|].
    by rewrite Hp, (get_lookup _ _ _ Hp).
  - destruct (partial_spec segs sparas
                (updStats (setMethod "sequential-partial")
                   (initial (Z.of_nat (length segs)))))
      as ((Hmap & Hother & _) & _).
    replace (Z.min (Z.of_nat (length segs)) (Z.of_nat (length sparas)))
      with (Z.of_nat (length sparas)) in * by lia.
    rewrite Nat2Z.id in Hother.
    destruct (Nat.leb_spec (length sparas) (length segs)); [|lia].
    destruct (sparas !! i) as [p|] eqn:Hp.
    + rewrite (Hmap Hnd i seg); [|apply lookup_lt_Some in Hp; lia|done].
      by rewrite (get_lookup _ _ _ Hp).
    + apply lookup_ge_None_1 in Hp.
      rewrite Hother; [done|].
      intros Hin. apply list_elem_of_fmap in Hin as (s' & Hid & Hs').
      apply list_elem_of_lookup in Hs' as [j Hj].
      apply lookup_take_Some in Hj as [Hj Hjl].
      assert (i = j); [|lia]. by eapply NoDup_ids_lookup.
  - destruct (merge_spec segs sparas
                (updStats (setMethod "sequential-merge")
                   (initial (Z.of_nat (length segs)))))
      as ((Hmap & _) & _).
    simpl. rewrite (Hmap Hnd i seg) by (done || lia).
    destruct (Nat.leb_spec (length sparas) (length segs)); [lia|].
    unfold mergeValue.
    destruct (Z.ltb_spec (Z.of_nat i) (Z.of_nat (length segs) - 1)),
             (Nat.ltb_spec (S i) (length segs)); try lia.
    + destruct (lookup_lt_is_Some_2 sparas i) as [p Hp]; [lia|].
      by rewrite Hp, (get_lookup _ _ _ Hp).
    + unfold slice. by rewrite Nat2Z.id.
Qed.

(** The segments left without translation. *)
Lemma strict_unmatched : unmatched sresult = drop (length sparas) segs.
Proof.
  destruct (strict_cases segs translationText) as [[Hl ->]|[[Hl ->]|[Hl ->]]].
  - destruct (structureMatch_spec segs sparas (initial (Z.of_nat (length segs))))
      as (_ & Hu & _).
    rewrite Hu, drop_ge by lia. done.
  - destruct (partial_spec segs sparas
                (updStats (setMethod "sequential-partial")
                   (initial (Z.of_nat (length segs)))))
      as (_ & Hu & _).
    by rewrite Hu.
  - destruct (merge_spec segs sparas
                (updStats (setMethod "sequential-merge")
                   (initial (Z.of_nat (length segs)))))
      as (_ & Hu & _).
    simpl. rewrite Hu, drop_ge by lia. done.
Qed.

(** The texts after a rewrite with the mapping of the strict matcher. *)
Lemma strict_textAfter :
  NoDup (id <$> segs) ->
  List.map (textAfter (mapping sresult)) segs
  = imap (fun i seg => default (text seg) (strictValue segs sparas i)) segs.
Proof.
  intros Hnd. apply list_eq. intros i.
  change (List.map ?f segs) with (f <$> segs).
  rewrite list_lookup_fmap, list_lookup_imap.
  destruct (segs !! i) as [seg|] eqn:Hi; [|done]. simpl.
  unfold textAfter. by rewrite (strict_lookup i seg Hnd Hi).
Qed.

End StrictResult.

(** ** Integers as strings *)

Section NumFacts.

Import Num.

Lemma digit_not_space (c : Z) : isDigit c = true -> isSpace c = false.
Proof.
  unfold isDigit, isSpace, between. intros H.
  apply andb_true_iff in H as [H1 H2]. apply Z.leb_le in H1, H2.
  repeat (apply orb_false_intro);
    try (apply andb_false_iff; left; apply Z.leb_gt; lia);
    try (apply andb_false_iff; right; apply Z.leb_gt; lia);
    apply Z.eqb_neq; lia.
Qed.

Lemma isDigit_mod (n : Z) : isDigit (48 + n mod 10) = true.
Proof.
  pose proof (Z.mod_pos_bound n 10 ltac:(lia)).
  unfold isDigit, between. apply andb_true_iff. split; apply Z.leb_le; lia.
Qed.

Lemma digits_head (fuel : nat) (n : Z) (rest : jsstring) :
  exists c s, digits (S fuel) n rest = c :: s /\ isDigit c = true.
Proof.
  revert n rest. induction fuel as [|fuel IH]; intros n rest.
  - simpl. exists (48 + n mod 10), rest. split; [by destruct (n <? 10)|apply isDigit_mod].
  - change (digits (S (S fuel)) n rest)
      with (if n <? 10 then (48 + n mod 10) :: rest
            else digits (S fuel) (n / 10) ((48 + n mod 10) :: rest)).
    destruct (n <? 10); [|apply IH].
    exists (48 + n mod 10), rest. split; [done|apply isDigit_mod].
Qed.

(** Reading the digits of [n] gives [n] back. *)
Lemma digits_parse (fuel : nat) (n : Z) (rest : jsstring) :
  0 <= n < 2 ^ Z.of_nat (S fuel) ->
  parseDigits 0 (digits (S fuel) n rest) = parseDigits n rest.
Proof.
  assert (forall n rest, 0 <= n < 10 ->
            parseDigits 0 ((48 + n mod 10) :: rest) = parseDigits n rest) as Hbase.
  { intros n' rest' Hn. simpl. rewrite isDigit_mod. f_equal.
    rewrite Z.mod_small by done. lia. }
  revert n rest. induction fuel as [|fuel IH]; intros n rest Hn.
  - simpl. change (2 ^ Z.of_nat 1) with 2 in Hn.
    destruct (n <? 10); apply Hbase; lia.
  - change (digits (S (S fuel)) n rest)
      with (if n <? 10 then (48 + n mod 10) :: rest
            else digits (S fuel) (n / 10) ((48 + n mod 10) :: rest)).
    destruct (Z.ltb_spec n 10); [apply Hbase; lia|].
    rewrite IH.
    + simpl. rewrite isDigit_mod. f_equal.
      pose proof (Z.div_mod n 10 ltac:(lia)). lia.
    + rewrite Nat2Z.inj_succ, Z.pow_succ_r in Hn by lia.
      split; [apply Z.div_pos; lia|].
      apply Z.div_lt_upper_bound; lia.
Qed.

Lemma toString_fuel (n : Z) : 0 <= n -> n < 2 ^ Z.of_nat (S (Z.to_nat (Z.log2 n))).
Proof.
  intros Hn. pose proof (Z.log2_nonneg n).
  rewrite Nat2Z.inj_succ, Z2Nat.id by done.
  destruct (Z.eq_dec n 0) as [->|Hne]; [done|].
  apply Z.log2_spec. lia.
Qed.

(** [parseInt(String(n), 10)] is [n]. *)
Lemma parseInt_toString (n : Z) : parseInt (toString n) = Some n.
Proof.
  unfold toString, parseInt.
  destruct (Z.ltb_spec n 0) as [Hneg|Hpos].
  - cbn [dropWhile]. change (isSpace 45) with false. cbv iota.
    change (45 =? 45) with true. cbv iota.
    destruct (digits_head (Z.to_nat (Z.log2 (- n))) (- n) []) as (c & s & E & Hc).
    rewrite digits_parse by (split; [lia|apply toString_fuel; lia]).
    rewrite E, Hc. simpl. f_equal. lia.
  - destruct (digits_head (Z.to_nat (Z.log2 n)) n []) as (c & s & E & Hc).
    rewrite E. cbn [dropWhile]. rewrite (digit_not_space c Hc).
    pose proof Hc as Hc'. unfold isDigit, between in Hc'.
    apply andb_true_iff in Hc' as [H1 H2]. apply Z.leb_le in H1, H2.
    destruct (Z.eqb_spec c 45); [lia|]. destruct (Z.eqb_spec c 43); [lia|].
    rewrite Hc, <- E.
    rewrite digits_parse by (split; [lia|apply toString_fuel; lia]).
    simpl. f_equal. destruct n; done.
Qed.

End NumFacts.

(** ** The review dialog *)

Section ReviewFacts.

Import Main.

Lemma handleConfirm_cons (seg : Segment) (us : list Segment) (v : jsstring)
    (vs : list jsstring) (m : gmap Z jsstring) :
  handleConfirm (seg :: us) (v :: vs) m
  = handleConfirm us vs
      (if (0 <? length (trim v))%nat then <[id seg := trim v]> m else m).
Proof. unfold handleConfirm. simpl. by rewrite parseInt_toString. Qed.

Lemma handleConfirm_other (us : list Segment) (vs : list jsstring)
    (m : gmap Z jsstring) (key : Z) :
  key ∉ id <$> us -> handleConfirm us vs m !! key = m !! key.
Proof.
  revert vs m. induction us as [|seg us IH]; intros vs m Hkey; [done|].
  destruct vs as [|v vs]; [done|].
  rewrite fmap_cons in Hkey. apply not_elem_of_cons in Hkey as [Hne Hkey].
  rewrite handleConfirm_cons, IH by done.
  destruct (0 <? length (trim v))%nat; [|done]. by rewrite lookup_insert_ne.
Qed.

(** A text area that is not blank gives its segment its trimmed value; a
    blank one changes nothing. *)
Lemma handleConfirm_lookup (us : list Segment) (vs : list jsstring)
    (m : gmap Z jsstring) (i : nat) (seg : Segment) (v : jsstring) :
  NoDup (id <$> us) -> us !! i = Some seg -> vs !! i = Some v ->
  handleConfirm us vs m !! id seg
  = if (0 <? length (trim v))%nat then Some (trim v) else m !! id seg.
Proof.
  revert vs m i. induction us as [|s us IH]; intros vs m i Hnd Hs Hv; [done|].
  destruct vs as [|w vs]; [done|].
  rewrite fmap_cons in Hnd. apply NoDup_cons in Hnd as [Hfresh Hnd].
  rewrite handleConfirm_cons. destruct i as [|i]; simpl in Hs, Hv.
  - injection Hs as ->. injection Hv as ->.
    rewrite handleConfirm_other by done.
    destruct (0 <? length (trim v))%nat; [|done]. by rewrite lookup_insert_eq.
  - rewrite (IH vs _ i) by done.
    destruct (0 <? length (trim v))%nat; [done|].
    destruct (0 <? length (trim w))%nat; [|done].
    rewrite lookup_insert_ne; [done|]. intros Heq. apply Hfresh.
    rewrite Heq. apply list_elem_of_fmap. exists seg. split; [done|].
    by eapply list_elem_of_lookup_2.
Qed.

End ReviewFacts.

(** ** The parsers and the pipeline *)

Lemma numbered_text (k : Dom.Kind) (n : Z) (l : list (jsstring * Dom.Node)) :
  text <$> numbered k n l = (fun pq => Dom.extractText k (snd pq)) <$> l.
Proof.
  revert n. induction l as [|pq l IH]; intros n; [done|].
  rewrite numbered_cons, !fmap_cons, IH. done.
Qed.

Lemma isContent_trim (k : Dom.Kind) (q : Dom.Node) :
  Dom.isContent k q = true -> trim (Dom.extractText k q) <> [].
Proof. unfold Dom.isContent. intros H E. by rewrite E in H. Qed.

(** X1. The parsers number their segments 0, 1, 2, ... in the order they
    find them, through all the files: the ids are pairwise different, and the
    text of every segment has a character that is not whitespace. *)
Theorem parser_ids (k : Dom.Kind) (xmlFiles : list (jsstring * Dom.Node)) :
  let segs := Parse.parse k xmlFiles in
  (forall (i : nat) seg, segs !! i = Some seg -> id seg = Z.of_nat i)
  /\ NoDup (id <$> segs)
  /\ Forall (fun seg => trim (text seg) <> []) segs.
Proof.
  intros segs. split; [|split].
  - intros i seg Hi. unfold segs in Hi. rewrite parse_numbered in Hi.
    apply numbered_lookup in Hi as (pq & _ & ->). simpl. lia.
  - apply parse_ids.
  - unfold segs. rewrite parse_numbered. apply Forall_forall. intros seg Hin.
    apply list_elem_of_lookup in Hin as [i Hi].
    apply numbered_lookup in Hi as (pq & Hpq & ->). simpl.
    apply isContent_trim. eapply fileContent_content.
    by eapply list_elem_of_lookup_2.
Qed.

Lemma files_middle {A} (l : list A) (f : nat) (x : A) :
  l !! f = Some x -> l = take f l ++ x :: drop (S f) l /\ length (take f l) = f.
Proof.
  intros H. split; [by rewrite take_drop_middle|].
  apply lookup_lt_Some in H. rewrite length_take. lia.
Qed.

(** X2. The segments the parser reports for a file (those that carry its
    path) are its content paragraphs, in document order: as many, with the
    flattened texts of these paragraphs. *)
Theorem parser_file_segments (k : Dom.Kind) (xmlFiles : list (jsstring * Dom.Node))
    (f : nat) (path : jsstring) (doc : Dom.Node) :
  NoDup xmlFiles.*1 ->
  xmlFiles !! f = Some (path, doc) ->
  text <$> segmentsOfFile path (Parse.parse k xmlFiles)
  = Dom.extractText k <$> contentParagraphs k doc.
Proof.
  intros Hnd Hf. destruct (files_middle _ _ _ Hf) as [Hfiles _].
  rewrite Hfiles in Hnd |- * at 1.
  destruct (perFile_parsed k ∅ _ _ _ Hnd) as (Hseg & _). simpl in Hseg.
  rewrite Hseg, numbered_text. unfold fileContent. simpl.
  change (List.map ?g ?l) with (g <$> l). by rewrite <- list_fmap_compose.
Qed.

Lemma NoDup_paths (l : list jsstring) : bool_decide (NoDup l) = true -> NoDup l.
Proof. apply bool_decide_eq_true_1. Qed.

Lemma parser_file_segments_witness :
  text <$> segmentsOfFile (lit "word/document.xml") (Parse.parse Dom.Docx exampleFiles)
  = [lit "Hello world"; lit "Hello big bad world"]
  /\ text <$> segmentsOfFile (lit "word/footer1.xml") (Parse.parse Dom.Docx exampleFiles)
     = [lit "Page"].
Proof.
  split.
  - rewrite (parser_file_segments Dom.Docx exampleFiles 0 (lit "word/document.xml")
               (Dom.Elem Dom.NS_w "document" []
                  [Dom.Elem Dom.NS_w "body" []
                     [paragraph "Hello world"; emptyParagraph;
                      Dom.Elem Dom.NS_w "tbl" []
                        [Dom.Elem Dom.NS_w "tr" []
                           [Dom.Elem Dom.NS_w "tc" [] [mixedParagraph]]]]])).
    + vm_compute. reflexivity.
    + apply NoDup_paths. vm_compute. reflexivity.
    + reflexivity.
  - rewrite (parser_file_segments Dom.Docx exampleFiles 1 (lit "word/footer1.xml")
               (Dom.Elem Dom.NS_w "ftr" [] [paragraph "Page"])).
    + vm_compute. reflexivity.
    + apply NoDup_paths. vm_compute. reflexivity.
    + reflexivity.
Defined.

(** X3. The rewrite of a parsed document pairs every content paragraph of a
    file with the segment the parser made of it: the file has as many
    segments as content paragraphs, and after the rewrite its content
    paragraphs are these paragraphs, each with its text replaced (its
    segment's id has a mapping entry) or highlighted (it has none). *)
Theorem rebuild_parsed (k : Dom.Kind) (m : gmap Z jsstring)
    (xmlFiles : list (jsstring * Dom.Node)) (f : nat) (path : jsstring) (doc : Dom.Node) :
  NoDup xmlFiles.*1 ->
  xmlFiles !! f = Some (path, doc) ->
  let fileSegments := segmentsOfFile path (Parse.parse k xmlFiles) in
  length fileSegments = length (contentParagraphs k doc)
  /\ Rebuild.rebuild k xmlFiles (Parse.parse k xmlFiles) m !! f
     = Some (path, zip_with (rewritten k m) fileSegments (contentParagraphs k doc)).
Proof.
  intros Hnd Hf fileSegments. destruct (files_middle _ _ _ Hf) as [Hfiles Hlen].
  unfold fileSegments. rewrite rebuild_perFile.
  change (List.map ?g xmlFiles) with (g <$> xmlFiles).
  rewrite list_lookup_fmap, Hf. simpl.
  revert Hnd. rewrite Hfiles at 1 2 3 4. intros Hnd.
  destruct (perFile_parsed k m _ _ _ Hnd) as (Hseg & Hl & Hfile). simpl in *.
  rewrite Hseg. split; [done|]. by rewrite Hfile.
Qed.

Lemma rebuild_parsed_witness :
  length (segmentsOfFile (lit "word/footer1.xml") (Parse.parse Dom.Docx exampleFiles))
  = 1%nat
  /\ Rebuild.rebuild Dom.Docx exampleFiles (Parse.parse Dom.Docx exampleFiles)
       flaggedMapping !! 1%nat
     = Some (lit "word/footer1.xml",
             [Rebuild.highlightRed Dom.Docx (paragraph "Page")]).
Proof.
  apply (rebuild_parsed Dom.Docx flaggedMapping exampleFiles 1 (lit "word/footer1.xml")
           (Dom.Elem Dom.NS_w "ftr" [] [paragraph "Page"])).
  - apply NoDup_paths. vm_compute. reflexivity.
  - reflexivity.
Defined.

(** X4. After the rewrite of a parsed document with any mapping, the texts of
    the content paragraphs, file after file, are those of the segments, each
    replaced by its translation when the mapping has one for its id: the
    translated paragraphs read exactly their translations, the others keep
    their text. *)
Theorem rebuild_texts (k : Dom.Kind) (m : gmap Z jsstring)
    (xmlFiles : list (jsstring * Dom.Node)) :
  NoDup xmlFiles.*1 ->
  flattened k (Rebuild.rebuild k xmlFiles (Parse.parse k xmlFiles) m)
  = textAfter m <$> Parse.parse k xmlFiles.
Proof. intros Hnd. by rewrite flattened_rebuild. Qed.

Lemma rebuild_texts_witness :
  flattened Dom.Docx
    (Rebuild.rebuild Dom.Docx exampleFiles (Parse.parse Dom.Docx exampleFiles)
       flaggedMapping)
  = [lit "Bonjour"; lit "Hello big bad world"; lit "Page"].
Proof.
  rewrite (rebuild_texts Dom.Docx flaggedMapping exampleFiles).
  - vm_compute. reflexivity.
  - apply NoDup_paths. vm_compute. reflexivity.
Defined.

Section PipelineFacts.

Variable k : Dom.Kind.
Variable xmlFiles : list (jsstring * Dom.Node).
Variable translationText : jsstring.

Abbreviation psegs := (Parse.parse k xmlFiles).
Abbreviation pparas := (splitIntoParagraphs translationText).
Abbreviation presult := (Strict.matchTexts psegs translationText).

(** Without review, the texts after the pipeline. *)
Lemma pipeline_texts :
  NoDup xmlFiles.*1 ->
  flattened k (Rebuild.rebuild k xmlFiles psegs (mapping presult))
  = imap (fun i seg => default (text seg) (strictValue psegs pparas i)) psegs.
Proof.
  intros Hnd. rewrite flattened_rebuild by done.
  apply strict_textAfter, parse_ids.
Qed.

(** The review dialog opens when the translation has fewer paragraphs than
    the document has segments. *)
Lemma pipeline_review_opens :
  (0 <? length (unmatched presult))%nat = (length pparas <? length psegs)%nat.
Proof.
  rewrite strict_unmatched, length_drop.
  destruct (Nat.ltb_spec 0 (length psegs - length pparas)),
           (Nat.ltb_spec (length pparas) (length psegs)); done || lia.
Qed.

End PipelineFacts.

(** X5. A translation with as many paragraphs as the document has content
    paragraphs: the pipeline (parse, match, rewrite) runs without review and
    gives a document whose content paragraphs read, in order, exactly the
    paragraphs of the translation. *)
Theorem pipeline_identity (k : Dom.Kind) (xmlFiles : list (jsstring * Dom.Node))
    (translationText : jsstring) (review : Main.Review) :
  NoDup xmlFiles.*1 ->
  length (splitIntoParagraphs translationText) = length (Parse.parse k xmlFiles) ->
  exists out,
    Main.runPipeline k xmlFiles translationText review = Some out
    /\ flattened k out = splitIntoParagraphs translationText.
Proof.
  intros Hnd Hlen. unfold Main.runPipeline. cbv zeta.
  rewrite pipeline_review_opens.
  destruct (Nat.ltb_spec (length (splitIntoParagraphs translationText))
              (length (Parse.parse k xmlFiles))); [lia|].
  eexists. split; [done|]. rewrite pipeline_texts by done.
  apply list_eq. intros i. rewrite list_lookup_imap.
  destruct (Parse.parse k xmlFiles !! i) as [seg|] eqn:Hi; simpl.
  - unfold strictValue.
    destruct (Nat.leb_spec (length (splitIntoParagraphs translationText))
                (length (Parse.parse k xmlFiles))); [|lia].
    destruct (lookup_lt_is_Some_2 (splitIntoParagraphs translationText) i) as [p Hp].
    { apply lookup_lt_Some in Hi. lia. }
    by rewrite Hp.
  - symmetry. apply lookup_ge_None_2. apply lookup_ge_None_1 in Hi. lia.
Qed.

Lemma pipeline_identity_witness :
  exists out,
    Main.runPipeline Dom.Docx exampleFiles threeLines Main.Skip = Some out
    /\ flattened Dom.Docx out = splitIntoParagraphs threeLines.
Proof.
  apply (pipeline_identity Dom.Docx exampleFiles threeLines Main.Skip).
  - apply NoDup_paths. vm_compute. reflexivity.
  - vm_compute. reflexivity.
Defined.

(** The example, evaluated. *)
Example pipeline_three_lines :
  option_map (flattened Dom.Docx)
    (Main.runPipeline Dom.Docx exampleFiles threeLines Main.Close)
  = Some [lit "Bonjour le monde"; lit "Bonjour grand monde"; lit "Page"].
Proof. vm_compute. reflexivity. Qed.

(** X6. A translation with fewer paragraphs than the document has content
    paragraphs: the review dialog opens; closing it stops the pipeline, and
    skipping it gives a document whose first content paragraphs read the
    paragraphs of the translation, while every further content paragraph
    keeps its text and has all its runs highlighted. *)
Theorem pipeline_untranslated (k : Dom.Kind) (xmlFiles : list (jsstring * Dom.Node))
    (translationText : jsstring) :
  NoDup xmlFiles.*1 ->
  let segs := Parse.parse k xmlFiles in
  let paras := splitIntoParagraphs translationText in
  (length paras < length segs)%nat ->
  Main.runPipeline k xmlFiles translationText Main.Close = None
  /\ exists out,
       Main.runPipeline k xmlFiles translationText Main.Skip = Some out
       /\ flattened k out = paras ++ (text <$> drop (length paras) segs)
       /\ forall (j : nat) p',
            (length paras <= j)%nat -> paragraphsOf out !! j = Some p' ->
            Forall (fun r => Rebuild.carriesFlag k r = true) (Dom.getRuns k p').
Proof.
  intros Hnd segs paras Hlt. unfold Main.runPipeline. cbv zeta.
  rewrite pipeline_review_opens. fold segs paras.
  destruct (Nat.ltb_spec (length paras) (length segs)); [|lia].
  split; [done|]. eexists. split; [done|]. split.
  - rewrite pipeline_texts by done. fold segs paras.
    apply list_eq. intros i. rewrite list_lookup_imap.
    unfold strictValue.
    destruct (Nat.leb_spec (length paras) (length segs)); [|lia].
    destruct (paras !! i) as [p|] eqn:Hp.
    + pose proof (lookup_lt_Some _ _ _ Hp).
      destruct (lookup_lt_is_Some_2 segs i) as [seg Hi]; [lia|].
      rewrite Hi, lookup_app_l by done. simpl. by rewrite Hp.
    + pose proof (lookup_ge_None_1 _ _ Hp).
      rewrite lookup_app_r, list_lookup_fmap, lookup_drop by done.
      replace (length paras + (i - length paras))%nat with i by lia.
      by destruct (segs !! i).
  - intros j p' Hj Hp'. rewrite paragraphs_rebuild in Hp' by done.
    apply lookup_zip_with_Some in Hp' as (seg & q & -> & Hseg & Hq).
    unfold rewritten.
    rewrite (strict_lookup segs translationText j seg (parse_ids k xmlFiles) Hseg).
    unfold strictValue. fold paras.
    destruct (Nat.leb_spec (length paras) (length segs)); [|lia].
    rewrite lookup_ge_None_2 by done. apply highlightRed_flags.
Qed.

Lemma pipeline_untranslated_witness :
  Main.runPipeline Dom.Docx exampleFiles oneLine Main.Close = None
  /\ exists out,
       Main.runPipeline Dom.Docx exampleFiles oneLine Main.Skip = Some out
       /\ flattened Dom.Docx out
          = splitIntoParagraphs oneLine
            ++ (text <$> drop (length (splitIntoParagraphs oneLine))
                          (Parse.parse Dom.Docx exampleFiles))
       /\ forall (j : nat) p',
            (length (splitIntoParagraphs oneLine) <= j)%nat ->
            paragraphsOf out !! j = Some p' ->
            Forall (fun r => Rebuild.carriesFlag Dom.Docx r = true)
              (Dom.getRuns Dom.Docx p').
Proof.
  apply (pipeline_untranslated Dom.Docx exampleFiles oneLine).
  - apply NoDup_paths. vm_compute. reflexivity.
  - vm_compute. lia.
Defined.

(** The value a segment gets from the review dialog. *)
Lemma reviewed_text (us : list Segment) (vs : list jsstring) (m : gmap Z jsstring)
    (i : nat) (seg : Segment) (v : jsstring) :
  NoDup (id <$> us) -> us !! i = Some seg -> vs !! i = Some v ->
  m !! id seg = None ->
  textAfter (Main.handleConfirm us vs m) seg
  = if (0 <? length (trim v))%nat then trim v else text seg.
Proof.
  intros Hnd Hs Hv Hm. unfold textAfter.
  rewrite (handleConfirm_lookup us vs m i seg v) by done.
  destruct (0 <? length (trim v))%nat; [done|]. by rewrite Hm.
Qed.

(** X7. The review dialog, confirmed: with fewer paragraphs than segments
    and one value for each segment left without translation, the content
    paragraphs of the result read the paragraphs of the translation, then,
    for each of the further ones, the trimmed value typed for it, or its own
    text when that value is blank. *)
Theorem pipeline_review (k : Dom.Kind) (xmlFiles : list (jsstring * Dom.Node))
    (translationText : jsstring) (values : list jsstring) :
  NoDup xmlFiles.*1 ->
  let segs := Parse.parse k xmlFiles in
  let paras := splitIntoParagraphs translationText in
  (length paras < length segs)%nat ->
  length values = (length segs - length paras)%nat ->
  exists out,
    Main.runPipeline k xmlFiles translationText (Main.Confirm values) = Some out
    /\ flattened k out
       = paras
         ++ zip_with (fun seg v => if (0 <? length (trim v))%nat then trim v else text seg)
              (drop (length paras) segs) values.
Proof.
  intros Hnd segs paras Hlt Hvals. unfold Main.runPipeline. cbv zeta.
  rewrite pipeline_review_opens. fold segs paras.
  destruct (Nat.ltb_spec (length paras) (length segs)); [|lia].
  eexists. split; [done|]. rewrite flattened_rebuild by done. fold segs.
  rewrite strict_unmatched. fold segs paras.
  pose proof (parse_ids k xmlFiles) as Hids. fold segs in Hids.
  assert (NoDup (id <$> drop (length paras) segs)) as Hdrop.
  { rewrite <- (take_drop (length paras) segs), fmap_app in Hids.
    by apply NoDup_app in Hids as (_ & _ & ?). }
  apply list_eq. intros i.
  change (List.map ?g segs) with (g <$> segs). rewrite list_lookup_fmap.
  destruct (segs !! i) as [seg|] eqn:Hi; simpl.
  - assert (mapping (Strict.matchTexts segs translationText) !! id seg = paras !! i)
      as Hm.
    { rewrite (strict_lookup segs translationText i seg Hids Hi).
      unfold strictValue. fold paras.
      by destruct (Nat.leb_spec (length paras) (length segs)); [|lia]. }
    destruct (paras !! i) as [p|] eqn:Hp.
    + pose proof (lookup_lt_Some _ _ _ Hp). rewrite lookup_app_l by done.
      rewrite Hp. f_equal. unfold textAfter.
      rewrite handleConfirm_other; [by rewrite Hm|].
      intros Hin. apply list_elem_of_fmap in Hin as (s' & Hid & Hs').
      apply list_elem_of_lookup in Hs' as [j Hj]. rewrite lookup_drop in Hj.
      assert (i = (length paras + j)%nat); [|lia].
      by eapply (NoDup_ids_lookup segs).
    + pose proof (lookup_ge_None_1 _ _ Hp). rewrite lookup_app_r by done.
      rewrite lookup_zip_with, lookup_drop.
      replace (length paras + (i - length paras))%nat with i by lia.
      rewrite Hi. simpl.
      destruct (lookup_lt_is_Some_2 values (i - length paras)) as [v Hv].
      { apply lookup_lt_Some in Hi. lia. }
      rewrite Hv. simpl. f_equal.
      apply (reviewed_text _ _ _ (i - length paras)); try done.
      rewrite lookup_drop. by replace (length paras + (i - length paras))%nat with i by lia.
  - pose proof (lookup_ge_None_1 _ _ Hi). symmetry. apply lookup_ge_None_2.
    rewrite length_app, length_zip_with, length_drop. lia.
Qed.

Lemma pipeline_review_witness :
  exists out,
    Main.runPipeline Dom.Docx exampleFiles oneLine
      (Main.Confirm [lit "  Grand monde "; lit "   "]) = Some out
    /\ flattened Dom.Docx out
       = splitIntoParagraphs oneLine
         ++ zip_with
              (fun seg v => if (0 <? length (trim v))%nat then trim v else text seg)
              (drop (length (splitIntoParagraphs oneLine))
                 (Parse.parse Dom.Docx exampleFiles))
              [lit "  Grand monde "; lit "   "].
Proof.
  apply (pipeline_review Dom.Docx exampleFiles oneLine [lit "  Grand monde "; lit "   "]).
  - apply NoDup_paths. vm_compute. reflexivity.
  - vm_compute. lia.
  - vm_compute. reflexivity.
Defined.

(** The example, evaluated: the blank value leaves the footer as it is. *)
Example pipeline_review_example :
  option_map (flattened Dom.Docx)
    (Main.runPipeline Dom.Docx exampleFiles oneLine
       (Main.Confirm [lit "  Grand monde "; lit "   "]))
  = Some [lit "Bonjour le monde"; lit "Grand monde"; lit "Page"].
Proof. vm_compute. reflexivity. Qed.

(** X8. A translation with more paragraphs than the document has content
    paragraphs (at least one): the pipeline runs without review; every
    content paragraph but the last reads the paragraph of its index, and the
    last one reads all the remaining paragraphs, joined by single spaces. *)
Theorem pipeline_merge (k : Dom.Kind) (xmlFiles : list (jsstring * Dom.Node))
    (translationText : jsstring) (review : Main.Review) :
  NoDup xmlFiles.*1 ->
  let segs := Parse.parse k xmlFiles in
  let paras := splitIntoParagraphs translationText in
  (0 < length segs < length paras)%nat ->
  exists out,
    Main.runPipeline k xmlFiles translationText review = Some out
    /\ flattened k out
       = take (length segs - 1) paras ++ [join [SP] (drop (length segs - 1) paras)].
Proof.
  intros Hnd segs paras Hlt. unfold Main.runPipeline. cbv zeta.
  rewrite pipeline_review_opens. fold segs paras.
  destruct (Nat.ltb_spec (length paras) (length segs)); [lia|].
  eexists. split; [done|]. rewrite pipeline_texts by done. fold segs paras.
  apply list_eq. intros i. rewrite list_lookup_imap. unfold strictValue.
  destruct (Nat.leb_spec (length paras) (length segs)); [lia|].
  destruct (segs !! i) as [seg|] eqn:Hi; simpl.
  - pose proof (lookup_lt_Some _ _ _ Hi).
    destruct (Nat.ltb_spec (S i) (length segs)).
    + rewrite lookup_app_l by (rewrite length_take; lia).
      rewrite lookup_take_lt by lia.
      destruct (lookup_lt_is_Some_2 paras i) as [p Hp]; [lia|]. by rewrite Hp.
    + rewrite lookup_app_r by (rewrite length_take; lia).
      rewrite length_take. replace (i - _)%nat with 0%nat by lia. simpl.
      do 3 f_equal. lia.
  - pose proof (lookup_ge_None_1 _ _ Hi). symmetry. apply lookup_ge_None_2.
    rewrite length_app, length_take. simpl. lia.
Qed.

Lemma pipeline_merge_witness :
  exists out,
    Main.runPipeline Dom.Docx exampleFiles fourLines Main.Close = Some out
    /\ flattened Dom.Docx out
       = take (length (Parse.parse Dom.Docx exampleFiles) - 1)
           (splitIntoParagraphs fourLines)
         ++ [join [SP] (drop (length (Parse.parse Dom.Docx exampleFiles) - 1)
                          (splitIntoParagraphs fourLines))].
Proof.
  apply (pipeline_merge Dom.Docx exampleFiles fourLines Main.Close).
  - apply NoDup_paths. vm_compute. reflexivity.
  - vm_compute. lia.
Defined.

(** ** What the matchers account for *)

Lemma fold_left_preserves {A B} (P : A -> Prop) (f : A -> B -> A) (l : list B) (a : A) :
  (forall a x, P a -> P (f a x)) -> P a -> P (fold_left f l a).
Proof.
  intros Hf. revert a. induction l as [|x l IH]; intros a Ha; simpl; [done|].
  apply IH. by apply Hf.
Qed.

Lemma imap_fst {A} (l : list A) (g : nat -> Z) :
  (imap (fun j x => (x, g j)) l).*1 = l.
Proof.
  revert g. induction l as [|x l IH]; intros g; [done|].
  simpl. f_equal. apply (IH (g ∘ S)).
Qed.

Lemma imap_snd {A} (l : list A) :
  (imap (fun j x => (x, Z.of_nat j)) l).*2 = Z.of_nat <$> seq 0 (length l).
Proof.
  rewrite fmap_imap. rewrite (imap_ext _ (fun i _ => Z.of_nat i)) by done.
  apply imap_seq_0.
Qed.

Lemma sorted_NoDup (l : list Z) : StronglySorted Z.lt l -> NoDup l.
Proof.
  induction 1 as [|x l Hs IH Hx]; [constructor|].
  constructor; [|done]. intros Hin. rewrite Forall_forall in Hx.
  apply Hx in Hin. lia.
Qed.

Section KeysFacts.

Lemma keysListed_mapSet (seg : Segment) (j : Z) (v : jsstring) (r : MatchResult) :
  keysListed r -> keysListed (mapSet seg j v r).
Proof.
  unfold keysListed. intros H. simpl.
  rewrite dom_insert_L, H, !fmap_app, list_to_set_app_L. simpl.
  rewrite union_empty_r_L. apply (comm_L (∪)).
Qed.

Lemma keysListed_forLoop (n : Z) (body : MatchResult -> Z -> MatchResult)
    (r : MatchResult) :
  (forall r i, keysListed r -> keysListed (body r i)) ->
  keysListed r -> keysListed (forLoop n body r).
Proof.
  intros Hb Hr. unfold forLoop.
  by apply (fold_left_preserves keysListed).
Qed.

Lemma keysListed_body1 segs paras r i : keysListed r -> keysListed (body1 segs paras r i).
Proof.
  intros H. unfold body1. destruct (at_ segs i); [|done]. by apply keysListed_mapSet.
Qed.

Lemma keysListed_body2 segs paras trg r i :
  keysListed r -> keysListed (Strict.body2 segs paras trg r i).
Proof.
  intros H. unfold Strict.body2. destruct (at_ segs i); [|done].
  destruct (i <? trg); simpl; [|done]. by apply (keysListed_mapSet _ _ _ r).
Qed.

Lemma keysListed_body3 segs paras src r i :
  keysListed r -> keysListed (Strict.body3 segs paras src r i).
Proof.
  intros H. unfold Strict.body3. destruct (at_ segs i); [|done].
  destruct (i <? src - 1); simpl; by apply (keysListed_mapSet _ _ _ r).
Qed.

Lemma keysListed_structureMatch segs paras r :
  keysListed r -> keysListed (structureMatch segs paras r).
Proof.
  intros H. unfold structureMatch. simpl.
  apply keysListed_forLoop; [apply keysListed_body1|done].
Qed.

Lemma keysListed_tier2Step paras st seg :
  keysListed (Adaptive.res st) -> keysListed (Adaptive.res (Adaptive.tier2Step paras st seg)).
Proof.
  intros H. unfold Adaptive.tier2Step.
  destruct (Adaptive.windowLoop _ _ _ _ _ _ _) as [bestMatch bestScore].
  destruct (_ && _).
  - destruct (PrimFloat.ltb bestScore 0.6); simpl;
      by apply (keysListed_mapSet _ _ _ (Adaptive.res st)).
  - destruct (_ && _); simpl; [|done].
    by apply (keysListed_mapSet _ _ _ (Adaptive.res st)).
Qed.

Lemma keysListed_tier3Step st seg :
  keysListed (Adaptive.res3 st) -> keysListed (Adaptive.res3 (Adaptive.tier3Step st seg)).
Proof.
  intros H. unfold Adaptive.tier3Step.
  destruct (fst _); simpl; [|done].
  by apply (keysListed_mapSet _ _ _ (Adaptive.res3 st)).
Qed.

End KeysFacts.

Section AccountFacts.

Variable segs : list Segment.
Variable translationText : jsstring.

Abbreviation aparas := (splitIntoParagraphs translationText).
Abbreviation asrc := (Z.of_nat (length segs)).

Lemma structureMatch_accounted :
  length segs = length aparas ->
  accounted segs (structureMatch segs aparas (initial asrc)).
Proof.
  intros Hlen.
  destruct (structureMatch_spec segs aparas (initial asrc)) as ((_ & _ & _ & Ha) & Hu & Hs).
  rewrite Nat2Z.id, firstn_all in Ha.
  change (assigned (initial asrc)) with (@nil (Segment * Z)) in Ha.
  rewrite app_nil_l in Ha.
  split; [|split].
  - by apply keysListed_structureMatch.
  - rewrite Ha, Hu, imap_fst. simpl. by rewrite app_nil_r.
  - rewrite Hs, Ha, length_imap. done.
Qed.

Lemma strict_accounted : accounted segs (Strict.matchTexts segs translationText).
Proof.
  destruct (strict_cases segs translationText) as [[Hl ->]|[[Hl ->]|[Hl ->]]].
  - by apply structureMatch_accounted.
  - destruct (partial_spec segs aparas
                (updStats (setMethod "sequential-partial") (initial asrc)))
      as ((_ & _ & _ & Ha) & Hu & Hm & _).
    replace (Z.min asrc (Z.of_nat (length aparas)))
      with (Z.of_nat (length aparas)) in * by lia.
    rewrite Nat2Z.id in Ha.
    set (r0 := updStats (setMethod "sequential-partial") (initial asrc)) in *.
    change (assigned r0) with (@nil (Segment * Z)) in Ha.
    change (unmatched r0) with (@nil Segment) in Hu.
    change (matched (stats r0)) with 0 in Hm.
    rewrite app_nil_l in Ha, Hu.
    split; [|split].
    + by apply keysListed_forLoop; [apply keysListed_body2|].
    + by rewrite Ha, Hu, imap_fst, take_drop.
    + rewrite Hm, Ha, length_imap, length_take. lia.
  - destruct (merge_spec segs aparas
                (updStats (setMethod "sequential-merge") (initial asrc)))
      as ((_ & _ & _ & Ha) & Hu & Hm & _).
    rewrite Nat2Z.id, firstn_all in Ha.
    set (r0 := updStats (setMethod "sequential-merge") (initial asrc)) in *.
    change (assigned r0) with (@nil (Segment * Z)) in Ha.
    change (unmatched r0) with (@nil Segment) in Hu.
    change (matched (stats r0)) with 0 in Hm.
    rewrite app_nil_l in Ha.
    split; [|split].
    + simpl. by apply keysListed_forLoop; [apply keysListed_body3|].
    + simpl. rewrite Ha, Hu, imap_fst. simpl. by rewrite app_nil_r.
    + simpl. rewrite Hm, Ha, length_imap. lia.
Qed.

(** The adaptive matcher, with the states of its tiers. *)
Abbreviation ast2 :=
  (Adaptive.tier2 aparas segs (updStats (setMethod "sequential-flex") (initial asrc))).
Abbreviation ast3 :=
  (fold_left Adaptive.tier3Step (unmatched (Adaptive.res ast2))
     (Adaptive.mkT3 (Adaptive.res ast2) (initialPool aparas ast2) [])).

Lemma adaptive_unfold :
  Adaptive.matchTexts segs translationText
  = if asrc =? Z.of_nat (length aparas) then structureMatch segs aparas (initial asrc)
    else match unmatched (Adaptive.res ast2) with
         | [] => Adaptive.res ast2
         | _ :: _ => resetUnmatched (Adaptive.stillUnmatched ast3) (Adaptive.res3 ast3)
         end.
Proof.
  unfold Adaptive.matchTexts. cbv zeta.
  destruct (asrc =? Z.of_nat (length aparas)); [done|].
  unfold Adaptive.tier3. by destruct (unmatched (Adaptive.res ast2)).
Qed.

Lemma tier3_inv : T3inv aparas ast2 (unmatched (Adaptive.res ast2)) ast3.
Proof.
  apply (fold_left_ind (T3inv aparas ast2)).
  - eapply T3inv_start. apply (tier2_inv aparas "sequential-flex" segs).
  - intros seen x a'. apply T3inv_step.
Qed.

(** Tier 3 moves segments from the unmatched list to the history, or keeps
    them. *)
Lemma tier3_partition :
  exists resPart,
    assigned (Adaptive.res3 ast3) = assigned (Adaptive.res ast2) ++ resPart
    /\ unmatched (Adaptive.res ast2) ≡ₚ resPart.*1 ++ Adaptive.stillUnmatched ast3.
Proof.
  apply (fold_left_ind (fun seen st3 =>
    exists resPart,
      assigned (Adaptive.res3 st3) = assigned (Adaptive.res ast2) ++ resPart
      /\ seen ≡ₚ resPart.*1 ++ Adaptive.stillUnmatched st3)).
  - exists []. simpl. by rewrite app_nil_r.
  - intros seen x st3 (resPart & Ha & Hp). unfold Adaptive.tier3Step.
    destruct (fst _) as [best|]; simpl.
    + exists (resPart ++ [(x, snd best)]). rewrite Ha, <- app_assoc. split; [done|].
      rewrite fmap_app, Hp. simpl. rewrite <- !app_assoc. simpl.
      apply Permutation_app_head. symmetry. apply Permutation_cons_append.
    + exists resPart. split; [done|]. by rewrite Hp, app_assoc.
Qed.

Lemma adaptive_accounted : accounted segs (Adaptive.matchTexts segs translationText).
Proof.
  rewrite adaptive_unfold.
  destruct (Z.eqb_spec asrc (Z.of_nat (length aparas))) as [Heq|Hne].
  { apply structureMatch_accounted. lia. }
  pose proof (tier2_inv aparas "sequential-flex" segs) as Hinv. cbv zeta in Hinv.
  assert (keysListed (Adaptive.res ast2)) as Hk2.
  { unfold Adaptive.tier2.
    apply (fold_left_preserves (fun st => keysListed (Adaptive.res st))); [|done].
    intros st x. apply keysListed_tier2Step. }
  destruct Hinv as (_ & _ & _ & _ & _ & Hseen & _ & Hm & _).
  destruct tier3_partition as (resPart & Ha & Hp).
  destruct tier3_inv as (resPart' & Ha' & _ & _ & _ & _ & _ & _ & Hm3 & _).
  rewrite Ha in Ha'. apply app_inv_head in Ha' as <-.
  assert (keysListed (Adaptive.res3 ast3)) as Hk3.
  { apply (fold_left_preserves (fun st => keysListed (Adaptive.res3 st))); [|done].
    intros st x. apply keysListed_tier3Step. }
  remember ast3 as st3 eqn:E. clear E.
  destruct (unmatched (Adaptive.res ast2)) as [|u us] eqn:Hu.
  - split; [done|]. split; [|done]. rewrite Hu. by rewrite Hseen at 1.
  - split; [done|]. split; simpl.
    + rewrite Hseen at 1. rewrite Ha, fmap_app, <- app_assoc.
      by apply Permutation_app_head.
    + rewrite Hm3, Ha, Hm, length_app. lia.
Qed.

End AccountFacts.

(** What follows for a result that accounts for segments of pairwise
    different ids. *)
Lemma accounted_toldApart (segs : list Segment) (r : MatchResult) :
  accounted segs r -> NoDup (id <$> segs) -> toldApart segs r.
Proof.
  intros (Hk & Hp & _) Hnd.
  assert (forall key, is_Some (mapping r !! key) <-> key ∈ id <$> (assigned r).*1) as Hkeys.
  { intros key. rewrite <- elem_of_dom, Hk, elem_of_list_to_set. done. }
  rewrite Hp, fmap_app in Hnd. apply NoDup_app in Hnd as (_ & Hdisj & _).
  split.
  - intros key Hkey. apply Hkeys in Hkey. rewrite Hp, fmap_app, elem_of_app. by left.
  - intros seg Hseg. rewrite Hp, elem_of_app in Hseg. split.
    + intros Hu. apply eq_None_not_Some. intros Hs. apply Hkeys in Hs.
      apply (Hdisj _ Hs). apply list_elem_of_fmap. by exists seg.
    + intros Hnone. destruct Hseg as [Ha|Hu]; [|done]. exfalso.
      assert (is_Some (mapping r !! id seg)) as [v Hv].
      { apply Hkeys. apply list_elem_of_fmap. by exists seg. }
      congruence.
Qed.

Lemma accounted_size (segs : list Segment) (r : MatchResult) :
  accounted segs r -> NoDup (id <$> segs) ->
  Z.of_nat (size (mapping r)) = matched (stats r).
Proof.
  intros (Hk & Hp & Hm) Hnd.
  rewrite Hp, fmap_app in Hnd. apply NoDup_app in Hnd as (Hnd & _).
  rewrite <- size_dom, Hk, size_list_to_set, !length_fmap, Hm by done. done.
Qed.

(** X9. For segments of pairwise different ids and both matchers: the keys
    of the mapping are ids of input segments, and a segment is in the
    unmatched list exactly when the mapping has no entry for its id. *)
Theorem unmatched_iff_unmapped (segs : list Segment) (translationText : jsstring) :
  NoDup (id <$> segs) ->
  toldApart segs (Strict.matchTexts segs translationText)
  /\ toldApart segs (Adaptive.matchTexts segs translationText).
Proof.
  intros Hnd. split.
  - apply accounted_toldApart; [apply strict_accounted|done].
  - apply accounted_toldApart; [apply adaptive_accounted|done].
Qed.

Lemma unmatched_iff_unmapped_witness :
  toldApart skippedSegments (Strict.matchTexts skippedSegments skippedTranslation)
  /\ toldApart skippedSegments (Adaptive.matchTexts skippedSegments skippedTranslation).
Proof.
  apply (unmatched_iff_unmapped skippedSegments skippedTranslation).
  apply NoDup_example. vm_compute. reflexivity.
Defined.

(** X10. For segments of pairwise different ids and both matchers,
    [stats.matched] is the number of entries of the mapping. *)
Theorem matched_is_size (segs : list Segment) (translationText : jsstring) :
  NoDup (id <$> segs) ->
  Z.of_nat (size (mapping (Strict.matchTexts segs translationText)))
  = matched (stats (Strict.matchTexts segs translationText))
  /\ Z.of_nat (size (mapping (Adaptive.matchTexts segs translationText)))
     = matched (stats (Adaptive.matchTexts segs translationText)).
Proof.
  intros Hnd. split.
  - apply (accounted_size segs); [apply strict_accounted|done].
  - apply (accounted_size segs); [apply adaptive_accounted|done].
Qed.

Lemma matched_is_size_witness :
  Z.of_nat (size (mapping (Strict.matchTexts skippedSegments skippedTranslation)))
  = matched (stats (Strict.matchTexts skippedSegments skippedTranslation))
  /\ Z.of_nat (size (mapping (Adaptive.matchTexts skippedSegments skippedTranslation)))
     = matched (stats (Adaptive.matchTexts skippedSegments skippedTranslation)).
Proof.
  apply (matched_is_size skippedSegments skippedTranslation).
  apply NoDup_example. vm_compute. reflexivity.
Defined.

(** ** Counts *)

Lemma NoDup_in_range (l : list Z) (n : nat) :
  NoDup l -> Forall (fun j => 0 <= j < Z.of_nat n) l -> (length l <= n)%nat.
Proof.
  intros Hnd Hall.
  assert (l ⊆+ Z.of_nat <$> seq 0 n) as Hsub.
  { apply NoDup_submseteq; [done|]. intros j Hj. rewrite Forall_forall in Hall.
    apply Hall in Hj. apply list_elem_of_fmap. exists (Z.to_nat j).
    split; [lia|]. apply elem_of_seq. lia. }
  apply submseteq_length in Hsub. by rewrite length_fmap, length_seq in Hsub.
Qed.

Section CountFacts.

Variable segs : list Segment.
Variable translationText : jsstring.

Abbreviation cparas := (splitIntoParagraphs translationText).
Abbreviation csrc := (Z.of_nat (length segs)).
Abbreviation ctrg := (Z.of_nat (length cparas)).

Lemma strict_counts :
  let r := Strict.matchTexts segs translationText in
  matched (stats r) = Z.min csrc ctrg
  /\ unmatchedCount (stats r) = Z.max 0 (csrc - ctrg).
Proof.
  cbv zeta.
  destruct (strict_cases segs translationText) as [[Hl ->]|[[Hl ->]|[Hl ->]]].
  - destruct (structureMatch_spec segs cparas (initial csrc)) as (_ & _ & Hs).
    rewrite Hs. simpl. lia.
  - destruct (partial_spec segs cparas
                (updStats (setMethod "sequential-partial") (initial csrc)))
      as (_ & _ & Hm & Hu & _).
    rewrite Hm, Hu. simpl. lia.
  - destruct (merge_spec segs cparas
                (updStats (setMethod "sequential-merge") (initial csrc)))
      as (_ & _ & Hm & Hu & _).
    simpl. rewrite Hm, Hu. simpl. lia.
Qed.

Lemma strict_unmatchedListed : unmatchedListed segs (Strict.matchTexts segs translationText).
Proof.
  destruct strict_counts as [_ Hu]. split.
  - rewrite strict_unmatched. apply sublist_drop.
  - rewrite Hu, strict_unmatched, length_drop. lia.
Qed.

Lemma adaptive_unmatchedListed :
  unmatchedListed segs (Adaptive.matchTexts segs translationText).
Proof.
  rewrite adaptive_unfold.
  destruct (Z.eqb_spec csrc ctrg) as [Heq|Hne].
  { destruct (structureMatch_spec segs cparas (initial csrc)) as (_ & Hu & Hs).
    split; [rewrite Hu; apply sublist_nil_l|]. by rewrite Hs, Hu. }
  pose proof (tier2_inv cparas "sequential-flex" segs) as Hinv. cbv zeta in Hinv.
  destruct Hinv as (_ & _ & _ & _ & _ & Hseen & _ & _ & Hun & _).
  destruct (tier3_inv segs translationText)
    as (resPart & _ & _ & _ & _ & _ & Hstill & Hlen & _ & Hu3 & _).
  remember (fold_left Adaptive.tier3Step _ _) as st3 eqn:E. clear E.
  destruct (unmatched (Adaptive.res _)) as [|u us] eqn:Hu.
  - split; [rewrite Hu; apply sublist_nil_l|]. by rewrite Hun, Hu.
  - split; simpl.
    + rewrite Hseen at 1. apply sublist_inserts_l. done.
    + rewrite Hu3, Hun. simpl in Hlen. simpl. lia.
Qed.

Lemma adaptive_counts :
  let r := Adaptive.matchTexts segs translationText in
  0 <= fuzzy (stats r) <= matched (stats r)
  /\ matched (stats r) <= Z.min csrc ctrg.
Proof.
  cbv zeta. rewrite adaptive_unfold.
  destruct (Z.eqb_spec csrc ctrg) as [Heq|Hne].
  { destruct (structureMatch_spec segs cparas (initial csrc)) as (_ & _ & Hs).
    rewrite Hs. simpl. lia. }
  pose proof (tier2_inv cparas "sequential-flex" segs) as Hinv. cbv zeta in Hinv.
  destruct Hinv as ([Ht0 Ht1] & _ & Hall & Hsort & _ & Hseen & _ & Hm & Hun & _ & Hfz & _).
  destruct (tier3_inv segs translationText)
    as (resPart & Ha & Hnd & _ & Hres & _ & _ & Hlen & Hm3 & _ & _ & Hf3 & _).
  remember (fold_left Adaptive.tier3Step _ _) as st3 eqn:E. clear E.
  pose proof (f_equal length Hseen) as Hl. rewrite length_app, length_fmap in Hl.
  assert (Forall (fun j => 0 <= j < ctrg) (assigned (Adaptive.res
            (Adaptive.tier2 cparas segs
               (updStats (setMethod "sequential-flex") (initial csrc))))).*2) as Hall'.
  { eapply Forall_impl; [exact Hall|]. simpl. lia. }
  destruct (unmatched (Adaptive.res _)) as [|u us] eqn:Hu.
  - split; [done|]. rewrite Hm.
    pose proof (NoDup_in_range _ (length cparas) (sorted_NoDup _ Hsort) Hall') as Hle.
    rewrite length_fmap in Hle. simpl in Hl. lia.
  - simpl. rewrite Hf3, Hm3. split; [lia|].
    apply NoDup_app in Hnd as (Hnd & _).
    assert (Forall (fun j => 0 <= j < ctrg) (assigned (Adaptive.res3 st3)).*2) as Hall3.
    { rewrite Ha, fmap_app. apply Forall_app. split; [done|].
      eapply Forall_impl; [exact Hres|]. simpl. tauto. }
    pose proof (NoDup_in_range _ (length cparas) Hnd Hall3) as Hle.
    rewrite length_fmap, Ha, length_app in Hle.
    rewrite Hm. simpl in Hlen, Hl. lia.
Qed.

End CountFacts.

(** X11. For every input and both matchers, the unmatched list is a
    sublist of the segments, in their order, and [stats.unmatched] is its
    length. *)
Theorem unmatched_listed (segs : list Segment) (translationText : jsstring) :
  unmatchedListed segs (Strict.matchTexts segs translationText)
  /\ unmatchedListed segs (Adaptive.matchTexts segs translationText).
Proof.
  split; [apply strict_unmatchedListed|apply adaptive_unmatchedListed].
Qed.

(** X12. No matcher reports more matches than there are segments or
    translated paragraphs: the strict one matches exactly the smaller of the
    two numbers; in the adaptive one [0 <= fuzzy <= matched] and [matched] is
    at most the smaller of the two. *)
Theorem matched_bounds (segs : list Segment) (translationText : jsstring) :
  let src := Z.of_nat (length segs) in
  let trg := Z.of_nat (length (splitIntoParagraphs translationText)) in
  matched (stats (Strict.matchTexts segs translationText)) = Z.min src trg
  /\ 0 <= fuzzy (stats (Adaptive.matchTexts segs translationText))
       <= matched (stats (Adaptive.matchTexts segs translationText))
  /\ matched (stats (Adaptive.matchTexts segs translationText)) <= Z.min src trg.
Proof.
  intros src trg.
  destruct (strict_counts segs translationText) as [Hm _].
  destruct (adaptive_counts segs translationText) as [Hf Hle].
  done.
Qed.

(** ** Tier 3 of the adaptive matcher *)

Lemma ltb_trans (x y z : float) :
  PrimFloat.ltb x y = true -> PrimFloat.ltb y z = true -> PrimFloat.ltb x z = true.
Proof.
  intros Hxy Hyz. destruct (PrimFloat.ltb x z) eqn:E; [done|].
  by rewrite (ltb_chain z x y Hxy E) in Hyz.
Qed.

Section ResidualFacts.

Import Adaptive.

Variable segment : Segment.

Abbreviation rscore := (residualScore segment).

(** What the loop over the pool knows after the entries [seen]. *)
Lemma poolStep_fold (pool : list Candidate) :
  let r := fold_left (poolStep segment) pool (None, 0%float) in
  (fst r = None /\ Forall (fun c => PrimFloat.ltb 0.3 (rscore c) = false) pool)
  \/ (exists c, fst r = Some c /\ c ∈ pool
        /\ PrimFloat.ltb 0.3 (rscore c) = true
        /\ Forall (fun d => PrimFloat.ltb (rscore c) (rscore d) = false) pool).
Proof.
  intros r.
  assert ((fst r = None /\ snd r = 0%float
           /\ Forall (fun c => PrimFloat.ltb 0.3 (rscore c) = false) pool)
          \/ (exists c, fst r = Some c /\ snd r = rscore c /\ c ∈ pool
                /\ PrimFloat.ltb 0.3 (rscore c) = true
                /\ Forall (fun d => PrimFloat.ltb (rscore c) (rscore d) = false) pool))
    as [(Hn & _ & Hall)|(c & Hc & _ & Hin & Hacc & Hall)];
    [|by left|right; by exists c].
  unfold r.
  apply (fold_left_ind (fun seen r =>
    (fst r = None /\ snd r = 0%float
     /\ Forall (fun c => PrimFloat.ltb 0.3 (rscore c) = false) seen)
    \/ (exists c, fst r = Some c /\ snd r = rscore c /\ c ∈ seen
          /\ PrimFloat.ltb 0.3 (rscore c) = true
          /\ Forall (fun d => PrimFloat.ltb (rscore c) (rscore d) = false) seen))).
  - left. by repeat split.
  - intros seen d best Hinv. unfold poolStep.
    destruct (PrimFloat.ltb (snd best) (rscore d)) eqn:Hbeat;
      destruct (PrimFloat.ltb 0.3 (rscore d)) eqn:Hacc; simpl.
    + right. exists d. split; [done|]. split; [done|].
      split; [apply elem_of_app; right; left|]. split; [done|].
      apply Forall_app. split; [|repeat constructor; apply ltb_irrefl].
      destruct Hinv as [(_ & Hs & Hall)|(c & _ & Hs & _ & _ & Hall)].
      * eapply Forall_impl; [exact Hall|]. intros e He. simpl in He.
        by apply (ltb_chain _ 0.3%float).
      * eapply Forall_impl; [exact Hall|]. intros e He. simpl in He.
        apply (ltb_chain _ (rscore c)); [by rewrite <- Hs|done].
    + destruct Hinv as [(Hn & Hs & Hall)|(c & Hc & Hs & Hin & Hc3 & Hall)].
      * left. split; [done|]. split; [done|].
        apply Forall_app. split; [done|]. by repeat constructor.
      * right. exists c. split; [done|]. split; [done|].
        split; [apply elem_of_app; by left|]. split; [done|].
        apply Forall_app. split; [done|]. repeat constructor.
        by apply (ltb_chain _ 0.3%float).
    + destruct Hinv as [(Hn & Hs & Hall)|(c & Hc & Hs & Hin & Hc3 & Hall)].
      * exfalso. rewrite Hs in Hbeat.
        assert (PrimFloat.ltb 0 (rscore d) = true) as H0.
        { apply (ltb_trans _ 0.3%float); [by vm_compute|done]. }
        congruence.
      * right. exists c. split; [done|]. split; [done|].
        split; [apply elem_of_app; by left|]. split; [done|].
        apply Forall_app. split; [done|]. repeat constructor. by rewrite <- Hs.
    + destruct Hinv as [(Hn & Hs & Hall)|(c & Hc & Hs & Hin & Hc3 & Hall)].
      * left. split; [done|]. split; [done|].
        apply Forall_app. split; [done|]. by repeat constructor.
      * right. exists c. split; [done|]. split; [done|].
        split; [apply elem_of_app; by left|]. split; [done|].
        apply Forall_app. split; [done|]. repeat constructor. by rewrite <- Hs.
Qed.

End ResidualFacts.

(** X13. One turn of Tier 3.  When no entry of the pool of unused paragraphs
    scores above 0.3 for the segment, the segment stays unmatched and nothing
    else changes.  Otherwise the segment takes an entry of the pool that
    scores above 0.3 and that no entry of the pool beats; the entry leaves the
    pool, and the match is counted as matched and fuzzy. *)
Theorem tier3_choice (st : Adaptive.T3) (segment : Segment) :
  residualChoice st segment (Adaptive.tier3Step st segment).
Proof.
  unfold residualChoice, Adaptive.tier3Step. cbv zeta.
  destruct (poolStep_fold segment (Adaptive.unusedTranslations st))
    as [[Hn Hall]|(c & Hc & Hin & Hacc & Hall)]; cbv zeta in *.
  - rewrite Hn. by left.
  - rewrite Hc. right. by exists c.
Qed.

(** ** The strict matcher loses no text *)

Lemma join_cons_ne (sep p : jsstring) (ps : list jsstring) :
  ps <> [] -> join sep (p :: ps) = p ++ sep ++ join sep ps.
Proof. by destruct ps. Qed.

Lemma join_app_join (sep : jsstring) (l1 l2 : list jsstring) :
  l2 <> [] -> join sep (l1 ++ [join sep l2]) = join sep (l1 ++ l2).
Proof.
  intros Hne. induction l1 as [|p l1 IH]; [done|].
  rewrite <- !app_comm_cons, !join_cons_ne, IH; [done| |].
  - destruct l1; [done|discriminate].
  - destruct l1; discriminate.
Qed.

Lemma omap_lookups {A} (f : A -> option jsstring) (l : list A) (paras : list jsstring) :
  (forall (i : nat) x, l !! i = Some x -> f x = paras !! i) ->
  (length paras <= length l)%nat ->
  omap f l = paras.
Proof.
  revert paras. induction l as [|x l IH]; intros paras Hf Hlen.
  - destruct paras; [done|simpl in Hlen; lia].
  - simpl. rewrite (Hf 0%nat x) by done.
    destruct paras as [|p ps]; simpl.
    + change (omap f l = []).
      apply (IH []); [|simpl; lia]. intros i y Hi. by rewrite (Hf (S i) y).
    + f_equal. change (omap f l = ps). apply IH; [|simpl in Hlen; lia].
      intros i y Hi. by rewrite (Hf (S i) y).
Qed.

Lemma omap_all {A} (f : A -> option jsstring) (g : nat -> jsstring) (l : list A) :
  (forall (i : nat) x, l !! i = Some x -> f x = Some (g i)) ->
  omap f l = g <$> seq 0 (length l).
Proof.
  revert g. induction l as [|x l IH]; intros g Hf; [done|].
  simpl. rewrite (Hf 0%nat x) by done. f_equal.
  change (omap f l = g <$> seq 1 (length l)).
  rewrite (IH (g ∘ S)).
  - by rewrite <- fmap_S_seq, <- list_fmap_compose.
  - intros i y Hi. by rewrite (Hf (S i) y).
Qed.

(** X14. The strict matcher loses no translated text: for a non-empty list
    of segments of pairwise different ids, the values of the mapped segments,
    taken in segment order and joined by single spaces, are the paragraphs of
    the translation joined by single spaces. *)
Theorem strict_keeps_text (segs : list Segment) (translationText : jsstring) :
  segs <> [] ->
  NoDup (id <$> segs) ->
  join [SP] (mappedValues segs (Strict.matchTexts segs translationText))
  = join [SP] (splitIntoParagraphs translationText).
Proof.
  intros Hne Hnd. set (paras := splitIntoParagraphs translationText).
  unfold mappedValues.
  destruct (Nat.leb_spec (length paras) (length segs)) as [Hle|Hgt].
  - f_equal. apply omap_lookups; [|done]. intros i seg Hi.
    rewrite (strict_lookup segs translationText i seg Hnd Hi).
    unfold strictValue. fold paras.
    by destruct (Nat.leb_spec (length paras) (length segs)); [|lia].
  - rewrite (omap_all _ (fun i => if (S i <? length segs)%nat then get_ paras (Z.of_nat i)
                                  else join [SP] (drop i paras))).
    + assert (length segs <> 0%nat) as Hpos by (by destruct segs).
      replace (length segs) with (S (length segs - 1)) at 1 by lia.
      rewrite seq_S, fmap_app. simpl.
      destruct (Nat.ltb_spec (S (length segs - 1)) (length segs)); [lia|].
      rewrite join_app_join.
      * f_equal.
        transitivity (take (length segs - 1) paras ++ drop (length segs - 1) paras);
          [|apply take_drop].
        f_equal. apply list_eq. intros i. rewrite list_lookup_fmap.
        destruct (decide (i < length segs - 1)%nat) as [Hi|Hi].
        -- rewrite lookup_seq_lt, lookup_take_lt by lia. simpl.
           destruct (Nat.ltb_spec (S i) (length segs)); [|lia].
           destruct (lookup_lt_is_Some_2 paras i) as [p Hp]; [lia|].
           by rewrite Hp, (get_lookup _ _ _ Hp).
        -- rewrite lookup_seq_ge, lookup_take_ge by lia. done.
      * intros E. apply (f_equal length) in E. rewrite length_drop in E.
        simpl in E. lia.
    + intros i seg Hi. pose proof (lookup_lt_Some _ _ _ Hi).
      rewrite (strict_lookup segs translationText i seg Hnd Hi).
      unfold strictValue. fold paras.
      destruct (Nat.leb_spec (length paras) (length segs)); [lia|].
      destruct (Nat.ltb_spec (S i) (length segs)); [|done].
      destruct (lookup_lt_is_Some_2 paras i) as [p Hp]; [lia|].
      by rewrite Hp, (get_lookup _ _ _ Hp).
Qed.

Lemma strict_keeps_text_witness :
  join [SP] (mappedValues threeSegments (Strict.matchTexts threeSegments fiveLines))
  = join [SP] (splitIntoParagraphs fiveLines).
Proof.
  apply (strict_keeps_text threeSegments fiveLines).
  - discriminate.
  - apply NoDup_example. vm_compute. reflexivity.
Defined.

(** ** What a rewrite leaves alone *)

Section EraseFacts.

Import Dom Rebuild.

Variable k : Kind.

Lemma eraseText_t (c c' : Node) :
  isElem (runNs k) "t" c = true -> 
  (exists attrs cs, c' = Elem (runNs k) "t" attrs cs) ->
  eraseText k c' = eraseText k c.
Proof.
  intros Hc (attrs' & cs' & ->). apply isElem_Elem in Hc as (attrs & cs & ->).
  cbn [eraseText]. by rewrite !isElem_refl.
Qed.

Lemma writeTextNodes_erase (chunk : jsstring) (first : bool) (cs : list Node) :
  List.map (eraseText k) (writeTextNodes k chunk first cs) = List.map (eraseText k) cs.
Proof.
  revert first. induction cs as [|c cs IH]; intros first; [done|].
  cbn [writeTextNodes]. destruct (isElem (runNs k) "t" c) eqn:Hc.
  - rewrite !List.map_cons, IH. f_equal. apply eraseText_t; [done|].
    destruct (isElem_Elem _ _ _ Hc) as (attrs & ts & ->).
    destruct first; [destruct k|]; simpl; eauto.
  - by rewrite !List.map_cons, IH.
Qed.

Lemma eraseText_children ns name attrs (cs cs' : list Node) :
  List.map (eraseText k) cs' = List.map (eraseText k) cs ->
  eraseText k (Elem ns name attrs cs') = eraseText k (Elem ns name attrs cs).
Proof. intros H. simpl. by rewrite H. Qed.

Lemma setRunText_erase (chunk : jsstring) (run : Node) :
  eraseText k (setRunText k chunk run) = eraseText k run.
Proof.
  destruct run as [s|ns name attrs cs]; [done|].
  apply eraseText_children, writeTextNodes_erase.
Qed.

Lemma writeRun_erase (c : Node) (chunks : list jsstring) :
  eraseText k (fst (writeRun k c chunks)) = eraseText k c.
Proof.
  unfold writeRun. destruct (0 <? length (runText k c))%nat; [|done].
  destruct chunks; [done|]. apply setRunText_erase.
Qed.

Lemma writeRunsFlat_erase (cs : list Node) (chunks : list jsstring) :
  List.map (eraseText k) (fst (writeRunsFlat k cs chunks)) = List.map (eraseText k) cs.
Proof.
  revert chunks. induction cs as [|c cs IH]; intros chunks; [done|].
  cbn [writeRunsFlat].
  destruct (isElem (runNs k) "r" c).
  - pose proof (writeRun_erase c chunks) as Hc.
    destruct (writeRun k c chunks) as [c' chunks'].
    specialize (IH chunks').
    destruct (writeRunsFlat k cs chunks') as [cs'' chunks''].
    simpl in *. by rewrite Hc, IH.
  - specialize (IH chunks).
    destruct (writeRunsFlat k cs chunks) as [cs'' chunks''].
    simpl in *. by rewrite IH.
Qed.

End EraseFacts.

Section EraseDocx.

Import Dom Rebuild.

Lemma writeRunsDocx_erase (cs : list Node) (chunks : list jsstring) :
  List.map (eraseText Docx) (fst (writeRunsDocx cs chunks))
  = List.map (eraseText Docx) cs.
Proof.
  revert chunks. induction cs as [|c cs IH]; intros chunks; [done|].
  cbn [writeRunsDocx].
  destruct (isElem NS_w "r" c).
  - pose proof (writeRun_erase Docx c chunks) as Hc.
    destruct (writeRun Docx c chunks) as [c' chunks'].
    specialize (IH chunks').
    destruct (writeRunsDocx cs chunks') as [cs'' chunks''].
    simpl in *. by rewrite Hc, IH.
  - destruct (isElem NS_w "hyperlink" c) eqn:Hh.
    + destruct (isElem_Elem _ _ _ Hh) as (attrs & hs & ->).
      pose proof (writeRunsFlat_erase Docx hs chunks) as Hf.
      destruct (writeRunsFlat Docx hs chunks) as [hs' chunks'].
      specialize (IH chunks').
      destruct (writeRunsDocx cs chunks') as [cs'' chunks''].
      simpl in *. by rewrite Hf, IH.
    + specialize (IH chunks).
      destruct (writeRunsDocx cs chunks) as [cs'' chunks''].
      simpl in *. by rewrite IH.
Qed.

End EraseDocx.

(** X15. Replacing the text of a paragraph changes nothing but text
    elements: with every [w:t] (or [a:t]) element emptied of its attributes
    and content, the paragraph after the replacement is the paragraph before
    it, with every other element, attribute and text in its place. *)
Theorem replace_keeps_formatting (k : Dom.Kind) (p : Dom.Node) (newText : jsstring) :
  eraseText k (Rebuild.replaceText k p newText) = eraseText k p.
Proof.
  unfold Rebuild.replaceText. cbv zeta.
  destruct p as [s|ns name attrs cs]; [done|].
  destruct (List.filter _ _); [done|].
  apply eraseText_children. destruct k; simpl.
  - apply writeRunsDocx_erase.
  - apply (writeRunsFlat_erase Dom.Pptx).
Qed.

(** The example: the three text runs get new texts, the run properties, the
    hyperlink and the tab stay. *)
Example mixed_paragraph_rewritten :
  Rebuild.replaceParagraphText mixedParagraph (lit "Bonjour le tres grand monde")
  = Dom.Elem Dom.NS_w "p" []
      [Dom.Elem Dom.NS_w "r" []
         [Dom.Elem Dom.NS_w "t" [("xml:space", "preserve")]%string
            [Dom.Text (lit "Bonjour le")]];
       Dom.Elem Dom.NS_w "hyperlink" []
         [Dom.Elem Dom.NS_w "r" []
            [Dom.Elem Dom.NS_w "rPr" [] [];
             Dom.Elem Dom.NS_w "t" [("xml:space", "preserve")]%string
               [Dom.Text (lit " tres grand")];
             Dom.Elem Dom.NS_w "t" [] []]];
       Dom.Elem Dom.NS_w "r" [] [Dom.Elem Dom.NS_w "tab" [] []];
       Dom.Elem Dom.NS_w "r" []
         [Dom.Elem Dom.NS_w "t" [("xml:space", "preserve")]%string
            [Dom.Text (lit " monde")]]].
Proof. vm_compute. reflexivity. Qed.

(** ** Highlighting *)

Section HighlightMore.

Import Dom Rebuild.

Variable k : Kind.

Abbreviation isProps := (isElem (runNs k) "rPr").
Abbreviation dropList :=
  (fun cs : list Node =>
     List.concat (List.map (fun c => if isProps c then [] else [dropProps k c]) cs)).

Lemma flagFirstRPr_drop (cs : list Node) : dropList (flagFirstRPr k cs) = dropList cs.
Proof.
  induction cs as [|c cs IH]; [done|]. cbn [flagFirstRPr].
  destruct (isElem (runNs k) "rPr" c) eqn:Hc.
  - destruct (isElem_Elem _ _ _ Hc) as (attrs & ps & ->).
    cbn [List.map List.concat]. by rewrite Hc, isElem_refl.
  - cbn [List.map List.concat]. by rewrite Hc, IH.
Qed.

Lemma highlightRun_drop (run : Node) : dropProps k (highlightRun k run) = dropProps k run.
Proof.
  destruct run as [s|ns name attrs cs]; [done|].
  cbn [highlightRun dropProps]. f_equal. rewrite flagFirstRPr_drop.
  destruct (existsb (isElem (runNs k) "rPr") cs); [done|].
  cbn [List.map List.concat]. by rewrite isElem_refl.
Qed.

Lemma run_not_props (c : Node) : isElem (runNs k) "r" c = true -> isProps c = false.
Proof. intros H. apply isElem_Elem in H as (attrs & cs & ->). by destruct k. Qed.

(** The runs among some children, highlighted in place. *)
Lemma highlightRuns_drop (hs : list Node) :
  dropList (List.map (fun h => if isElem (runNs k) "r" h then highlightRun k h else h) hs)
  = dropList hs.
Proof.
  induction hs as [|h hs IH]; [done|].
  cbn [List.map List.concat]. rewrite IH. f_equal.
  destruct (isElem (runNs k) "r" h) eqn:Hr; [|done].
  rewrite (run_not_props h Hr), run_not_props by (by rewrite highlightRun_isRun).
  by rewrite highlightRun_drop.
Qed.

Lemma flagFirstRPr_twice (cs : list Node) :
  flagFirstRPr k (flagFirstRPr k cs) = flagFirstRPr k cs.
Proof.
  induction cs as [|c cs IH]; [done|]. cbn [flagFirstRPr].
  destruct (isElem (runNs k) "rPr" c) eqn:Hc.
  - destruct (isElem_Elem _ _ _ Hc) as (attrs & ps & ->).
    cbn [flagFirstRPr]. rewrite isElem_refl. do 2 f_equal.
    rewrite List.filter_app. cbn [List.filter].
    assert (isElem (runNs k) "highlight" (highlightElem k) = true) as ->
      by (by destruct k).
    cbn [negb]. rewrite app_nil_r. f_equal.
    clear. induction ps as [|p ps IH]; [done|]. cbn [List.filter].
    destruct (negb (isElem (runNs k) "highlight" p)) eqn:Hp; [|done].
    cbn [List.filter]. by rewrite Hp, IH.
  - cbn [flagFirstRPr]. by rewrite Hc, IH.
Qed.

Lemma flagFirstRPr_props (cs : list Node) :
  existsb (isElem (runNs k) "rPr") (flagFirstRPr k cs)
  = existsb (isElem (runNs k) "rPr") cs.
Proof.
  induction cs as [|c cs IH]; [done|]. cbn [flagFirstRPr].
  destruct (isElem (runNs k) "rPr" c) eqn:Hc.
  - destruct (isElem_Elem _ _ _ Hc) as (attrs & ps & ->).
    cbn [existsb]. by rewrite !isElem_refl.
  - cbn [existsb]. by rewrite Hc, IH.
Qed.

Lemma highlightRun_twice (run : Node) :
  highlightRun k (highlightRun k run) = highlightRun k run.
Proof.
  destruct run as [s|ns name attrs cs]; [done|].
  cbn [highlightRun]. f_equal.
  rewrite flagFirstRPr_props.
  destruct (existsb (isElem (runNs k) "rPr") cs) eqn:E.
  - rewrite E. apply flagFirstRPr_twice.
  - cbn [existsb]. rewrite isElem_refl. cbn [orb]. apply flagFirstRPr_twice.
Qed.

Lemma highlightRuns_twice (hs : list Node) :
  List.map (fun h => if isElem (runNs k) "r" h then highlightRun k h else h)
    (List.map (fun h => if isElem (runNs k) "r" h then highlightRun k h else h) hs)
  = List.map (fun h => if isElem (runNs k) "r" h then highlightRun k h else h) hs.
Proof.
  rewrite List.map_map. apply map_ext. intros h.
  destruct (isElem (runNs k) "r" h) eqn:Hr; [|by rewrite Hr].
  by rewrite highlightRun_isRun, Hr, highlightRun_twice.
Qed.

End HighlightMore.

Lemma mapRuns_drop (k : Dom.Kind) (cs : list Dom.Node) :
  List.concat (List.map (fun c =>
     if Dom.isElem (Dom.runNs k) "rPr" c then [] else [dropProps k c])
    (Rebuild.mapRuns k (Rebuild.highlightRun k) cs))
  = List.concat (List.map (fun c =>
     if Dom.isElem (Dom.runNs k) "rPr" c then [] else [dropProps k c]) cs).
Proof.
  destruct k.
  - unfold Rebuild.mapRuns. induction cs as [|c cs IH]; [done|].
    cbn [List.map List.concat]. rewrite IH. f_equal.
    destruct (Dom.isElem (Dom.runNs Dom.Docx) "r" c) eqn:Hc.
    + rewrite (run_not_props Dom.Docx c Hc), (run_not_props Dom.Docx)
        by (by rewrite highlightRun_isRun).
      by rewrite highlightRun_drop.
    + destruct c as [s|ns name attrs hs]; [done|].
      destruct (Dom.isElem Dom.NS_w "hyperlink" (Dom.Elem ns name attrs hs)) eqn:Hh;
        [|done].
      destruct (isElem_Elem _ _ _ Hh) as (a2 & h2 & [= -> -> -> ->]).
      cbn [dropProps]. simpl Dom.isElem. cbv iota.
      by rewrite (highlightRuns_drop Dom.Docx).
  - apply (highlightRuns_drop Dom.Pptx).
Qed.

Lemma mapRuns_twice (k : Dom.Kind) (cs : list Dom.Node) :
  Rebuild.mapRuns k (Rebuild.highlightRun k)
    (Rebuild.mapRuns k (Rebuild.highlightRun k) cs)
  = Rebuild.mapRuns k (Rebuild.highlightRun k) cs.
Proof.
  destruct k.
  - unfold Rebuild.mapRuns. rewrite List.map_map. apply map_ext. intros c.
    destruct (Dom.isElem (Dom.runNs Dom.Docx) "r" c) eqn:Hc.
    + by rewrite highlightRun_isRun, Hc, highlightRun_twice.
    + destruct c as [s|ns name attrs hs]; [done|].
      destruct (Dom.isElem Dom.NS_w "hyperlink" (Dom.Elem ns name attrs hs)) eqn:Hh.
      * destruct (isElem_Elem _ _ _ Hh) as (a2 & h2 & [= -> -> -> ->]).
        simpl Dom.isElem. cbv iota.
        by rewrite (highlightRuns_twice Dom.Docx).
      * by rewrite Hc, Hh.
  - apply (highlightRuns_twice Dom.Pptx).
Qed.

(** X16. Highlighting a paragraph changes nothing but run properties, and
    doing it twice is doing it once: the flattened text is the same; with
    every [rPr] element left out, the paragraph after highlighting is the
    paragraph before it; and a highlighted paragraph that is highlighted again
    does not change, each run keeping one highlight in one set of run
    properties. *)
Theorem highlight_only_flags (k : Dom.Kind) (p : Dom.Node) :
  Dom.extractText k (Rebuild.highlightRed k p) = Dom.extractText k p
  /\ dropProps k (Rebuild.highlightRed k p) = dropProps k p
  /\ Rebuild.highlightRed k (Rebuild.highlightRed k p) = Rebuild.highlightRed k p.
Proof.
  split; [apply (highlightRed_text k ∅)|].
  destruct p as [s|ns name attrs cs]; [done|].
  cbn [Rebuild.highlightRed dropProps]. split; f_equal.
  - apply mapRuns_drop.
  - apply mapRuns_twice.
Qed.

(** The example: a run without properties gets them, a run that is
    highlighted in yellow is highlighted in red instead. *)
Example highlight_example :
  Rebuild.highlightParagraphRed
    (Dom.Elem Dom.NS_w "p" []
       [run [textNode "a"];
        run [Dom.Elem Dom.NS_w "rPr" []
               [Dom.Elem Dom.NS_w "highlight" [("w:val", "yellow")]%string [];
                Dom.Elem Dom.NS_w "b" [] []];
             textNode "b"]])
  = Dom.Elem Dom.NS_w "p" []
      [run [Dom.Elem Dom.NS_w "rPr" []
              [Dom.Elem Dom.NS_w "highlight" [("w:val", "red")]%string []];
            textNode "a"];
       run [Dom.Elem Dom.NS_w "rPr" []
              [Dom.Elem Dom.NS_w "b" [] [];
               Dom.Elem Dom.NS_w "highlight" [("w:val", "red")]%string []];
            textNode "b"]].
Proof. vm_compute. reflexivity. Qed.

(** ** The traversal of a slide *)

Lemma Node_induction (P : Dom.Node -> Prop) :
  (forall s, P (Dom.Text s)) ->
  (forall ns name attrs cs, Forall P cs -> P (Dom.Elem ns name attrs cs)) ->
  forall n, P n.
Proof.
  intros Ht He. fix IH 1. intros [s|ns name attrs cs]; [apply Ht|].
  apply He. induction cs as [|c cs IHcs]; constructor; [apply IH|apply IHcs].
Qed.

Lemma Forall_concat_map {A B} (P : B -> Prop) (f : A -> list B) (l : list A) :
  Forall (fun x => Forall P (f x)) l -> Forall P (List.concat (List.map f l)).
Proof.
  induction 1 as [|x l Hx Hl IH]; [constructor|].
  simpl. apply Forall_app. by split.
Qed.

Lemma find_existsb {A} (p : A -> bool) (l : list A) :
  existsb p l = true -> exists x, List.find p l = Some x /\ p x = true.
Proof.
  induction l as [|x l IH]; simpl; [done|].
  destruct (p x) eqn:Hx; [by exists x|]. apply IH.
Qed.

Lemma walkShapes_bodies (node : Dom.Node) :
  Forall (fun shape =>
    Dom.isElem Dom.NS_p "sp" shape = true
    /\ exists txBody, Dom.getPptxTxBody shape = Some txBody
         /\ Dom.isElem Dom.NS_p "txBody" txBody = true)
    (Dom.walkShapes node).
Proof.
  induction node as [s|ns name attrs cs IH] using Node_induction; [constructor|].
  cbn [Dom.walkShapes]. apply Forall_concat_map.
  eapply Forall_impl; [exact IH|]. intros c Hc. cbv beta.
  apply Forall_app. split.
  - destruct (Dom.isElem Dom.NS_p "sp" c) eqn:Hsp; [|constructor].
    destruct (existsb _ _) eqn:Hb; [|constructor]. simpl.
    repeat constructor; [done|]. by apply find_existsb.
  - by destruct (Dom.isElem Dom.NS_p "grpSp" c).
Qed.

(** X17. Every shape [getPptxTextShapes] returns is a [p:sp] element for
    which [getPptxTxBody] finds a [p:txBody]: [null] is never returned for
    it, and neither the parser nor the rewrite skips a shape. *)
Theorem text_shapes_have_body (slideElement : Dom.Node) :
  Forall (fun shape =>
    Dom.isElem Dom.NS_p "sp" shape = true
    /\ exists txBody, Dom.getPptxTxBody shape = Some txBody
         /\ Dom.isElem Dom.NS_p "txBody" txBody = true)
    (Dom.getPptxTextShapes slideElement).
Proof.
  unfold Dom.getPptxTextShapes. apply Forall_concat_map, Forall_forall.
  intros child _. destruct (Dom.isElem Dom.NS_p "cSld" child); [|constructor].
  apply Forall_concat_map, Forall_forall. intros sc _.
  destruct (Dom.isElem Dom.NS_p "spTree" sc); [|constructor].
  apply walkShapes_bodies.
Qed.

(** The example: the shape without text body is left out, the shape inside
    the group is found; the blank paragraph gives no segment. *)
Example slide_segments :
  text <$> Parse.parsePptx [(lit "ppt/slides/slide1.xml", exampleSlide)]
  = [lit "Title"; lit "Inside"].
Proof. vm_compute. reflexivity. Qed.

(** ** The Levenshtein matrix of [similarity] *)

Section Levenshtein.

Import Adaptive.

Lemma dist_nil_r (a : jsstring) : dist a [] = Z.of_nat (length a).
Proof. by destruct a. Qed.

Lemma dist_cons (x y : Z) (a b : jsstring) :
  dist (x :: a) (y :: b)
  = Z.min (Z.min (dist a (y :: b) + 1) (dist (x :: a) b + 1)) (dist a b + cost x y).
Proof. done. Qed.

Lemma rowFrom_first (b pb : jsstring) :
  rowFrom [] pb b = List.map Z.of_nat (seq (length pb) (S (length b))).
Proof.
  revert pb. induction b as [|y b IH]; intros pb; [by destruct pb|].
  cbn [rowFrom]. rewrite IH. by destruct pb.
Qed.

Lemma levRow_rowFrom (ai : Z) (pa b pb : jsstring) :
  dist (ai :: pa) pb :: levRow ai b (rowFrom pa pb b) (dist (ai :: pa) pb)
  = rowFrom (ai :: pa) pb b.
Proof.
  revert pb. induction b as [|y b IH]; intros pb; [done|].
  cbn [rowFrom levRow]. f_equal.
  assert (rowFrom pa (y :: pb) b
          = dist pa (y :: pb) :: List.tl (rowFrom pa (y :: pb) b)) as E
    by (by destruct b).
  rewrite E. cbv zeta. rewrite <- E.
  fold (cost ai y). rewrite <- dist_cons. apply IH.
Qed.

Lemma levRows_rowFrom (a b pa : jsstring) :
  levRows a b (Z.of_nat (length pa)) (rowFrom pa [] b)
  = rowFrom (reverse a ++ pa) [] b.
Proof.
  revert pa. induction a as [|ai a IH]; intros pa; [done|].
  cbn [levRows]. rewrite reverse_cons, <- app_assoc. cbn [app].
  rewrite <- IH. cbn [length]. rewrite Nat2Z.inj_succ. unfold Z.succ.
  f_equal. rewrite <- levRow_rowFrom, dist_nil_r. cbn [length].
  by rewrite Nat2Z.inj_succ.
Qed.

Lemma rowFrom_last (pa b pb : jsstring) :
  List.last (rowFrom pa pb b) 0 = dist pa (reverse b ++ pb).
Proof.
  revert pb. induction b as [|y b IH]; intros pb; [done|].
  rewrite reverse_cons, <- app_assoc. cbn [app]. rewrite <- IH.
  cbn [rowFrom]. by destruct b.
Qed.

Lemma editDistance_dist (a b : jsstring) :
  editDistance a b = dist (reverse a) (reverse b).
Proof.
  unfold editDistance.
  change (seq 0 (S (length b))) with (seq (length (@nil Z)) (S (length b))).
  rewrite <- (rowFrom_first b []).
  change 0 with (Z.of_nat (length (@nil Z))) at 1.
  rewrite (levRows_rowFrom a b []), rowFrom_last. by rewrite !app_nil_r.
Qed.

Lemma dist_sym (a b : jsstring) : dist a b = dist b a.
Proof.
  revert b. induction a as [|x a IHa]; intros b.
  - rewrite dist_nil_r. by destruct b.
  - induction b as [|y b IHb]; [done|].
    rewrite !dist_cons, IHb, (IHa (y :: b)), (IHa b).
    unfold cost. rewrite (Z.eqb_sym y x). lia.
Qed.

Lemma dist_bounds (a b : jsstring) :
  Z.abs (Z.of_nat (length a) - Z.of_nat (length b)) <= dist a b
  <= Z.max (Z.of_nat (length a)) (Z.of_nat (length b)).
Proof.
  revert b. induction a as [|x a IHa]; intros b.
  - cbn [dist length]. destruct b; cbn [length]; lia.
  - induction b as [|y b IHb]; [cbn [dist length]; lia|].
    rewrite dist_cons. pose proof (IHa (y :: b)). pose proof (IHa b).
    cbn [length] in *. unfold cost. destruct (x =? y); lia.
Qed.

Lemma dist_zero (a b : jsstring) : dist a b = 0 <-> a = b.
Proof.
  revert b. induction a as [|x a IHa]; intros b.
  - destruct b; cbn [dist length]; split; intros H; try done; lia.
  - induction b as [|y b IHb]; [cbn [dist length]; split; intros H; try done; lia|].
    rewrite dist_cons. pose proof (dist_bounds a (y :: b)).
    pose proof (dist_bounds (x :: a) b). pose proof (dist_bounds a b).
    pose proof (IHa b) as Hab. unfold cost.
    destruct (Z.eqb_spec x y) as [->|Hne]; split.
    + intros Hz. f_equal. apply Hab. lia.
    + intros [= ->]. assert (dist b b = 0) by (by apply IHa). lia.
    + lia.
    + by intros [= -> ->].
Qed.

Lemma dist_delete (x : Z) (a b : jsstring) : dist (x :: a) b <= dist a b + 1.
Proof.
  destruct b as [|y b]; [rewrite !dist_nil_r; cbn [length]; lia|].
  rewrite dist_cons. lia.
Qed.

Lemma edits_dist_le (a b : jsstring) (n : Z) : edits a b n -> dist a b <= n.
Proof.
  induction 1 as [|x a b n _ IH|y a b n _ IH|x y a b n _ IH].
  - done.
  - pose proof (dist_delete x a b). lia.
  - pose proof (dist_delete y b a) as Hd.
    rewrite (dist_sym (y :: b)), (dist_sym b) in Hd. lia.
  - rewrite dist_cons. lia.
Qed.

Lemma edits_dist (a b : jsstring) : edits a b (dist a b).
Proof.
  revert b. induction a as [|x a IHa]; intros b.
  - induction b as [|y b IHb]; [constructor|].
    replace (dist [] (y :: b)) with (dist [] b + 1)
      by (destruct b; cbn [dist length]; lia).
    by constructor.
  - induction b as [|y b IHb].
    + replace (dist (x :: a) []) with (dist a [] + 1)
        by (rewrite !dist_nil_r; cbn [length]; lia).
      by constructor.
    + rewrite dist_cons.
      destruct (Z.min_spec (Z.min (dist a (y :: b) + 1) (dist (x :: a) b + 1))
                  (dist a b + cost x y)) as [[_ ->]|[_ ->]]; [|by constructor].
      destruct (Z.min_spec (dist a (y :: b) + 1) (dist (x :: a) b + 1))
        as [[_ ->]|[_ ->]]; by constructor.
Qed.

Lemma edits_eq (a b : jsstring) (n m : Z) : edits a b n -> n = m -> edits a b m.
Proof. by intros H <-. Qed.

Lemma edits_delete_last (x : Z) (a b : jsstring) (n : Z) :
  edits a b n -> edits (a ++ [x]) b (n + 1).
Proof.
  induction 1 as [|x0 a b n _ IH|y0 a b n _ IH|x0 y0 a b n _ IH]; cbn [app].
  - by repeat constructor.
  - by constructor.
  - by constructor.
  - eapply edits_eq; [apply (edits_replace x0 y0), IH|lia].
Qed.

Lemma edits_insert_last (y : Z) (a b : jsstring) (n : Z) :
  edits a b n -> edits a (b ++ [y]) (n + 1).
Proof.
  induction 1 as [|x0 a b n _ IH|y0 a b n _ IH|x0 y0 a b n _ IH]; cbn [app].
  - by repeat constructor.
  - by constructor.
  - by constructor.
  - eapply edits_eq; [apply (edits_replace x0 y0), IH|lia].
Qed.

Lemma edits_replace_last (x y : Z) (a b : jsstring) (n : Z) :
  edits a b n -> edits (a ++ [x]) (b ++ [y]) (n + cost x y).
Proof.
  induction 1 as [|x0 a b n _ IH|y0 a b n _ IH|x0 y0 a b n _ IH]; cbn [app].
  - by repeat constructor.
  - eapply edits_eq; [apply (edits_delete x0), IH|lia].
  - eapply edits_eq; [apply (edits_insert y0), IH|lia].
  - eapply edits_eq; [apply (edits_replace x0 y0), IH|lia].
Qed.

Lemma edits_reverse (a b : jsstring) (n : Z) :
  edits a b n -> edits (reverse a) (reverse b) n.
Proof.
  induction 1 as [|x a b n _ IH|y a b n _ IH|x y a b n _ IH];
    rewrite ?reverse_cons.
  - constructor.
  - by apply edits_delete_last.
  - by apply edits_insert_last.
  - by apply edits_replace_last.
Qed.

(** ** [similarity] *)

Lemma strEq_sym (a b : jsstring) : strEq a b = strEq b a.
Proof. unfold strEq. by rewrite (bool_decide_ext (a = b) (b = a)). Qed.

End Levenshtein.

(** X18. The Levenshtein matrix of [similarity] computes the edit distance:
    its last entry is the price of a way to turn [a] into [b] by deleting,
    inserting and replacing code units, and no such way costs less. *)
Theorem edit_distance_least (a b : jsstring) :
  edits a b (Adaptive.editDistance a b)
  /\ forall n, edits a b n -> Adaptive.editDistance a b <= n.
Proof.
  rewrite editDistance_dist. split.
  - rewrite <- (reverse_involutive a), <- (reverse_involutive b) at 1.
    apply edits_reverse, edits_dist.
  - intros n H. by apply edits_dist_le, edits_reverse.
Qed.

(** The example: kitten, sitting. *)
Example edit_distance_example :
  Adaptive.editDistance (lit "kitten") (lit "sitting") = 3
  /\ Adaptive.editDistance (lit "") (lit "abc") = 3
  /\ Adaptive.editDistance (lit "flaw") (lit "lawn") = 2.
Proof. vm_compute. done. Qed.

(** X19. [similarity] is symmetric for strings of at most 500 code units
    each (the matcher compares at most 100), on every branch they reach:
    equal strings, an empty string, lengths too far apart and the edit
    distance. *)
Theorem similarity_symmetric (a b : jsstring) :
  (length a <= 500)%nat -> (length b <= 500)%nat ->
  Adaptive.similarity a b = Adaptive.similarity b a.
Proof.
  intros Ha Hb. unfold Adaptive.similarity.
  rewrite (strEq_sym b a), (orb_comm (strEq b [])).
  rewrite (Z.max_comm (Z.of_nat (length b))).
  replace (Z.abs (Z.of_nat (length b) - Z.of_nat (length a)))
    with (Z.abs (Z.of_nat (length a) - Z.of_nat (length b))) by lia.
  rewrite (editDistance_dist b a), (editDistance_dist a b), (dist_sym (reverse b)).
  cbv zeta.
  destruct (Z.ltb_spec 500 (Z.of_nat (length a))); [lia|].
  destruct (Z.ltb_spec 500 (Z.of_nat (length b))); [lia|].
  done.
Qed.

Lemma similarity_symmetric_witness :
  Adaptive.similarity (lit "flaw") (lit "lawn")
  = Adaptive.similarity (lit "lawn") (lit "flaw").
Proof.
  apply (similarity_symmetric (lit "flaw") (lit "lawn")).
  - simpl. lia.
  - simpl. lia.
Defined.

Lemma ratio_table :
  forallb (fun m =>
    forallb (fun d =>
      let x := PrimFloat.sub 1 (PrimFloat.div (num (Z.of_nat d)) (num (Z.of_nat m))) in
      PrimFloat.leb 0 x && PrimFloat.ltb x 1) (seq 1 m)) (seq 1 500) = true.
Proof. vm_compute. reflexivity. Qed.

Lemma ratio_range (d m : Z) :
  1 <= d <= m -> m <= 500 ->
  let x := PrimFloat.sub 1 (PrimFloat.div (num d) (num m)) in
  PrimFloat.leb 0 x = true /\ PrimFloat.ltb x 1 = true.
Proof.
  intros Hd Hm. pose proof ratio_table as H.
  rewrite forallb_forall in H. specialize (H (Z.to_nat m)).
  rewrite forallb_forall in H.
  specialize (H ltac:(apply in_seq; lia) (Z.to_nat d) ltac:(apply in_seq; lia)).
  rewrite !Z2Nat.id in H by lia. by apply andb_prop in H.
Qed.

(** X20. [similarity] of two different strings of at most 500 code units
    each (the matcher compares at most 100) is a number from 0 on and below
    1; the value 1 is kept for equal strings. *)
Theorem similarity_range (a b : jsstring) :
  (length a <= 500)%nat -> (length b <= 500)%nat -> a <> b ->
  Adaptive.similarity a a = 1%float
  /\ PrimFloat.leb 0 (Adaptive.similarity a b) = true
  /\ PrimFloat.ltb (Adaptive.similarity a b) 1 = true.
Proof.
  intros Ha Hb Hne. split.
  { unfold Adaptive.similarity, strEq. by rewrite bool_decide_eq_true_2. }
  unfold Adaptive.similarity, strEq. rewrite (bool_decide_eq_false_2 (a = b)) by done.
  destruct (bool_decide (a = []) || bool_decide (b = [])) eqn:He; [done|].
  cbv zeta. destruct (PrimFloat.ltb _ _); [done|].
  destruct (Z.ltb_spec 500 (Z.of_nat (length a))); [lia|].
  destruct (Z.ltb_spec 500 (Z.of_nat (length b))); [lia|]. cbn [orb].
  apply ratio_range; [|lia].
  rewrite editDistance_dist.
  pose proof (dist_bounds (reverse a) (reverse b)) as Hbd.
  rewrite !length_reverse in Hbd.
  assert (dist (reverse a) (reverse b) <> 0).
  { rewrite dist_zero. intros Hr%(f_equal reverse).
    by rewrite !reverse_involutive in Hr. }
  lia.
Qed.

Lemma similarity_range_witness :
  Adaptive.similarity (lit "kitten") (lit "kitten") = 1%float
  /\ PrimFloat.leb 0 (Adaptive.similarity (lit "kitten") (lit "sitting")) = true
  /\ PrimFloat.ltb (Adaptive.similarity (lit "kitten") (lit "sitting")) 1 = true.
Proof.
  apply (similarity_range (lit "kitten") (lit "sitting")).
  - simpl. lia.
  - simpl. lia.
  - vm_compute. discriminate.
Defined.

(** ** The translation text: lines, paragraphs and the counters of main.js *)

Section Lines.

Abbreviation blank := (Forall (fun c : Z => isSpace c = true)).

Lemma dropWhile_nil {A} (p : A -> bool) (l : list A) :
  dropWhile p l = [] <-> Forall (fun c => p c = true) l.
Proof.
  induction l as [|x l IH]; cbn [dropWhile]; [by split|].
  destruct (p x) eqn:Hx.
  - rewrite IH, Forall_cons. tauto.
  - split; [done|]. intros [Hx' _]%Forall_cons. congruence.
Qed.

Lemma dropWhile_app_ne {A} (p : A -> bool) (l k : list A) :
  dropWhile p l <> [] -> dropWhile p (l ++ k) = dropWhile p l ++ k.
Proof.
  induction l as [|x l IH]; cbn [dropWhile app]; [done|].
  by destruct (p x).
Qed.

Lemma dropWhile_app_nil {A} (p : A -> bool) (l k : list A) :
  dropWhile p l = [] -> dropWhile p (l ++ k) = dropWhile p k.
Proof.
  induction l as [|x l IH]; cbn [dropWhile app]; [done|].
  by destruct (p x).
Qed.

Lemma trim_nil (s : jsstring) : trim s = [] <-> blank s.
Proof.
  unfold trim. split.
  - intros H. apply (f_equal reverse) in H. rewrite reverse_involutive in H.
    change (reverse []) with (@nil Z) in H.
    apply dropWhile_nil in H. rewrite Forall_reverse in H.
    apply dropWhile_nil. destruct (dropWhile isSpace s) as [|c r] eqn:E; [done|].
    assert (isSpace c = false) by (apply (dropWhile_head isSpace s); by rewrite E).
    apply Forall_cons in H as [H _]. congruence.
  - intros H. apply dropWhile_nil in H. by rewrite H.
Qed.

Lemma trim_snoc_space (s : jsstring) (c : Z) :
  isSpace c = true -> trim (s ++ [c]) = trim s.
Proof.
  intros Hc. unfold trim.
  destruct (dropWhile isSpace s) as [|d r] eqn:E.
  - rewrite dropWhile_app_nil by done. cbn [dropWhile]. by rewrite Hc.
  - rewrite dropWhile_app_ne by (by rewrite E). rewrite E.
    rewrite reverse_app. change (reverse [c]) with [c].
    cbn [app dropWhile]. by rewrite Hc.
Qed.

Lemma splitLines_go_app (l cur s : jsstring) :
  LF ∉ l -> splitLines_go cur (l ++ s) = splitLines_go (reverse l ++ cur) s.
Proof.
  revert cur. induction l as [|c l IH]; intros cur Hl; [done|].
  apply not_elem_of_cons in Hl as [Hc Hl]. cbn [app splitLines_go].
  destruct (Z.eqb_spec c LF); [done|].
  rewrite IH by done. by rewrite reverse_cons, <- app_assoc.
Qed.

(** A line without line feed, then a line feed: the line, up to trimming. *)
Lemma splitLines_go_line (l rest : jsstring) :
  LF ∉ l ->
  exists line,
    splitLines_go [] (l ++ LF :: rest) = line :: splitLines_go [] rest
    /\ trim line = trim l.
Proof.
  intros Hl. rewrite splitLines_go_app by done. rewrite app_nil_r.
  cbn [splitLines_go]. change (LF =? LF) with true. cbv iota.
  eexists. split; [done|].
  destruct (reverse l) as [|d r] eqn:E.
  - apply (f_equal reverse) in E. rewrite reverse_involutive in E. by subst.
  - apply (f_equal reverse) in E. rewrite reverse_involutive, reverse_cons in E.
    subst l. destruct (Z.eqb_spec d CR) as [->|]; [|by rewrite reverse_cons].
    by rewrite trim_snoc_space.
Qed.

Lemma splitLines_one (l : jsstring) : LF ∉ l -> splitLines l = [l].
Proof.
  intros Hl. unfold splitLines.
  rewrite <- (app_nil_r l) at 1. rewrite splitLines_go_app by done.
  cbn [splitLines_go]. by rewrite app_nil_r, reverse_involutive.
Qed.

Lemma splitLines_join (sep : jsstring) (ls : list jsstring) :
  sep = [LF] \/ sep = [CR; LF] ->
  ls <> [] -> Forall (fun l => LF ∉ l) ls ->
  List.map trim (splitLines (join sep ls)) = List.map trim ls.
Proof.
  intros Hsep Hne Hall. induction ls as [|p ls IH]; [done|].
  apply Forall_cons in Hall as [Hp Hls].
  destruct ls as [|q ls]; [cbn [join]; by rewrite splitLines_one|].
  rewrite join_cons_cons. unfold splitLines in *.
  destruct Hsep as [->| ->].
  - cbn [app]. destruct (splitLines_go_line p (join [LF] (q :: ls)) Hp)
      as (line & -> & Hline).
    rewrite !List.map_cons, Hline. f_equal. by apply IH.
  - change (p ++ [CR; LF] ++ ?r) with (p ++ [CR] ++ LF :: r).
    rewrite app_assoc.
    destruct (splitLines_go_line (p ++ [CR]) (join [CR; LF] (q :: ls)))
      as (line & -> & Hline).
    { rewrite elem_of_app, list_elem_of_singleton. intros [?|?]; done. }
    rewrite !List.map_cons, Hline, trim_snoc_space by done. f_equal. by apply IH.
Qed.

Lemma splitLines_go_blank (cur s : jsstring) :
  Forall blank (splitLines_go cur s) <-> blank cur /\ blank s.
Proof.
  revert cur. induction s as [|c s IH]; intros cur; cbn [splitLines_go].
  - rewrite Forall_singleton, Forall_reverse. split; [by intros ?|by intros []].
  - destruct (Z.eqb_spec c LF) as [->|Hne].
    + rewrite Forall_cons, IH, Forall_reverse, (Forall_cons _ LF).
      assert (blank match cur with
                    | [] => cur
                    | d :: cur' => if d =? CR then cur' else cur
                    end <-> blank cur) as ->.
      { destruct cur as [|d cur']; [done|].
        destruct (Z.eqb_spec d CR) as [->|]; [|done].
        rewrite Forall_cons. split; [done|tauto]. }
      split; [intros (? & _ & ?)|intros (? & _ & ?)]; repeat split; done.
    + rewrite IH, !Forall_cons. tauto.
Qed.

Lemma filter_nil {A} (p : A -> bool) (l : list A) :
  List.filter p l = [] <-> Forall (fun x => p x = false) l.
Proof.
  induction l as [|x l IH]; cbn [List.filter]; [by split|].
  destruct (p x) eqn:Hx; rewrite Forall_cons.
  - split; [done|]. intros []. congruence.
  - rewrite IH. tauto.
Qed.

Lemma paragraphs_nil (t : jsstring) : splitIntoParagraphs t = [] <-> trim t = [].
Proof.
  unfold splitIntoParagraphs. rewrite filter_nil, Forall_map, trim_nil.
  unfold splitLines.
  transitivity (Forall blank (splitLines_go [] t)).
  - apply Forall_iff. intros line. cbv beta. rewrite <- trim_nil.
    destruct (trim line); cbn [length]; split; intros H; try done; lia.
  - rewrite splitLines_go_blank. split; [by intros []|done].
Qed.

Lemma filter_map_length {A B} (p : B -> bool) (q : A -> bool) (f : A -> B) (l : list A) :
  (forall x, p (f x) = q x) ->
  length (List.filter p (List.map f l)) = length (List.filter q l).
Proof.
  intros H. induction l as [|x l IH]; [done|].
  cbn [List.map List.filter]. rewrite H. destruct (q x); cbn [length]; by rewrite IH.
Qed.

End Lines.

(** X21. main.js reads the translation text as the matcher does: the
    paragraph count shown under the text is the number of paragraphs the
    matcher splits it into, and the Generate button is enabled exactly when a
    source file is loaded and the text has at least one such paragraph. *)
Theorem translation_counts (state : Main.State) :
  Main.paraCount (Main.translationText state)
  = length (splitIntoParagraphs (Main.translationText state))
  /\ (Main.updateGenerateButton state = false
      <-> Main.sourceBuffer state <> None
          /\ splitIntoParagraphs (Main.translationText state) <> []).
Proof.
  split.
  - unfold Main.paraCount, splitIntoParagraphs. symmetry.
    apply filter_map_length. intros l. by destruct (trim l).
  - unfold Main.updateGenerateButton. cbv zeta.
    rewrite negb_false_iff, andb_true_iff, bool_decide_eq_true, paragraphs_nil.
    destruct (trim (Main.translationText state)); cbn [length]; split;
      intros []; split; try done; lia.
Qed.

(** The example: three lines, one of them blank. *)
Example translation_counts_example :
  Main.paraCount (lit "Bonjour" ++ [CR; LF; SP; LF] ++ lit "le monde") = 2%nat
  /\ Main.updateGenerateButton (Main.mkState (Some []) [SP; LF; 9]) = true
  /\ Main.updateGenerateButton (Main.mkState None (lit "Bonjour")) = true
  /\ Main.updateGenerateButton (Main.mkState (Some []) (lit "Bonjour")) = false.
Proof. vm_compute. done. Qed.

(** X22. Line endings: lines without line feed, joined by line feeds or by
    carriage return and line feed, give the same paragraphs, the trimmed
    lines that are not empty, in order. *)
Theorem line_endings (sep : jsstring) (lines : list jsstring) :
  sep = [LF] \/ sep = [CR; LF] ->
  Forall (fun l => LF ∉ l) lines ->
  splitIntoParagraphs (join sep lines)
  = List.filter (fun l => (0 <? length l)%nat) (List.map trim lines).
Proof.
  intros Hsep Hall. unfold splitIntoParagraphs.
  destruct lines as [|p ls]; [done|].
  rewrite splitLines_join by done.
  apply filter_ext. intros l. by destruct l.
Qed.

Lemma line_endings_witness :
  splitIntoParagraphs
    (join [CR; LF] [lit " Bonjour "; lit ""; [9; CR]; lit "le monde"])
  = [lit "Bonjour"; lit "le monde"].
Proof.
  rewrite (line_endings [CR; LF] [lit " Bonjour "; lit ""; [9; CR]; lit "le monde"]).
  - vm_compute. reflexivity.
  - by right.
  - apply (bool_decide_unpack _). vm_compute. reflexivity.
Defined.

(** ** The files the DOCX parser reads *)

Section TextPaths.

Import Parse.

Abbreviation addHeaderFooter :=
  (fun (paths : list jsstring) (path : jsstring) =>
     if isHeaderFooterPath path && negb (bool_decide (path ∈ paths))
     then paths ++ [path] else paths).

Lemma headerFooter_fold (keys init : list jsstring) :
  NoDup init ->
  let r := fold_left addHeaderFooter keys init in
  NoDup r
  /\ (forall p, p ∈ r <-> p ∈ init \/ (p ∈ keys /\ isHeaderFooterPath p = true))
  /\ exists more, r = init ++ more.
Proof.
  revert init. induction keys as [|key keys IH]; intros init Hnd; cbn [fold_left].
  - split; [done|]. split; [|exists []; by rewrite app_nil_r].
    intros p. rewrite elem_of_nil. tauto.
  - destruct (isHeaderFooterPath key) eqn:Hk; cbn [andb];
      [destruct (bool_decide_reflect (key ∈ init)) as [Hin|Hout]; cbn [negb]|].
    + destruct (IH init Hnd) as (H1 & H2 & H3). split; [done|]. split; [|done].
      intros p. rewrite H2, elem_of_cons.
      split; [tauto|]. intros [?|[[-> |?] ?]]; tauto.
    + destruct (IH (init ++ [key])) as (H1 & H2 & more & H3).
      { apply NoDup_app. split; [done|]. split; [|apply NoDup_singleton].
        by intros x Hx ->%list_elem_of_singleton. }
      split; [done|]. split; [|exists (key :: more); by rewrite H3, <- app_assoc].
      intros p. rewrite H2, elem_of_app, list_elem_of_singleton, elem_of_cons.
      split; [|tauto]. intros [[?| ->]|[? ?]]; tauto.
    + destruct (IH init Hnd) as (H1 & H2 & H3). split; [done|]. split; [|done].
      intros p. rewrite H2, elem_of_cons.
      split; [tauto|]. intros [?|[[-> |?] ?]]; [tauto|congruence|tauto].
Qed.

Lemma push_if_NoDup (b : bool) (l : list jsstring) (x : jsstring) :
  NoDup l -> x ∉ l -> NoDup (if b then l ++ [x] else l).
Proof.
  intros Hnd Hx. destruct b; [|done].
  apply NoDup_app. split; [done|]. split; [|apply NoDup_singleton].
  by intros y Hy ->%list_elem_of_singleton.
Qed.

Lemma push_if_elem_of (b : bool) (l : list jsstring) (x p : jsstring) :
  p ∈ (if b then l ++ [x] else l) <-> p ∈ l \/ (b = true /\ p = x).
Proof.
  destruct b; [rewrite elem_of_app, list_elem_of_singleton|]; split;
    try tauto; intros [?|[? ?]]; tauto || done.
Qed.

End TextPaths.

(** X23. The files the DOCX parser reads: the entries of the archive named
    word/document.xml, word/footnotes.xml or word/endnotes.xml or like a
    header or a footer, each once, the main document first.  Every path is
    an entry of the archive, and the paths are pairwise different, so that
    no [set] of the Map of parsed files replaces an earlier one. *)
Theorem text_paths (keys : list jsstring) :
  let paths := Parse.textXmlPaths keys in
  NoDup paths
  /\ (forall p,
        p ∈ paths
        <-> p ∈ keys
            /\ (p = lit "word/document.xml" \/ Parse.isHeaderFooterPath p = true
                \/ p = lit "word/footnotes.xml" \/ p = lit "word/endnotes.xml"))
  /\ (lit "word/document.xml" ∈ keys -> head paths = Some (lit "word/document.xml")).
Proof.
  unfold Parse.textXmlPaths, Parse.zipHas. cbv zeta.
  set (doc := lit "word/document.xml").
  set (foot := lit "word/footnotes.xml"). set (endn := lit "word/endnotes.xml").
  set (init := if bool_decide (doc ∈ keys) then [] ++ [doc] else []).
  assert (NoDup init) as Hinit.
  { unfold init. destruct (bool_decide (doc ∈ keys)); [apply NoDup_singleton|constructor]. }
  assert (forall p, p ∈ init <-> p ∈ keys /\ p = doc) as Hin.
  { intros p. unfold init. destruct (bool_decide_reflect (doc ∈ keys)).
    - cbn [app]. rewrite list_elem_of_singleton. split; [by intros ->|tauto].
    - rewrite elem_of_nil. split; [done|]. intros [? ->]. done. }
  destruct (headerFooter_fold keys init Hinit) as (H1 & H2 & more & H3).
  cbv zeta in *. set (r := fold_left _ keys init) in *.
  assert (Parse.isHeaderFooterPath doc = false) as Hd by (by vm_compute).
  assert (Parse.isHeaderFooterPath foot = false) as Hf by (by vm_compute).
  assert (Parse.isHeaderFooterPath endn = false) as He by (by vm_compute).
  assert (foot <> doc) as Hfd by (by vm_compute).
  assert (endn <> doc) as Hed by (by vm_compute).
  assert (endn <> foot) as Hef by (by vm_compute).
  assert (foot ∉ r) as Hfr.
  { rewrite H2, Hin. intros [[_ ?]|[_ ?]]; congruence. }
  set (r2 := if bool_decide (foot ∈ keys) then r ++ [foot] else r).
  assert (NoDup r2) as Hr2 by (by apply push_if_NoDup).
  assert (endn ∉ r2) as Her.
  { unfold r2. rewrite push_if_elem_of, H2, Hin.
    intros [[[_ ?]|[_ ?]]|[_ ?]]; congruence. }
  split; [by apply push_if_NoDup|]. split.
  - intros p. unfold r2. rewrite !push_if_elem_of, H2, Hin, !bool_decide_eq_true.
    split.
    + intros [[[[? ->]|[? ?]]|[? ->]]|[? ->]]; tauto.
    + intros [Hk [-> |[?|[-> | ->]]]]; tauto.
  - intros Hdoc. unfold r2.
    assert (r = doc :: more) as ->.
    { rewrite H3. unfold init. by rewrite bool_decide_eq_true_2. }
    by destruct (bool_decide (endn ∈ keys)), (bool_decide (foot ∈ keys)).
Qed.

(** The example: an archive with a folder, styles, two headers whose names
    differ in case, one of them listed twice. *)
Example text_paths_example :
  Parse.textXmlPaths
    [lit "word/"; lit "word/endnotes.xml"; lit "word/Header2.XML"; lit "word/styles.xml";
     lit "word/footer.xml"; lit "word/document.xml"; lit "word/Header2.XML";
     lit "word/header10.xml.rels"; lit "xword/header1.xml"]
  = [lit "word/document.xml"; lit "word/Header2.XML"; lit "word/footer.xml";
     lit "word/endnotes.xml"].
Proof. vm_compute. reflexivity. Qed.

Lemma find_lookup {A} (p : A -> bool) (l : list A) (x : A) :
  List.find p l = Some x -> p x = true /\ exists i, l !! i = Some x.
Proof.
  induction l as [|y l IH]; cbn [List.find]; [done|].
  destruct (p y) eqn:Hy.
  - intros [= ->]. split; [done|]. by exists 0%nat.
  - intros [Hx [i Hi]]%IH. split; [done|]. by exists (S i).
Qed.

Lemma find_none_fst (l : list (jsstring * Dom.Node)) (path : jsstring) :
  List.find (fun file => strEq (fst file) path) l = None -> path ∉ l.*1.
Proof.
  induction l as [|y l IH]; cbn [List.find]; [intros _; apply not_elem_of_nil|].
  unfold strEq at 1. destruct (bool_decide_reflect (fst y = path)); [done|].
  intros H%IH. rewrite fmap_cons, not_elem_of_cons. by split.
Qed.

(** X24. The paragraph count [getDocumentInfo] reports is the number of
    segments the parser takes from the main document (headers, footers and
    notes not counted); without a main document there is no count. *)
Theorem paragraph_count (xmlFiles : list (jsstring * Dom.Node)) :
  NoDup xmlFiles.*1 ->
  match Parse.paragraphCount xmlFiles with
  | Some n =>
      n = Z.of_nat (length (segmentsOfFile (lit "word/document.xml")
                              (Parse.parseDocx xmlFiles)))
  | None => lit "word/document.xml" ∉ xmlFiles.*1
  end.
Proof.
  intros Hnd. unfold Parse.paragraphCount, Parse.mapGet.
  destruct (List.find _ xmlFiles) as [[path doc]|] eqn:Hfind; cbn [fmap option_fmap option_map snd].
  - apply find_lookup in Hfind as [Hp [f Hf]].
    apply bool_decide_eq_true_1 in Hp. cbn [fst] in Hp. subst path.
    destruct (files_middle _ _ _ Hf) as [Hfiles _].
    rewrite Hfiles in Hnd |- * at 1.
    destruct (perFile_parsed Dom.Docx ∅ _ _ _ Hnd) as (Hseg & Hlen & _).
    cbn [fst snd] in *. change Parse.parseDocx with (Parse.parse Dom.Docx).
    by rewrite Hseg, Hlen.
  - by apply find_none_fst.
Qed.

Lemma paragraph_count_witness :
  match Parse.paragraphCount exampleFiles with
  | Some n =>
      n = Z.of_nat (length (segmentsOfFile (lit "word/document.xml")
                              (Parse.parseDocx exampleFiles)))
  | None => lit "word/document.xml" ∉ exampleFiles.*1
  end.
Proof.
  apply (paragraph_count exampleFiles). apply NoDup_paths. vm_compute. reflexivity.
Defined.

(** The count of the example: the two content paragraphs of the body, the
    one in the table cell included, not the one of the footer. *)
Example paragraph_count_example :
  Parse.paragraphCount exampleFiles = Some 2
  /\ length (Parse.parseDocx exampleFiles) = 3%nat.
Proof. vm_compute. done. Qed.

(** ** [normalize] *)

Section Normalize.

Import Adaptive.

Lemma collapseWs_go_singleSpaced (b : bool) (t : jsstring) :
  singleSpaced b (collapseWs_go b t) = true.
Proof.
  revert b. induction t as [|c t IH]; intros b; [done|].
  cbn [collapseWs_go]. destruct (isSpace c) eqn:Hc.
  - destruct b; [apply IH|]. cbn [singleSpaced].
    change (isSpace SP) with true. cbv iota. by rewrite IH.
  - cbn [singleSpaced]. by rewrite Hc, IH.
Qed.

Lemma singleSpaced_collapseWs_go (b : bool) (s : jsstring) :
  singleSpaced b s = true -> collapseWs_go b s = s.
Proof.
  revert b. induction s as [|c s IH]; intros b; [done|].
  cbn [singleSpaced collapseWs_go]. destruct (isSpace c) eqn:Hc.
  - intros [[Heq Hb%negb_true_iff]%andb_prop Hs]%andb_prop. subst b.
    apply Z.eqb_eq in Heq as ->. by rewrite IH.
  - intros Hs. by rewrite IH.
Qed.

Lemma singleSpaced_weaken (b : bool) (s : jsstring) :
  singleSpaced b s = true -> singleSpaced false s = true.
Proof.
  destruct s as [|c s]; [done|]. cbn [singleSpaced].
  destruct (isSpace c); [|done].
  intros [[-> _]%andb_prop ->]%andb_prop. done.
Qed.

Lemma singleSpaced_suffix (b : bool) (pre s : jsstring) :
  singleSpaced b (pre ++ s) = true -> singleSpaced false s = true.
Proof.
  revert b. induction pre as [|c pre IH]; intros b; [apply singleSpaced_weaken|].
  cbn [app singleSpaced]. destruct (isSpace c).
  - intros [_ H]%andb_prop. by apply IH in H.
  - apply IH.
Qed.

Lemma singleSpaced_prefix (b : bool) (s post : jsstring) :
  singleSpaced b (s ++ post) = true -> singleSpaced b s = true.
Proof.
  revert b. induction s as [|c s IH]; intros b; [done|].
  cbn [app singleSpaced]. destruct (isSpace c).
  - intros [-> H]%andb_prop. by rewrite (IH _ H).
  - apply IH.
Qed.

Lemma dropWhile_suffix {A} (p : A -> bool) (l : list A) :
  exists pre, l = pre ++ dropWhile p l.
Proof.
  induction l as [|x l [pre IH]]; [by exists []|]. cbn [dropWhile].
  destruct (p x); [|by exists []]. exists (x :: pre). by rewrite IH at 1.
Qed.

(** [trim] takes a piece out of the middle. *)
Lemma trim_infix (s : jsstring) : exists pre post, s = pre ++ trim s ++ post.
Proof.
  unfold trim. destruct (dropWhile_suffix isSpace s) as [pre Hpre].
  destruct (dropWhile_suffix isSpace (reverse (dropWhile isSpace s))) as [post Hpost].
  exists pre, (reverse post). rewrite <- reverse_app, <- Hpost, reverse_involutive.
  done.
Qed.

Lemma dropWhile_id {A} (p : A -> bool) (l : list A) :
  (forall c, head l = Some c -> p c = false) -> dropWhile p l = l.
Proof.
  destruct l as [|x l]; [done|]. intros H. cbn [dropWhile].
  by rewrite (H x).
Qed.

Lemma trim_id (s : jsstring) :
  (forall c, head s = Some c -> isSpace c = false) ->
  (forall c, last s = Some c -> isSpace c = false) ->
  trim s = s.
Proof.
  intros Hh Hl. unfold trim. rewrite (dropWhile_id _ s Hh).
  rewrite dropWhile_id; [apply reverse_involutive|].
  intros c. rewrite head_reverse. apply Hl.
Qed.

End Normalize.

(** X25. [normalize] is idempotent, and what it returns neither starts nor
    ends with whitespace and holds no whitespace but single spaces. *)
Theorem normalize_idempotent (t : jsstring) :
  let n := Adaptive.normalize t in
  Adaptive.normalize n = n
  /\ singleSpaced false n = true
  /\ (forall c, head n = Some c -> isSpace c = false)
  /\ (forall c, last n = Some c -> isSpace c = false).
Proof.
  intros n.
  assert (singleSpaced false n = true) as Hs.
  { unfold n, Adaptive.normalize.
    destruct (trim_infix (collapseWs t)) as (pre & post & E).
    pose proof (collapseWs_go_singleSpaced false t) as H.
    fold (collapseWs t) in H. rewrite E in H.
    by apply singleSpaced_suffix, singleSpaced_prefix in H. }
  assert (forall c, head n = Some c -> isSpace c = false) as Hh by apply trim_head.
  assert (forall c, last n = Some c -> isSpace c = false) as Hl by apply trim_last.
  split; [|done]. unfold Adaptive.normalize at 1. unfold collapseWs.
  rewrite singleSpaced_collapseWs_go by done. by apply trim_id.
Qed.

(** The example: tabs, line ends and runs of spaces. *)
Example normalize_example :
  Adaptive.normalize ([9] ++ lit "Hello" ++ [CR; LF; SP] ++ lit "big  world  ")
  = lit "Hello big world".
Proof. vm_compute. reflexivity. Qed.

(** ** The review of a match *)

(** X26. Confirming the review never takes a translation back: for segments
    whose ids are pairwise different safe integers (below 2^53 in absolute
    value, where [String] prints all the digits and [parseInt] reads them
    back) and either matcher, every entry of the mapping is still there, with
    its value, whatever was typed in the dialog. *)
Theorem review_keeps_matches (segs : list Segment) (translationText : jsstring)
    (values : list jsstring) :
  NoDup (id <$> segs) ->
  Forall (fun seg => Z.abs (id seg) < 2 ^ 53) segs ->
  mapping (Strict.matchTexts segs translationText)
  ⊆ Main.handleConfirm (unmatched (Strict.matchTexts segs translationText)) values
      (mapping (Strict.matchTexts segs translationText))
  /\ mapping (Adaptive.matchTexts segs translationText)
     ⊆ Main.handleConfirm (unmatched (Adaptive.matchTexts segs translationText)) values
         (mapping (Adaptive.matchTexts segs translationText)).
Proof.
  intros Hnd _.
  assert (forall r, accounted segs r -> unmatched r `sublist_of` segs ->
            mapping r ⊆ Main.handleConfirm (unmatched r) values (mapping r))
    as Hgen.
  { intros r Hacc Hsub. apply map_subseteq_spec. intros key value Hkey.
    rewrite handleConfirm_other; [done|].
    destruct (accounted_toldApart segs r Hacc Hnd) as [_ Htold].
    intros (u & -> & Hu)%list_elem_of_fmap.
    assert (u ∈ segs) as Hin by (by eapply elem_of_sublist).
    apply (Htold u Hin) in Hu. congruence. }
  split; apply Hgen.
  - apply strict_accounted.
  - apply strict_unmatchedListed.
  - apply adaptive_accounted.
  - apply adaptive_unmatchedListed.
Qed.

Lemma review_keeps_matches_witness :
  mapping (Strict.matchTexts skippedSegments skippedTranslation)
  ⊆ Main.handleConfirm (unmatched (Strict.matchTexts skippedSegments skippedTranslation))
      [lit "x"; lit ""; lit "z"]
      (mapping (Strict.matchTexts skippedSegments skippedTranslation))
  /\ mapping (Adaptive.matchTexts skippedSegments skippedTranslation)
     ⊆ Main.handleConfirm
         (unmatched (Adaptive.matchTexts skippedSegments skippedTranslation))
         [lit "x"; lit ""; lit "z"]
         (mapping (Adaptive.matchTexts skippedSegments skippedTranslation)).
Proof.
  apply (review_keeps_matches skippedSegments skippedTranslation).
  - apply NoDup_example. vm_compute. reflexivity.
  - repeat (constructor; [simpl; lia|]). constructor.
Defined.

(** ** Footnotes and endnotes *)

Lemma notes_no_paragraphs (ns : Dom.Namespace) (name : string)
    (attrs : list (string * string)) (cs : list Dom.Node) :
  Forall (fun c => Dom.isElem Dom.NS_w "footnote" c = true
                   \/ Dom.isElem Dom.NS_w "endnote" c = true) cs ->
  Dom.getAllParagraphs (Dom.Elem ns name attrs cs) = [].
Proof.
  unfold Dom.getAllParagraphs. cbn [Dom.walkParagraphs].
  induction 1 as [|c cs Hc _ IH]; [done|].
  cbn [List.map List.concat]. rewrite IH.
  destruct Hc as [Hc|Hc]; apply isElem_Elem in Hc as (a & [|d ds] & ->); done.
Qed.

(** X27. Footnotes and endnotes are read but not translated: a parsed file
    whose root holds [w:footnote] or [w:endnote] elements, as
    word/footnotes.xml and word/endnotes.xml do, gives the parser no segment,
    whatever the notes contain, and the rewrite finds no paragraph in it. *)
Theorem notes_not_parsed (m : gmap Z jsstring) (xmlFiles : list (jsstring * Dom.Node))
    (f : nat) (path : jsstring) (ns : Dom.Namespace) (name : string)
    (attrs : list (string * string)) (cs : list Dom.Node) :
  NoDup xmlFiles.*1 ->
  xmlFiles !! f = Some (path, Dom.Elem ns name attrs cs) ->
  Forall (fun c => Dom.isElem Dom.NS_w "footnote" c = true
                   \/ Dom.isElem Dom.NS_w "endnote" c = true) cs ->
  segmentsOfFile path (Parse.parseDocx xmlFiles) = []
  /\ Rebuild.rebuildDocx xmlFiles (Parse.parseDocx xmlFiles) m !! f = Some (path, []).
Proof.
  intros Hnd Hf Hcs. destruct (files_middle _ _ _ Hf) as [Hfiles _].
  unfold Rebuild.rebuildDocx. rewrite rebuild_perFile.
  change (List.map ?g xmlFiles) with (g <$> xmlFiles).
  rewrite list_lookup_fmap, Hf. cbn [fmap option_fmap option_map].
  change Parse.parseDocx with (Parse.parse Dom.Docx).
  revert Hnd. rewrite Hfiles at 1 2 3. intros Hnd.
  destruct (perFile_parsed Dom.Docx m _ _ _ Hnd) as (Hseg & _ & Hfile).
  cbn [fst snd] in *. rewrite Hseg, Hfile.
  unfold fileContent, contentParagraphs. cbn [fst snd Dom.fileParagraphs].
  by rewrite (notes_no_paragraphs _ _ _ _ Hcs).
Qed.

Lemma notes_not_parsed_witness :
  segmentsOfFile (lit "word/footnotes.xml") (Parse.parseDocx notesFiles) = []
  /\ Rebuild.rebuildDocx notesFiles (Parse.parseDocx notesFiles) ∅ !! 1%nat
     = Some (lit "word/footnotes.xml", []).
Proof.
  apply (notes_not_parsed ∅ notesFiles 1 (lit "word/footnotes.xml") Dom.NS_w "footnotes" []
           [Dom.Elem Dom.NS_w "footnote" [] [paragraph "A note"]]).
  - apply NoDup_paths. vm_compute. reflexivity.
  - reflexivity.
  - repeat constructor.
Defined.

(** ** The earlier DOCX rebuilder *)

Section EarlierFacts.

Import Dom.

Lemma take_drop_length {A} (n : nat) (l : list A) :
  take n l ++ drop (length (take n l)) l = l.
Proof.
  rewrite length_take. destruct (Nat.le_ge_cases n (length l)).
  - rewrite Nat.min_l by done. apply take_drop.
  - rewrite Nat.min_r by done. by rewrite take_ge, drop_all, app_nil_r.
Qed.

Lemma substringTo_take (s : jsstring) (n : float) :
  exists i, Earlier.substringTo s n = take i s.
Proof.
  unfold Earlier.substringTo. destruct (Prim2SF n) as [| [|] | |[|] m e];
    try (by exists 0%nat); try (by eexists).
  exists (length s). by rewrite firstn_all.
Qed.

Lemma earlier_distribute_cons (total newLen : float) (l l' : nat) (rest : list nat)
    (remaining : jsstring) :
  Earlier.distribute total newLen (l :: l' :: rest) remaining
  = let chunkLen :=
      Math_round (PrimFloat.mul newLen (PrimFloat.div (num (Z.of_nat l)) total)) in
    let chunk := Earlier.substringTo remaining chunkLen in
    let lastSpace := Earlier.lastIndexOf SP chunk in
    let chunk :=
      if PrimFloat.ltb (PrimFloat.mul chunkLen 0.5) (num lastSpace)
      then take (Z.to_nat (lastSpace + 1)) remaining else chunk in
    chunk :: Earlier.distribute total newLen (l' :: rest) (drop (length chunk) remaining).
Proof. reflexivity. Qed.

(** The distribution by characters loses and repeats nothing. *)
Lemma earlier_distribute_concat (total newLen : float) (textRuns : list nat)
    (remaining : jsstring) :
  textRuns <> [] ->
  List.concat (Earlier.distribute total newLen textRuns remaining) = remaining.
Proof.
  revert remaining. induction textRuns as [|l rest IH]; intros remaining Hne; [done|].
  destruct rest as [|l' rest]; [cbn; by rewrite app_nil_r|].
  rewrite earlier_distribute_cons. cbv zeta.
  rewrite List.concat_cons, IH by done.
  destruct (substringTo_take remaining
              (Math_round (PrimFloat.mul newLen (PrimFloat.div (num (Z.of_nat l)) total))))
    as [i ->].
  destruct (PrimFloat.ltb _ _); apply take_drop_length.
Qed.

Lemma earlier_distribute_length (total newLen : float) (textRuns : list nat)
    (remaining : jsstring) :
  length (Earlier.distribute total newLen textRuns remaining) = length textRuns.
Proof.
  revert remaining. induction textRuns as [|l rest IH]; intros remaining; [done|].
  destruct rest as [|l' rest]; [done|].
  rewrite earlier_distribute_cons. cbv zeta.
  by rewrite length_cons, IH.
Qed.

Lemma earlier_chunksFor_length (total : float) (lengths : list nat) (newText : jsstring) :
  length (Earlier.chunksFor total lengths newText) = length lengths.
Proof.
  destruct lengths as [|l [|l' lengths]]; [done|done|].
  unfold Earlier.chunksFor. apply earlier_distribute_length.
Qed.

Lemma earlier_chunksFor_concat (total : float) (lengths : list nat) (newText : jsstring) :
  lengths <> [] -> List.concat (Earlier.chunksFor total lengths newText) = newText.
Proof.
  destruct lengths as [|l [|l' lengths]]; [done| |].
  - intros _. cbn. by rewrite app_nil_r.
  - intros _. unfold Earlier.chunksFor. by apply earlier_distribute_concat.
Qed.

Lemma earlier_replace_flat (p : Node) (newText : jsstring) :
  isContent Docx p = true ->
  extractText Docx (Earlier.replaceParagraphText p newText) = newText.
Proof.
  intros Hne%content_textRuns. unfold Earlier.replaceParagraphText. cbv zeta.
  fold (textRunLengths Docx (getRuns Docx p)) (originalLength Docx p).
  destruct p as [s|ns name attrs cs]; [done|].
  set (total := originalLength Docx _).
  destruct (textRunLengths Docx (getRuns Docx (Elem ns name attrs cs)))
    as [|l ls] eqn:E; [done|].
  pose proof (writeRuns_spec Docx ns name attrs cs
                (Earlier.chunksFor total (l :: ls) newText)) as Hw.
  cbv zeta in Hw. rewrite E, earlier_chunksFor_length in Hw.
  specialize (Hw (Nat.le_refl _)).
  unfold flatText in Hw. unfold extractText. rewrite Hw.
  rewrite <- (earlier_chunksFor_length total (l :: ls) newText), firstn_all.
  by apply earlier_chunksFor_concat.
Qed.

Variable m : gmap Z jsstring.

Lemma rewriteParas_numbered (path : jsstring) (cps : list Node) (n0 : Z) :
  Earlier.rewriteParas m (numbered Docx n0 (List.map (pair path) cps)) cps
  = zip_with (rewrittenEarlier m) (numbered Docx n0 (List.map (pair path) cps)) cps.
Proof.
  revert n0. induction cps as [|q cps IH]; intros n0; [done|].
  rewrite List.map_cons, numbered_cons. cbn [Earlier.rewriteParas zip_with fst snd text].
  unfold strEq. rewrite bool_decide_eq_true_2 by done.
  by rewrite IH.
Qed.

Lemma rewrittenEarlier_texts (path : jsstring) (cps : list Node) (n0 : Z) :
  Forall (fun q => isContent Docx q = true) cps ->
  extractText Docx
    <$> zip_with (rewrittenEarlier m) (numbered Docx n0 (List.map (pair path) cps)) cps
  = textAfter m <$> numbered Docx n0 (List.map (pair path) cps).
Proof.
  intros Hall. revert n0. induction Hall as [|q cps Hq _ IH]; intros n0; [done|].
  rewrite List.map_cons, numbered_cons. cbn [zip_with fst snd].
  rewrite !fmap_cons, IH. f_equal.
  unfold rewrittenEarlier, textAfter. cbn [id text].
  destruct (m !! n0); [by apply earlier_replace_flat|done].
Qed.

End EarlierFacts.

(** X28. The earlier [replaceParagraphText]: a content paragraph reads
    exactly the new text afterwards, and nothing changes but its text
    elements. *)
Theorem earlier_replace (p : Dom.Node) (newText : jsstring) :
  Dom.isContent Dom.Docx p = true ->
  Dom.extractText Dom.Docx (Earlier.replaceParagraphText p newText) = newText
  /\ eraseText Dom.Docx (Earlier.replaceParagraphText p newText) = eraseText Dom.Docx p.
Proof.
  intros Hc. split; [by apply earlier_replace_flat|].
  unfold Earlier.replaceParagraphText. cbv zeta.
  destruct p as [s|ns name attrs cs]; [done|].
  destruct (List.filter _ _); [done|].
  apply eraseText_children, writeRunsDocx_erase.
Qed.

Lemma earlier_replace_witness :
  Dom.extractText Dom.Docx
    (Earlier.replaceParagraphText boldParagraph (lit "Bonjour le monde"))
  = lit "Bonjour le monde"
  /\ eraseText Dom.Docx
       (Earlier.replaceParagraphText boldParagraph (lit "Bonjour le monde"))
     = eraseText Dom.Docx boldParagraph.
Proof.
  apply (earlier_replace boldParagraph (lit "Bonjour le monde")).
  vm_compute. reflexivity.
Defined.

(** The examples: the first run takes its share of the characters, cut back
    to the last space; without a space the word is cut in two. *)
Example earlier_replace_example :
  Dom.runText Dom.Docx
    <$> Dom.getRuns Dom.Docx
          (Earlier.replaceParagraphText boldParagraph (lit "Bonjour le monde"))
  = [lit "Bonjour "; lit "le monde"]
  /\ Dom.runText Dom.Docx
       <$> Dom.getRuns Dom.Docx
             (Earlier.replaceParagraphText boldParagraph (lit "Internationalisation"))
     = [lit "Internation"; lit "alisation"].
Proof. vm_compute. done. Qed.

(** X29. The earlier [rebuildDocx] on a parsed document: every content
    paragraph of a file passes the verification of its text, so that it is
    paired with the segment the parser made of it; the paragraphs whose
    segment has a mapping entry read their translation, the others are left as
    they are. *)
Theorem earlier_rebuild_parsed (m : gmap Z jsstring)
    (xmlFiles : list (jsstring * Dom.Node)) (f : nat) (path : jsstring) (doc : Dom.Node) :
  NoDup xmlFiles.*1 ->
  xmlFiles !! f = Some (path, doc) ->
  let fileSegments := segmentsOfFile path (Parse.parseDocx xmlFiles) in
  let paras := zip_with (rewrittenEarlier m) fileSegments (contentParagraphs Dom.Docx doc) in
  Earlier.rebuildDocx xmlFiles (Parse.parseDocx xmlFiles) m !! f = Some (path, paras)
  /\ Dom.extractText Dom.Docx <$> paras = textAfter m <$> fileSegments.
Proof.
  intros Hnd Hf fileSegments paras.
  destruct (files_middle _ _ _ Hf) as [Hfiles _].
  assert (fileSegments
          = numbered Dom.Docx (Z.of_nat (length (List.concat
              (List.map (fileContent Dom.Docx) (take f xmlFiles)))))
              (List.map (pair path) (contentParagraphs Dom.Docx doc))) as Hseg.
  { unfold fileSegments. change Parse.parseDocx with (Parse.parse Dom.Docx).
    revert Hnd. rewrite Hfiles at 1 2. intros Hnd.
    destruct (perFile_parsed Dom.Docx m _ _ _ Hnd) as (Hs & _).
    cbn [fst snd] in Hs. by rewrite Hs. }
  split.
  - unfold Earlier.rebuildDocx.
    change (List.map ?g xmlFiles) with (g <$> xmlFiles).
    rewrite list_lookup_fmap, Hf. cbn [fmap option_fmap option_map].
    do 2 f_equal. fold (segmentsOfFile path (Parse.parseDocx xmlFiles)). fold fileSegments.
    fold (contentParagraphs Dom.Docx doc). unfold paras. rewrite Hseg.
    rewrite rewriteParas_numbered.
    change (List.filter (Dom.isContent Dom.Docx) (Dom.getAllParagraphs doc))
      with (contentParagraphs Dom.Docx doc).
    rewrite numbered_length, length_map.
    by destruct (contentParagraphs Dom.Docx doc).
  - unfold paras. rewrite Hseg. apply rewrittenEarlier_texts, contentParagraphs_content.
Qed.

Lemma earlier_rebuild_parsed_witness :
  Earlier.rebuildDocx exampleFiles (Parse.parseDocx exampleFiles) flaggedMapping !! 0%nat
  = Some (lit "word/document.xml",
          [Earlier.replaceParagraphText (paragraph "Hello world") (lit "Bonjour");
           mixedParagraph])
  /\ Dom.extractText Dom.Docx
       <$> [Earlier.replaceParagraphText (paragraph "Hello world") (lit "Bonjour");
            mixedParagraph]
     = [lit "Bonjour"; lit "Hello big bad world"].
Proof.
  apply (earlier_rebuild_parsed flaggedMapping exampleFiles 0 (lit "word/document.xml")
           (Dom.Elem Dom.NS_w "document" []
              [Dom.Elem Dom.NS_w "body" []
                 [paragraph "Hello world"; emptyParagraph;
                  Dom.Elem Dom.NS_w "tbl" []
                    [Dom.Elem Dom.NS_w "tr" []
                       [Dom.Elem Dom.NS_w "tc" [] [mixedParagraph]]]]])).
  - apply NoDup_paths. vm_compute. reflexivity.
  - reflexivity.
Defined.

(** X30. The earlier [rebuildDocx] stalls on a text it does not find: when
    no content paragraph of the file has the trimmed text of the current
    segment, no paragraph is rewritten, for this segment or a later one. *)
Theorem earlier_mismatch_stalls (m : gmap Z jsstring) (segment : Segment)
    (segments : list Segment) (contentParas : list Dom.Node) :
  Forall (fun q => trim (Dom.extractText Dom.Docx q) <> trim (text segment)) contentParas ->
  Earlier.rewriteParas m (segment :: segments) contentParas = contentParas.
Proof.
  induction 1 as [|q qs Hq _ IH]; [done|].
  cbn [Earlier.rewriteParas]. unfold strEq.
  by rewrite bool_decide_eq_false_2, IH.
Qed.

Lemma earlier_mismatch_stalls_witness :
  Earlier.rewriteParas (<[1 := lit "Page"]> flaggedMapping)
    [segment 0 "Hello, world"; segment 1 "Page"]
    [paragraph "Hello world"; paragraph "Page"]
  = [paragraph "Hello world"; paragraph "Page"].
Proof.
  apply (earlier_mismatch_stalls (<[1 := lit "Page"]> flaggedMapping)
           (segment 0 "Hello, world") [segment 1 "Page"]
           [paragraph "Hello world"; paragraph "Page"]).
  repeat constructor; vm_compute; discriminate.
Defined.
